(** * lzjs 1.2.3: a shallow embedding of the codec and its properties

    The development follows [src/lzjs.js]: a JavaScript string is the list
    of its UTF-16 code units, numbers are integers in [Z], and every loop of
    the source is a recursive function of the same shape.  Loops whose
    termination is not structural carry a fuel argument, spend one unit at
    each test of the loop and answer [None] when none is left; the theorems
    show that this never happens.  Strings are lists of any length: the
    [RangeError] of an engine for a string beyond its greatest length is
    not modelled, and the bounds proved on the length of a result say when
    it cannot arise. *)

From Stdlib Require Import ZArith Lia Bool Ascii String.
From stdpp Require Import base option list gmap.

Open Scope Z_scope.

(** ** JavaScript strings *)

Abbreviation jstring := (list Z).

(** A string literal of the source, as code units. *)
Definition str (s : string) : jstring :=
  List.map (fun a => Z.of_N (N_of_ascii a)) (list_ascii_of_string s).

Module JS.

(** [String.fromCharCode] applies ToUint16 to its argument. *)
Definition fromCharCode (c : Z) : Z := c mod 65536.

Definition len (s : jstring) : Z := Z.of_nat (length s).

(** [s.charCodeAt(i)]; [None] stands for NaN. *)
Definition charCodeAt (s : jstring) (i : Z) : option Z :=
  if i <? 0 then None else s !! Z.to_nat i.

(** [s.charAt(i)]: the empty string outside the range. *)
Definition charAt (s : jstring) (i : Z) : jstring :=
  match charCodeAt s i with Some c => [c] | None => [] end.

Definition clamp (s : jstring) (i : Z) : Z := Z.min (Z.max i 0) (len s).

(** [s.substring(a, b)]: both ends clamped to the string, then ordered. *)
Definition substring (s : jstring) (a b : Z) : jstring :=
  let a' := clamp s a in
  let b' := clamp s b in
  let lo := Z.min a' b' in
  let hi := Z.max a' b' in
  take (Z.to_nat (hi - lo)) (drop (Z.to_nat lo) s).

(** [s.substring(a)]. *)
Definition substring_from (s : jstring) (a : Z) : jstring :=
  substring s a (len s).

(** [s.slice(a)]: a negative start counts from the end. *)
Definition slice_from (s : jstring) (a : Z) : jstring :=
  let from := if a <? 0 then Z.max (len s + a) 0 else Z.min a (len s) in
  drop (Z.to_nat from) s.

(** [s.slice(a, b)] for [0 <= a] and [0 <= b]. *)
Definition slice (s : jstring) (a b : Z) : jstring :=
  let from := Z.min a (len s) in
  let to := Z.min b (len s) in
  take (Z.to_nat (to - from)) (drop (Z.to_nat from) s).

(** [s.substr(start, n)] for [0 <= start]. *)
Definition substr (s : jstring) (start n : Z) : jstring :=
  let from := Z.min start (len s) in
  take (Z.to_nat (Z.min (Z.max n 0) (len s - from))) (drop (Z.to_nat from) s).

(** [prefixb s w]: [w] starts with [s]. *)
Fixpoint prefixb (s w : jstring) : bool :=
  match s, w with
  | [], _ => true
  | _ :: _, [] => false
  | x :: s', y :: w' => (x =? y) && prefixb s' w'
  end.

(** [w.indexOf(s)]: the least position at which [s] occurs, or -1. *)
Fixpoint indexOf_from (w s : jstring) (k : Z) : Z :=
  if prefixb s w then k
  else match w with
       | [] => -1
       | _ :: w' => indexOf_from w' s (k + 1)
       end.

Definition indexOf (w s : jstring) : Z := indexOf_from w s 0.

(** [w.lastIndexOf(s, limit)]: the greatest position not above [limit]
    at which [s] occurs, or -1. *)
Fixpoint lastIndexOf_from (w s : jstring) (limit k best : Z) : Z :=
  let best' := if (k <=? limit) && prefixb s w then k else best in
  match w with
  | [] => best'
  | _ :: w' => lastIndexOf_from w' s limit (k + 1) best'
  end.

Definition lastIndexOf (w s : jstring) (limit : Z) : Z :=
  lastIndexOf_from w s (Z.max limit 0) 0 (-1).

End JS.

(** ** The alphabet and the constants derived from it *)

Definition esc (i : Z) : bool :=
  (i =? 0x8) || (i =? 0xa) || (i =? 0xb) || (i =? 0xc) || (i =? 0xd)
  || (i =? 0x5c).

Definition TABLE : jstring :=
  fold_left (fun table i => if esc i then table else table ++ [JS.fromCharCode
      i])
            (seqZ 0 0x7f) [].

Definition TABLE_LENGTH : Z := Eval vm_compute in JS.len TABLE.
Definition TABLE_DIFF : Z :=
  Eval vm_compute in Z.max TABLE_LENGTH 62 - Z.min TABLE_LENGTH 62.
Definition BUFFER_MAX : Z := Eval vm_compute in TABLE_LENGTH - 1.

Definition WINDOW_MAX : Z := 1024.
Definition WINDOW_BUFFER_MAX : Z := 304.

Definition APPLY_BUFFER_SIZE : Z := 65533.
Definition COMPRESS_CHUNK_SIZE : Z := APPLY_BUFFER_SIZE.
Definition COMPRESS_CHUNK_MAX : Z :=
  Eval vm_compute in COMPRESS_CHUNK_SIZE - TABLE_LENGTH.

Definition LATIN_CHAR_MAX : Z := 11.
Definition LATIN_BUFFER_MAX : Z :=
  Eval vm_compute in LATIN_CHAR_MAX * (LATIN_CHAR_MAX + 1).
Definition UNICODE_CHAR_MAX : Z := 40.
Definition UNICODE_BUFFER_MAX : Z :=
  Eval vm_compute in UNICODE_CHAR_MAX * (UNICODE_CHAR_MAX + 1).

Definition LATIN_INDEX : Z := Eval vm_compute in TABLE_LENGTH + 1.
Definition LATIN_INDEX_START : Z := Eval vm_compute in TABLE_DIFF + 20.
Definition UNICODE_INDEX : Z := Eval vm_compute in TABLE_LENGTH + 5.

Definition DECODE_MAX : Z := Eval vm_compute in TABLE_LENGTH - TABLE_DIFF - 19.
Definition LATIN_DECODE_MAX : Z := Eval vm_compute in UNICODE_CHAR_MAX + 7.
Definition CHAR_START : Z := Eval vm_compute in LATIN_DECODE_MAX + 1.
Definition COMPRESS_START : Z := Eval vm_compute in CHAR_START + 1.
Definition COMPRESS_FIXED_START : Z := Eval vm_compute in COMPRESS_START + 5.
Definition COMPRESS_INDEX : Z := Eval vm_compute in COMPRESS_FIXED_START + 5.

(** The alphabet [A] of the specification, as a predicate on code units. *)
Definition in_alphabet (c : Z) : Prop :=
  0 <= c < 0x7f /\ c <> 0x8 /\ c <> 0xa /\ c <> 0xb /\ c <> 0xc /\ c <> 0xd
  /\ c <> 0x5c.

(** ** The sliding window *)

Definition alpha : jstring := str "abcdefghijklmnopqrstuvwxyz".

(** The inner [for] of [createWindow]: [j] runs downwards while [j > 15]
    and the window is not full. *)
Fixpoint window_row (c : jstring) (j : nat) (win : jstring) : jstring :=
  if (15 <? Z.of_nat j) && (JS.len win <? WINDOW_MAX) then
    let win' := win ++ str " " ++ c ++ str " " ++ JS.charAt alpha (Z.of_nat j)
        in
    match j with
    | O => win'
    | S j' => window_row c j' win'
    end
  else win.

Definition window_rows : jstring :=
  fold_left (fun win i => window_row (JS.charAt alpha i)
                                     (Z.to_nat (JS.len alpha - 1)) win)
            (seqZ 0 (JS.len alpha)) [].

(** [while (win.length < WINDOW_MAX) win = ' ' + win]. *)
Fixpoint window_pad (fuel : nat) (win : jstring) : option jstring :=
  match fuel with
  | O => None
  | S fuel' =>
    if JS.len win <? WINDOW_MAX then window_pad fuel' (str " " ++ win)
    else Some win
  end.

Definition createWindow_run : option jstring :=
  win ← window_pad (S (Z.to_nat WINDOW_MAX)) window_rows;
  Some (JS.slice win 0 WINDOW_MAX).

Definition createWindow : jstring :=
  Eval vm_compute in default [] createWindow_run.

(** ** Values returned by the compressors

    The compressors return a string, or [false] when the byte budget is
    exceeded.  A model function of type [option jsret] answers [None] where
    the source would raise a [TypeError], where it would read a local that
    is still undefined or a character past the end of its data, and where
    the fuel of a loop is used up.  None of these happens, as the
    properties [lzw_compress_total] and [lzss_compress_total] show. *)

Inductive jsret : Type :=
| RStr (s : jstring)
| RFalse.

(** [x > maxBytes], where an omitted [maxBytes] is [undefined] and the
    comparison with [undefined] is false. *)
Definition exceeds (x : Z) (maxBytes : option Z) : bool :=
  match maxBytes with
  | Some m => m <? x
  | None => false
  end.

(** ** UTF-8 bridge *)

(** [x & m] where [x] may be NaN; ToInt32(NaN) is 0. *)
Definition band (x : option Z) (m : Z) : Z :=
  match x with Some v => Z.land v m | None => 0 end.

Definition toUTF8_unit (c : Z) : jstring :=
  if c <? 0x80 then [JS.fromCharCode c]
  else if c <? 0x800 then
    [JS.fromCharCode (Z.lor 0xc0 (Z.land (Z.shiftr c 6) 0x1f));
     JS.fromCharCode (Z.lor 0x80 (Z.land c 0x3f))]
  else if c <? 0x10000 then
    [JS.fromCharCode (Z.lor 0xe0 (Z.land (Z.shiftr c 12) 0xf));
     JS.fromCharCode (Z.lor 0x80 (Z.land (Z.shiftr c 6) 0x3f));
     JS.fromCharCode (Z.lor 0x80 (Z.land c 0x3f))]
  else [].

Fixpoint toUTF8_loop (data result : jstring) : jstring :=
  match data with
  | [] => result
  | c :: data' => toUTF8_loop data' (result ++ toUTF8_unit c)
  end.

Definition toUTF8 (data : jstring) : jstring := toUTF8_loop data [].

Definition utf16_pair (c : Z) (c2 : option Z) : Z :=
  JS.fromCharCode (Z.lor (Z.shiftl (Z.land c 0x1f) 6) (band c2 0x3f)).

Definition utf16_triple (c : Z) (c2 c3 : option Z) : Z :=
  JS.fromCharCode (Z.lor (Z.lor (Z.shiftl (Z.land c 0xf) 12)
                                (Z.shiftl (band c2 0x3f) 6))
                         (band c3 0x3f)).

(** The cursor [i] of [toUTF16] is the start of the remaining input; a
    read past the end gives NaN and leaves the loop. *)
Fixpoint toUTF16_loop (data result : jstring) : jstring :=
  match data with
  | [] => result
  | c :: data1 =>
    let n := Z.shiftr c 4 in
    if (0 <=? n) && (n <=? 7) then
      toUTF16_loop data1 (result ++ [JS.fromCharCode c])
    else if (12 <=? n) && (n <=? 13) then
      match data1 with
      | [] => result ++ [utf16_pair c None]
      | c2 :: data2 => toUTF16_loop data2 (result ++ [utf16_pair c (Some c2)])
      end
    else if n =? 14 then
      match data1 with
      | [] => result ++ [utf16_triple c None None]
      | c2 :: [] => result ++ [utf16_triple c (Some c2) None]
      | c2 :: c3 :: data3 =>
        toUTF16_loop data3 (result ++ [utf16_triple c (Some c2) (Some c3)])
      end
    else toUTF16_loop data1 result
  end.

Definition toUTF16 (data : jstring) : jstring := toUTF16_loop data [].

Fixpoint byteLength_loop (data : jstring) (length : Z) : Z :=
  match data with
  | [] => length
  | c :: data' =>
    byteLength_loop data'
      (if c <? 0x80 then length + 1
       else if c <? 0x800 then length + 2
       else length + 3)
  end.

Definition byteLength (data : jstring) : Z := byteLength_loop data 0.

(** ** LZW *)

Module LZW.

(** The [options] object: every field may be absent. *)
Record options : Type := Options {
  codeStart : option Z;
  codeMax : option Z;
  maxBytes : option Z
}.

(** [v || d]: an absent or zero option takes the default. *)
Definition or_default (v : option Z) (d : Z) : Z :=
  match v with
  | Some x => if x =? 0 then d else x
  | None => d
  end.

(** The fields set by [_init]. *)
Record instance : Type := Instance {
  _codeStart : Z;
  _codeMax : Z;
  _maxBytes : option Z
}.

Definition _init (o : options) : instance :=
  {| _codeStart := or_default (codeStart o) 0xff;
     _codeMax := or_default (codeMax o) 0xffff;
     _maxBytes := maxBytes o |}.

(** [1 << n] on 32-bit integers: the shift count is taken modulo 32 and
    bit 31 is the sign. *)
Definition shl1 (n : Z) : Z :=
  let k := Z.land n 31 in
  if k =? 31 then - 2 ^ 31 else Z.shiftl 1 k.

(** [obj[key] = v] on a plain object: the key [__proto__] is the
    prototype accessor, and assigning a string to it stores nothing. *)
Definition proto_key : jstring := str "__proto__".

Definition set_own (o : gmap jstring Z) (key : jstring) (v : Z)
  : gmap jstring Z :=
  if bool_decide (key = proto_key) then o else <[key := v]> o.

(** [hasOwnProperty.call(o, key)]; a [TypeError] when [o] is undefined. *)
Definition hasOwn (o : option (gmap jstring Z)) (key : jstring)
  : option bool :=
  m ← o; Some (bool_decide (is_Some (m !! key))).

(** The locals of [compress]. *)
Record cstate : Type := CState {
  result : jstring;
  resultBytes : Z;
  buffer : jstring;
  code : Z;
  codeBytes : Z;
  dict : gmap Z (gmap jstring Z);
  dictLen : Z
}.

(** The test [(length < 32 && (dictLen & bitLen)) ||
    (length >= 32 && dict[length] !== void 0)]. *)
Definition slot_seen (st : cstate) (length : Z) : bool :=
  ((length <? 32) && negb (Z.land (dictLen st) (shl1 length) =? 0))
  || ((32 <=? length) && bool_decide (is_Some (dict st !! length))).

(** The whole condition of the [if]; [&&] does not evaluate
    [hasOwnProperty.call] when its left operand is false. *)
Definition known (st : cstate) (key : jstring) : option bool :=
  if slot_seen st (JS.len key) then hasOwn (dict st !! JS.len key) key
  else Some false.

(** The emission for the pending [buffer]: the text appended to
    [result] and the bytes charged. *)
Definition emission (st : cstate) : option (jstring * Z) :=
  if JS.len (buffer st) =? 1 then Some (buffer st, 1)
  else
    o ← dict st !! JS.len (buffer st);
    Some (match o !! buffer st with
          | Some v => [v]
          | None => str "undefined"
          end, codeBytes st).

(** The body of [if (code <= codeMax)]. *)
Definition learn (st : cstate) (c : Z) : option cstate :=
  let key := buffer st ++ [c] in
  let length := JS.len key in
  let bitLen := shl1 length in
  let fresh :=
    ((length <? 32) && (Z.land (dictLen st) bitLen =? 0))
    || ((32 <=? length) && bool_decide (dict st !! length = None)) in
  let dict1 := if fresh then <[length := ∅]> (dict st) else dict st in
  let dictLen1 := if fresh then Z.lor (dictLen st) bitLen else dictLen st in
  o ← dict1 !! length;
  let dict2 := <[length := set_own o key (JS.fromCharCode (code st))]> dict1 in
  let code1 := code st + 1 in
  Some {| result := result st; resultBytes := resultBytes st;
          buffer := buffer st; code := code1;
          codeBytes := if code1 =? 0x800 then 3 else codeBytes st;
          dict := dict2; dictLen := dictLen1 |}.

Fixpoint compress_loop (this : instance) (codeMax : Z) (data : jstring)
         (st : cstate) : option jsret :=
  match data with
  | [] =>
    e ← emission st;
    if exceeds (resultBytes st + e.2) (_maxBytes this) then Some RFalse
    else Some (RStr (result st ++ e.1))
  | c :: data' =>
    b ← known st (buffer st ++ [c]);
    if b : bool then
      compress_loop this codeMax data'
        {| result := result st; resultBytes := resultBytes st;
           buffer := buffer st ++ [c]; code := code st;
           codeBytes := codeBytes st; dict := dict st;
           dictLen := dictLen st |}
    else
      e ← emission st;
      let st1 :=
        {| result := result st ++ e.1;
           resultBytes := resultBytes st + e.2;
           buffer := buffer st; code := code st;
           codeBytes := codeBytes st; dict := dict st;
           dictLen := dictLen st |} in
      if exceeds (resultBytes st1) (_maxBytes this) then Some RFalse
      else
        st2 ← (if code st1 <=? codeMax then learn st1 c else Some st1);
        compress_loop this codeMax data'
          {| result := result st2; resultBytes := resultBytes st2;
             buffer := [c]; code := code st2;
             codeBytes := codeBytes st2; dict := dict st2;
             dictLen := dictLen st2 |}
  end.

Definition compress (this : instance) (data : jstring) : option jsret :=
  match data with
  | [] => Some (RStr [])
  | c :: data' =>
    compress_loop this (_codeMax this) data'
      {| result := []; resultBytes := 0; buffer := [c];
         code := _codeStart this + 1; codeBytes := 2;
         dict := ∅; dictLen := 0 |}
  end.

(** The locals of [decompress]. *)
Record dstate : Type := DState {
  d_result : jstring;
  d_dict : gmap Z jstring;
  d_code : Z;
  d_codeMax : Z;
  d_ch : jstring;
  d_prev : jstring
}.

(** One turn of the [while] loop, for the code [c] just read. *)
Definition decompress_step (st : dstate) (c : Z) : dstate :=
  let buffer :=
    if c <=? d_codeMax st then [JS.fromCharCode c]
    else match d_dict st !! c with
         | Some s => s
         | None => d_prev st ++ d_ch st
         end in
  let ch := JS.charAt buffer 0 in
  {| d_result := d_result st ++ buffer;
     d_dict := <[d_code st := d_prev st ++ ch]> (d_dict st);
     d_code := d_code st + 1;
     d_codeMax := d_codeMax st;
     d_ch := ch;
     d_prev := buffer |}.

Fixpoint decompress_loop (data : jstring) (st : dstate) : dstate :=
  match data with
  | [] => st
  | c :: data' => decompress_loop data' (decompress_step st c)
  end.

(** The state after the first code has been read. *)
Definition decompress_start (this : instance) (c : Z) : dstate :=
  let ch := [JS.fromCharCode c] in
  {| d_result := ch; d_dict := ∅; d_code := _codeStart this + 1;
     d_codeMax := _codeStart this; d_ch := ch; d_prev := ch |}.

Definition decompress (this : instance) (data : jstring) : jstring :=
  match data with
  | [] => []
  | c :: data' => d_result (decompress_loop data' (decompress_start this c))
  end.

End LZW.

(** ** Buffers *)

(** [bufferToString(buffer, length)] on the written part of the buffer. *)
Definition bufferToString (buf : list Z) : jstring := JS.fromCharCode <$> buf.

(** ** The LZSS compressor *)

Module LZSSCompressor.

(** [_createTable] of the compressor: the code units of [TABLE] in a
    byte array. *)
Definition _createTable : list Z :=
  (fun i => default 0 (JS.charCodeAt TABLE i)) <$> seqZ 0 TABLE_LENGTH.

(** The byte stored by [buffer[i++] = table[x]]: reading outside the
    table gives [undefined], which a byte array stores as 0. *)
Definition table_byte (x : Z) : Z :=
  match JS.charCodeAt _createTable x with
  | Some v => v mod 256
  | None => 0
  end.

(** [a !== b] on numbers, where [None] is NaN. *)
Definition strict_ne (a b : option Z) : bool :=
  match a, b with
  | Some x, Some y => negb (x =? y)
  | _, _ => true
  end.

(** The inner [do ... while (++i < len)] of [_search]; the result is
    the value of [i] on leaving the loop. *)
Fixpoint search_extend (fuel : nat) (data : jstring) (offset j len i : Z)
  : option Z :=
  match fuel with
  | O => None
  | S fuel' =>
    if strict_ne (JS.charCodeAt data (offset + i)) (JS.charCodeAt data (j + i))
    then Some i
    else
      let i := i + 1 in
      if i <? len then search_extend fuel' data offset j len i
      else Some i
  end.

(** The outer [do ... while (++i < len)] of [_search].  [index] and
    [bestIndex] are undefined ([None]) until first assigned.  The result is
    [(i, bestIndex)] on leaving the loop. *)
Fixpoint search_loop (fuel : nat) (data win : jstring)
         (offset pos limit len : Z) (i : Z) (s : jstring)
         (index bestIndex : option Z) : option (Z * option Z) :=
  match fuel with
  | O => None
  | S fuel' =>
    let '(s, index, stop) :=
      if i =? 2 then
        let s := JS.charAt data offset ++ JS.charAt data (offset + 1) in
        let index := JS.indexOf win s in
        (s, Some index, (index =? -1) || (limit <? index))
      else if i =? 3 then (s ++ JS.charAt data (offset + 2), index, false)
      else (JS.substr data offset i, index, false) in
    if stop then Some (i, bestIndex)
    else
      let lastIndex := JS.lastIndexOf win s limit in
      if lastIndex =? -1 then Some (i, bestIndex)
      else
        let bestIndex := Some lastIndex in
        let j := pos + lastIndex in
        i ← search_extend (Z.to_nat len) data offset j len i;
        if bool_decide (index = Some lastIndex) then Some (i + 1, bestIndex)
        else
          let i := i + 1 in
          if i <? len then
            search_loop fuel' data win offset pos limit len i s index
                        bestIndex
          else Some (i, bestIndex)
  end.

(** [_search]: [Some None] is the result [false]; [Some (Some (index,
    length))] is the result [true] with [this._index] and [this._length]
    set.  No answer is given where [bestIndex] would be read undefined. *)
Definition _search (data : jstring) (offset dataLen : Z)
  : option (option (Z * Z)) :=
  let i := 2 in
  let len := if dataLen - offset <? BUFFER_MAX then dataLen - offset
             else BUFFER_MAX in
  if len <? i then Some None
  else
    let pos := offset - WINDOW_BUFFER_MAX in
    let win := JS.substring data pos (offset + len) in
    let limit := offset + i - 3 - pos in
    r ← search_loop (Z.to_nat len) data win offset pos limit len i []
                    None None;
    if r.1 =? 2 then Some None
    else
      bestIndex ← r.2;
      Some (Some (WINDOW_BUFFER_MAX - bestIndex, r.1 - 1)).

(** The locals of [compress] that change in the main loop; [buf] holds
    the first [i] bytes of [buffer]. *)
Record cstate : Type := CState {
  offset : Z;
  lastIndex : Z;
  buf : list Z;
  result : jstring;
  bytes : Z
}.

(** The branch taken when [_search] fails: the symbols written for the
    code unit [c], the bytes charged and the new [lastIndex]. *)
Definition literal (c lastIndex : Z) : list Z * Z * Z :=
  if c <? LATIN_BUFFER_MAX then
    let c1 := if c <? UNICODE_CHAR_MAX then c else Z.rem c UNICODE_CHAR_MAX in
    let c2 := if c <? UNICODE_CHAR_MAX then 0
              else (c - c1) / UNICODE_CHAR_MAX in
    let index := if c <? UNICODE_CHAR_MAX then LATIN_INDEX
                 else c2 + LATIN_INDEX in
    if lastIndex =? index then ([table_byte c1], 1, lastIndex)
    else ([table_byte (index - LATIN_INDEX_START); table_byte c1], 2, index)
  else
    let c1 := if c <? UNICODE_BUFFER_MAX then c
              else Z.rem c UNICODE_BUFFER_MAX in
    let c2 := if c <? UNICODE_BUFFER_MAX then 0
              else (c - c1) / UNICODE_BUFFER_MAX in
    let index := if c <? UNICODE_BUFFER_MAX then UNICODE_INDEX
                 else c2 + UNICODE_INDEX in
    let c3 := if c1 <? UNICODE_CHAR_MAX then c1
              else Z.rem c1 UNICODE_CHAR_MAX in
    let c4 := if c1 <? UNICODE_CHAR_MAX then 0
              else (c1 - c3) / UNICODE_CHAR_MAX in
    if lastIndex =? index then ([table_byte c3; table_byte c4], 2, lastIndex)
    else ([table_byte CHAR_START; table_byte (index - TABLE_LENGTH);
           table_byte c3; table_byte c4], 4, index).

(** The branch taken when [_search] succeeds with [_index] and
    [_length]: the symbols written and the bytes charged. *)
Definition reference (_index _length : Z) : list Z * Z :=
  let c1 := if _index <? BUFFER_MAX then _index else Z.rem _index BUFFER_MAX in
  let c2 := if _index <? BUFFER_MAX then 0 else (_index - c1) / BUFFER_MAX in
  if _length =? 2 then
    ([table_byte (c2 + COMPRESS_FIXED_START); table_byte c1], 2)
  else
    ([table_byte (c2 + COMPRESS_START); table_byte c1; table_byte _length], 3).

(** The main [while] loop.  Without an [onData] callback [_onData]
    appends the chunk to [this._result].  The character at [offset] exists
    as long as [offset < dataLen]; no answer is given otherwise. *)
Fixpoint compress_loop (fuel : nat) (maxBytes : option Z) (data : jstring)
         (dataLen : Z) (st : cstate) : option jsret :=
  match fuel with
  | O => None
  | S fuel' =>
    if offset st <? dataLen then
      found ← _search data (offset st) dataLen;
      st1 ← match found with
            | None =>
              c ← JS.charCodeAt data (offset st);
              let e := literal c (lastIndex st) in
              Some {| offset := offset st + 1; lastIndex := e.2;
                      buf := buf st ++ e.1.1; result := result st;
                      bytes := bytes st + e.1.2 |}
            | Some (_index, _length) =>
              let e := reference _index _length in
              Some {| offset := offset st + _length; lastIndex := -1;
                      buf := buf st ++ e.1; result := result st;
                      bytes := bytes st + e.2 |}
            end;
      if exceeds (bytes st1) maxBytes then Some RFalse
      else
        compress_loop fuel' maxBytes data dataLen
          (if COMPRESS_CHUNK_MAX <=? JS.len (buf st1) then
             {| offset := offset st1; lastIndex := lastIndex st1;
                buf := []; result := result st1 ++ bufferToString (buf st1);
                bytes := bytes st1 |}
           else st1)
    else
      Some (RStr (if 0 <? JS.len (buf st)
                  then result st ++ bufferToString (buf st)
                  else result st))
  end.

(** [compress]; the option [maxBytes] is the only one the dispatcher
    sets. *)
Definition compress (maxBytes : option Z) (data : jstring) : option jsret :=
  if JS.len data =? 0 then Some (RStr [])
  else
    let win := createWindow in
    let _data := win ++ data in
    compress_loop (S (length data)) maxBytes _data (JS.len _data)
      {| offset := JS.len win; lastIndex := -1; buf := []; result := [];
         bytes := 0 |}.

End LZSSCompressor.

(** ** The LZSS decompressor *)

Module LZSSDecompressor.

(** [_createTable] of the decompressor: an object from characters to
    their position in [TABLE]. *)
Definition _createTable : gmap Z Z :=
  fold_left (fun table i =>
               match JS.charCodeAt TABLE i with
               | Some ch => <[ch := i]> table
               | None => table
               end)
            (seqZ 0 TABLE_LENGTH) ∅.

(** The value of [index]: [null], NaN or a number. *)
Inductive jsnum : Type :=
| JNull
| JNaN
| JNum (z : Z).

(** ToNumber: [null] is 0; [None] is NaN. *)
Definition to_number (n : jsnum) : option Z :=
  match n with
  | JNull => Some 0
  | JNaN => None
  | JNum z => Some z
  end.

Definition of_number (x : option Z) : jsnum :=
  match x with
  | Some z => JNum z
  | None => JNaN
  end.

(** [fromCharCode(code)] where [code] may be NaN. *)
Definition fromCode (code : option Z) : jstring :=
  match code with
  | Some z => [JS.fromCharCode z]
  | None => [0]
  end.

Record dstate : Type := DState {
  d_result : jstring;
  d_out : bool;
  d_index : jsnum
}.

(** [code = index * UNICODE_CHAR_MAX + c]. *)
Definition latin_code (index : jsnum) (c : Z) : option Z :=
  i ← to_number index; Some (i * UNICODE_CHAR_MAX + c).

(** [code = c3 * UNICODE_CHAR_MAX + c + UNICODE_BUFFER_MAX * index],
    where [c3] is undefined when the symbol read is not in the table. *)
Definition unicode_code (c3 : option Z) (c : Z) (index : jsnum) : option Z :=
  c3 ← c3; i ← to_number index;
  Some (c3 * UNICODE_CHAR_MAX + c + UNICODE_BUFFER_MAX * i).

Definition put (st : dstate) (code : option Z) : dstate :=
  {| d_result := d_result st ++ fromCode code; d_out := d_out st;
     d_index := d_index st |}.

(** [while (shrink.length < length) shrink += sub]. *)
Fixpoint grow (fuel : nat) (sub : jstring) (length : Z) (shrink : jstring)
  : option jstring :=
  match fuel with
  | O => None
  | S fuel' =>
    if JS.len shrink <? length then grow fuel' sub length (shrink ++ sub)
    else Some shrink
  end.

(** The copy of a back reference.  [pos] is NaN ([None]) and [length]
    undefined ([None]) when their symbols are not in the table:
    [slice(-NaN)] is the whole string, [substring(0, undefined)] runs to
    the end, and no comparison with [undefined] holds. *)
Definition back (st : dstate) (pos length : option Z) : option dstate :=
  let tail := JS.slice_from (JS.slice_from (d_result st) (- WINDOW_BUFFER_MAX))
                            (match pos with Some p => - p | None => 0 end) in
  let sub := match length with
             | Some l => JS.substring tail 0 l
             | None => tail
             end in
  added ← match sub, length with
          | [], _ => Some []
          | _ :: _, None => Some []
          | _ :: _, Some l =>
            shrink ← grow (S (Z.to_nat l)) sub l [];
            Some (JS.substring shrink 0 l)
          end;
  Some {| d_result := d_result st ++ added; d_out := d_out st;
          d_index := JNull |}.

Definition position (c base : Z) (c2 : option Z) : option Z :=
  c2 ← c2; Some ((c - base) * BUFFER_MAX + c2).

(** The [for] loop over the input.  The cursor is the start of the
    remaining input; a symbol read by [++offset] past the end is the empty
    string, which is not in the table.  Without an [onData] callback the
    chunk test does nothing. *)
Fixpoint decompress_loop (data : jstring) (st : dstate) : option dstate :=
  match data with
  | [] => Some st
  | x :: data1 =>
    match _createTable !! x with
    | None => decompress_loop data1 st
    | Some c =>
      if c <? DECODE_MAX then
        if negb (d_out st) then
          decompress_loop data1 (put st (latin_code (d_index st) c))
        else
          match data1 with
          | [] => Some (put st (unicode_code None c (d_index st)))
          | y :: data2 =>
            decompress_loop data2
              (put st (unicode_code (_createTable !! y) c (d_index st)))
          end
      else if c <? LATIN_DECODE_MAX then
        decompress_loop data1
          {| d_result := d_result st; d_out := false;
             d_index := JNum (c - DECODE_MAX) |}
      else if c =? CHAR_START then
        match data1 with
        | [] => Some {| d_result := d_result st; d_out := true;
                        d_index := JNaN |}
        | y :: data2 =>
          decompress_loop data2
            {| d_result := d_result st; d_out := true;
               d_index := of_number (c2 ← _createTable !! y; Some (c2 - 5)) |}
        end
      else if c <? COMPRESS_INDEX then
        match data1 with
        | [] =>
          if c <? COMPRESS_FIXED_START then back st None None
          else back st None (Some 2)
        | y :: data2 =>
          let c2 := _createTable !! y in
          if c <? COMPRESS_FIXED_START then
            match data2 with
            | [] => back st (position c COMPRESS_START c2) None
            | z :: data3 =>
              st' ← back st (position c COMPRESS_START c2) (_createTable !! z);
              decompress_loop data3 st'
            end
          else
            st' ← back st (position c COMPRESS_FIXED_START c2) (Some 2);
            decompress_loop data2 st'
        end
      else decompress_loop data1 st
    end
  end.

Definition decompress (data : jstring) : option jstring :=
  if JS.len data =? 0 then Some []
  else
    st ← decompress_loop data
           {| d_result := createWindow; d_out := false; d_index := JNull |};
    Some (JS.substring_from (d_result st) WINDOW_MAX).

End LZSSDecompressor.

(** ** The dispatcher *)

Module LZJS.

Definition tagS : jstring := str "S".
Definition tagW : jstring := str "W".
Definition tagU : jstring := str "U".
Definition tagN : jstring := str "N".

(** [compress].  [dataBytes * 0.9 | 0] is the integer part of nine
    tenths of [dataBytes] (for lengths below 2^31); it only selects the
    order in which the codecs are tried. *)
Definition compress (data : jstring) : option jstring :=
  if JS.len data =? 0 then Some []
  else
    let dataBytes := byteLength data in
    let asciiLimitBytes := dataBytes * 9 / 10 in
    let len := JS.len data in
    if dataBytes =? len then
      let options := {| LZW.codeStart := Some 0x7f; LZW.codeMax := Some 0x7ff;
                        LZW.maxBytes := Some dataBytes |} in
      r ← LZW.compress (LZW._init options) data;
      match r with
      | RStr result => Some (tagW ++ result)
      | RFalse =>
        r ← LZSSCompressor.compress (LZW.maxBytes options) data;
        match r with
        | RStr result => Some (tagS ++ result)
        | RFalse => Some (tagN ++ data)
        end
      end
    else
      let options := {| LZW.codeStart := None; LZW.codeMax := None;
                        LZW.maxBytes := Some dataBytes |} in
      if (len <? dataBytes) && (asciiLimitBytes <? len) then
        r ← LZW.compress (LZW._init options) (toUTF8 data);
        match r with
        | RStr result => Some (tagU ++ result)
        | RFalse =>
          r ← LZSSCompressor.compress (LZW.maxBytes options) data;
          match r with
          | RStr result => Some (tagS ++ result)
          | RFalse => Some (tagN ++ data)
          end
        end
      else
        r ← LZSSCompressor.compress (LZW.maxBytes options) data;
        match r with
        | RStr result => Some (tagS ++ result)
        | RFalse =>
          r ← LZW.compress (LZW._init options) (toUTF8 data);
          match r with
          | RStr result =>
            if dataBytes <? byteLength result then Some (tagN ++ data)
            else Some (tagU ++ result)
          | RFalse => Some (tagN ++ data)
          end
        end.

Definition _decompressByS (data : jstring) : option jstring :=
  LZSSDecompressor.decompress data.

Definition _decompressByW (data : jstring) : option jstring :=
  Some (LZW.decompress
          (LZW._init {| LZW.codeStart := Some 0x7f; LZW.codeMax := Some 0x7ff;
                        LZW.maxBytes := None |}) data).

Definition _decompressByU (data : jstring) : option jstring :=
  Some (toUTF16
          (LZW.decompress
             (LZW._init {| LZW.codeStart := None; LZW.codeMax := None;
                           LZW.maxBytes := None |}) data)).

Definition _decompressByN (data : jstring) : option jstring := Some data.

Definition decompress (data : jstring) : option jstring :=
  if JS.len data =? 0 then Some []
  else
    let type := JS.charAt data 0 in
    if bool_decide (type = tagS) then _decompressByS (JS.substring_from data 1)
    else if bool_decide (type = tagW) then
      _decompressByW (JS.substring_from data 1)
    else if bool_decide (type = tagU) then
      _decompressByU (JS.substring_from data 1)
    else if bool_decide (type = tagN) then
      _decompressByN (JS.substring_from data 1)
    else Some data.

End LZJS.

(** ** Auxiliary definitions for the UTF-8 bridge *)

(** The code units of a JavaScript string. *)
Definition code_unit (c : Z) : Prop := 0 <= c < 0x10000.

(** What [toUTF16] does with the bytes of one code unit, as a check that
    is run on every code unit. *)
Definition unit_decodes (c : Z) : bool :=
  match toUTF8_unit c with
  | [b] => let n := Z.shiftr b 4 in
           (0 <=? n) && (n <=? 7) && (JS.fromCharCode b =? c)
  | [b1; b2] => let n := Z.shiftr b1 4 in
                negb ((0 <=? n) && (n <=? 7)) && (12 <=? n) && (n <=? 13)
                && (utf16_pair b1 (Some b2) =? c)
  | [b1; b2; b3] => let n := Z.shiftr b1 4 in
                    negb ((0 <=? n) && (n <=? 7))
                    && negb ((12 <=? n) && (n <=? 13)) && (n =? 14)
                    && (utf16_triple b1 (Some b2) (Some b3) =? c)
  | _ => false
  end.

(** [p] holds on the [fuel] integers from [c] upwards. *)
Fixpoint all_from (fuel : nat) (c : Z) (p : Z -> bool) : bool :=
  match fuel with
  | O => true
  | S fuel' => p c && all_from fuel' (c + 1) p
  end.

(** ** The LZW decoder of the specification *)

(** The decoder in the words of the specification: the state holds the
    output, the dictionary, the next code and the previous emission; the
    character [ch] is the first character of the previous emission. *)
Module LZWSpec.

Record state : Type := State {
  out : jstring;
  dict : gmap Z jstring;
  code : Z;
  prev : jstring
}.

Definition emission (codeStart : Z) (st : state) (c : Z) : jstring :=
  if c <=? codeStart then [JS.fromCharCode c]
  else match dict st !! c with
       | Some s => s
       | None => prev st ++ take 1 (prev st)
       end.

Definition step (codeStart : Z) (st : state) (c : Z) : state :=
  let buffer := emission codeStart st c in
  {| out := out st ++ buffer;
     dict := <[code st := prev st ++ take 1 buffer]> (dict st);
     code := code st + 1;
     prev := buffer |}.

Definition decode (codeStart : Z) (data : jstring) : jstring :=
  match data with
  | [] => []
  | c :: cs =>
    out (fold_left (step codeStart) cs
                   {| out := [JS.fromCharCode c]; dict := ∅;
                      code := codeStart + 1; prev := [JS.fromCharCode c] |})
  end.

End LZWSpec.

(** The source state and the specification state that it refines. *)
Definition lzw_refines (codeStart : Z) (st : LZW.dstate) (sp : LZWSpec.state)
  : Prop :=
  LZW.d_result st = LZWSpec.out sp
  /\ LZW.d_dict st = LZWSpec.dict sp
  /\ LZW.d_code st = LZWSpec.code sp
  /\ LZW.d_prev st = LZWSpec.prev sp
  /\ LZW.d_ch st = take 1 (LZWSpec.prev sp)
  /\ LZW.d_codeMax st = codeStart.

(** ** Invariants of the LZW encoder *)

(** [dictLen & (1 << n)] is not zero. *)
Definition bit_seen (dictLen n : Z) : Prop :=
  Z.land dictLen (LZW.shl1 n) <> 0.

(** The slots [dict[2]], ..., [dict[M]] exist and no other does; below 32
    the bits of [dictLen] say the same. *)
Definition lzw_slots (st : LZW.cstate) (M : Z) : Prop :=
  1 <= M
  /\ (forall L, is_Some (LZW.dict st !! L) <-> 2 <= L <= M)
  /\ (forall L, 2 <= L < 32 -> bit_seen (LZW.dictLen st) L <-> L <= M).

(** The entry of the encoder's dictionary for [key]. *)
Definition lzw_entry (st : LZW.cstate) (key : jstring) : option Z :=
  o ← LZW.dict st !! JS.len key; o !! key.

(** The pending [buffer] is one character or an entry. *)
Definition lzw_buffer_ok (st : LZW.cstate) : Prop :=
  JS.len (LZW.buffer st) = 1 \/ is_Some (lzw_entry st (LZW.buffer st)).

(** ** The LZW encoder and decoder in step *)

(** The encoder [st] is about to read more input and the decoder [ds] has
    read every code written so far.  An entry of the encoder is above
    [codeStart] and either known to the decoder or the one the decoder
    will learn next, made of the previous emission and the first character
    of the pending buffer. *)
Record lzw_sync (cs cm : Z) (st : LZW.cstate) (ds : LZW.dstate) : Prop :=
  LzwSync {
    sync_entry : forall key v,
      lzw_entry st key = Some v ->
      cs < v
      /\ (LZW.d_dict ds !! v = Some key
          \/ (v = LZW.d_code ds
              /\ key = LZW.d_prev ds ++ take 1 (LZW.buffer st)));
    sync_code : LZW.code st <= cm -> LZW.code st = LZW.d_code ds + 1;
    sync_code_lo : cs < LZW.code st;
    sync_dict : forall k, is_Some (LZW.d_dict ds !! k) -> k < LZW.d_code ds;
    sync_ch : LZW.d_ch ds = take 1 (LZW.d_prev ds);
    sync_prev : LZW.d_prev ds <> [];
    sync_codeMax : LZW.d_codeMax ds = cs;
    sync_buffer : lzw_buffer_ok st;
    sync_nonempty : LZW.buffer st <> [];
    sync_literal : Forall (fun x => 0 <= x <= cs) (LZW.buffer st)
  }.

(** ** Auxiliary definitions for LZSS *)

(** [in_alphabet] as a test. *)
Definition in_alphabet_b (c : Z) : bool :=
  (0 <=? c) && (c <? 0x7f) && negb (esc c).

(** A back reference of [length] characters at [distance] before [offset]:
    the characters copied are those of the input. *)
Definition lzss_match (data : jstring) (offset distance length : Z) : Prop :=
  forall k, 0 <= k < length ->
    exists c, JS.charCodeAt data (offset + k) = Some c
              /\ JS.charCodeAt data (offset - distance + k) = Some c.

(** A sequence of complete opcodes of the decompressor.  [opcodes out p out']
    says that [p], read in the mode [out] (the flag of the decompressor:
    [false] for Latin, [true] for Unicode), is made of whole opcodes, each
    with all its operand symbols, and leaves the mode [out'].  The cases are
    those of the dispatch in [decompress]. *)
Inductive opcodes : bool -> jstring -> bool -> Prop :=
| opcodes_nil out : opcodes out [] out
| opcodes_skip out x p out' :
    LZSSDecompressor._createTable !! x = None ->
    opcodes out p out' -> opcodes out (x :: p) out'
| opcodes_latin x c p out' :
    LZSSDecompressor._createTable !! x = Some c -> c < DECODE_MAX ->
    opcodes false p out' -> opcodes false (x :: p) out'
| opcodes_unicode x c y p out' :
    LZSSDecompressor._createTable !! x = Some c -> c < DECODE_MAX ->
    opcodes true p out' -> opcodes true (x :: y :: p) out'
| opcodes_latin_page out x c p out' :
    LZSSDecompressor._createTable !! x = Some c -> DECODE_MAX <= c <
        LATIN_DECODE_MAX ->
    opcodes false p out' -> opcodes out (x :: p) out'
| opcodes_unicode_page out x y p out' :
    LZSSDecompressor._createTable !! x = Some CHAR_START ->
    opcodes true p out' -> opcodes out (x :: y :: p) out'
| opcodes_reference out x c y z p out' :
    LZSSDecompressor._createTable !! x = Some c ->
    LATIN_DECODE_MAX <= c < COMPRESS_FIXED_START -> c <> CHAR_START ->
    opcodes out p out' -> opcodes out (x :: y :: z :: p) out'
| opcodes_reference2 out x c y p out' :
    LZSSDecompressor._createTable !! x = Some c ->
    COMPRESS_FIXED_START <= c < COMPRESS_INDEX ->
    opcodes out p out' -> opcodes out (x :: y :: p) out'
| opcodes_other out x c p out' :
    LZSSDecompressor._createTable !! x = Some c -> COMPRESS_INDEX <= c ->
    opcodes out p out' -> opcodes out (x :: p) out'.

(** ** The longest-match search *)

(** The conditions under which [_search] is called by [compress]: the
    window [win] is cut from [data] and the look-ahead of [len] characters
    lies within [data]. *)
Definition search_ctx (data : jstring) (offset len pos : Z) (win : jstring)
  : Prop :=
  0 <= pos /\ pos <= offset /\ offset + len <= JS.len data
  /\ win = JS.substring data pos (offset + len).

(** What is known when the outer loop of [_search] is entered with [i]. *)
Definition search_entry (data : jstring) (offset len pos limit : Z)
           (win : jstring) (i : Z) (s : jstring) (bestIndex : option Z)
  : Prop :=
  3 <= i ->
  i < len
  /\ exists b, bestIndex = Some b /\ 0 <= b <= Z.max limit 0
               /\ (search_ctx data offset len pos win ->
                   (i = 3 -> s = JS.charAt data offset
                                 ++ JS.charAt data (offset + 1))
                   /\ lzss_match data offset (offset - pos - b) (i - 1)).

(** What is known when the outer loop of [_search] is left. *)
Definition search_exit (data : jstring) (offset len pos limit : Z)
           (win : jstring) (r : Z * option Z) : Prop :=
  r.1 = 2
  \/ (3 <= r.1 <= Z.max 3 len + 1
      /\ exists b, r.2 = Some b /\ 0 <= b <= Z.max limit 0
                   /\ (search_ctx data offset len pos win ->
                       lzss_match data offset (offset - pos - b) (r.1 - 1))).

(** The compressor's [lastIndex] and the decompressor's page agree: after a
    back reference ([lastIndex = -1]) nothing is assumed; otherwise the
    decompressor is on the Latin or Unicode page that [lastIndex] names. *)
Definition lzss_sync (lastIndex : Z) (ds : LZSSDecompressor.dstate) : Prop :=
  lastIndex = -1
  \/ (exists c2, 0 <= c2 < 4 /\ lastIndex = LATIN_INDEX + c2
                 /\ LZSSDecompressor.d_out ds = false /\
                     LZSSDecompressor.d_index ds = LZSSDecompressor.JNum c2)
  \/ (exists c2, 0 <= c2 < 40 /\ lastIndex = UNICODE_INDEX + c2
                 /\ LZSSDecompressor.d_out ds = true /\ LZSSDecompressor.d_index
                     ds = LZSSDecompressor.JNum c2).

(** The bytes written by [toUTF8] for one code unit are bytes. *)
Definition unit_bytes (c : Z) : bool :=
  forallb (fun b => (0 <=? b) && (b <=? 0xff)) (toUTF8_unit c).

(** ** Base64 *)

Definition base64EncodeChars : jstring :=
  str "ABCDEFGHIJKLMNOPQRSTUVWXYZabcdefghijklmnopqrstuvwxyz0123456789+/".

Definition base64DecodeChars : list Z :=
  [ -1; -1; -1; -1; -1; -1; -1; -1; -1; -1; -1; -1; -1; -1; -1; -1;
    -1; -1; -1; -1; -1; -1; -1; -1; -1; -1; -1; -1; -1; -1; -1; -1;
    -1; -1; -1; -1; -1; -1; -1; -1; -1; -1; -1; 62; -1; -1; -1; 63;
    52; 53; 54; 55; 56; 57; 58; 59; 60; 61; -1; -1; -1; -1; -1; -1;
    -1;  0;  1;  2;  3;  4;  5;  6;  7;  8;  9; 10; 11; 12; 13; 14;
    15; 16; 17; 18; 19; 20; 21; 22; 23; 24; 25; -1; -1; -1; -1; -1;
    -1; 26; 27; 28; 29; 30; 31; 32; 33; 34; 35; 36; 37; 38; 39; 40;
    41; 42; 43; 44; 45; 46; 47; 48; 49; 50; 51; -1; -1; -1; -1; -1 ].

(** The [while] loop of [base64encode]; the cursor [i] is the start of the
    remaining input, and the two tests [i === len] are the cases of one
    and of two characters left. *)
Fixpoint base64encode_loop (s out : jstring) : jstring :=
  match s with
  | [] => out
  | x1 :: s1 =>
    let c1 := Z.land x1 0xff in
    match s1 with
    | [] =>
      out ++ JS.charAt base64EncodeChars (Z.shiftr c1 2)
          ++ JS.charAt base64EncodeChars (Z.shiftl (Z.land c1 0x3) 4)
          ++ str "=="
    | c2 :: s2 =>
      match s2 with
      | [] =>
        out ++ JS.charAt base64EncodeChars (Z.shiftr c1 2)
            ++ JS.charAt base64EncodeChars
                 (Z.lor (Z.shiftl (Z.land c1 0x3) 4)
                        (Z.shiftr (Z.land c2 0xf0) 4))
            ++ JS.charAt base64EncodeChars (Z.shiftl (Z.land c2 0xf) 2)
            ++ str "="
      | c3 :: s3 =>
        base64encode_loop s3
          (out ++ JS.charAt base64EncodeChars (Z.shiftr c1 2)
               ++ JS.charAt base64EncodeChars
                    (Z.lor (Z.shiftl (Z.land c1 0x3) 4)
                           (Z.shiftr (Z.land c2 0xf0) 4))
               ++ JS.charAt base64EncodeChars
                    (Z.lor (Z.shiftl (Z.land c2 0xf) 2)
                           (Z.shiftr (Z.land c3 0xc0) 6))
               ++ JS.charAt base64EncodeChars (Z.land c3 0x3f))
      end
    end
  end.

Definition base64encode (s : jstring) : jstring := base64encode_loop s [].

(** [base64DecodeChars[k]]: [None] is [undefined], read beyond the 128
    entries of the array. *)
Definition base64_entry (k : Z) : option Z :=
  if k <? 0 then None else base64DecodeChars !! Z.to_nat k.

(** [c === -1]; [undefined] is not -1. *)
Definition is_minus1 (c : option Z) : bool :=
  match c with
  | Some v => v =? -1
  | None => false
  end.

(** An entry used in a bit operation: ToInt32 of [undefined] is 0. *)
Definition to_int32 (c : option Z) : Z := default 0 c.

(** [do { c = base64DecodeChars[str.charCodeAt(i++) & 0xff]; }
    while (i < len && c === -1)]: the value of [c] and the remaining input
    on leaving the loop.  The loop reads at least once; a read past the end
    gives NaN, and [NaN & 0xff] is 0. *)
Fixpoint base64_scan (s : jstring) : option Z * jstring :=
  match s with
  | [] => (base64_entry (band None 0xff), [])
  | x :: rest =>
    let c := base64_entry (Z.land x 0xff) in
    match rest with
    | [] => (c, [])
    | _ :: _ => if is_minus1 c then base64_scan rest else (c, rest)
    end
  end.

(** [do { c = str.charCodeAt(i++) & 0xff; if (c === 61) return out;
    c = base64DecodeChars[c]; } while (i < len && c === -1)]; [None] is the
    [return]. *)
Fixpoint base64_scan_pad (s : jstring) : option (option Z * jstring) :=
  match s with
  | [] =>
    let c := band None 0xff in
    if c =? 61 then None else Some (base64_entry c, [])
  | x :: rest =>
    let c := Z.land x 0xff in
    if c =? 61 then None
    else
      let c := base64_entry c in
      match rest with
      | [] => Some (c, [])
      | _ :: _ => if is_minus1 c then base64_scan_pad rest else Some (c, rest)
      end
  end.

(** The outer [while (i < len)] of [base64decode]. *)
Fixpoint base64decode_loop (fuel : nat) (s out : jstring) : option jstring :=
  match fuel with
  | O => None
  | S fuel' =>
    match s with
    | [] => Some out
    | _ :: _ =>
      let r1 := base64_scan s in
      let c1 := r1.1 in
      if is_minus1 c1 then Some out
      else
        let r2 := base64_scan r1.2 in
        let c2 := r2.1 in
        if is_minus1 c2 then Some out
        else
          let out :=
            out ++ [JS.fromCharCode
                      (Z.lor (Z.shiftl (to_int32 c1) 2)
                             (Z.shiftr (Z.land (to_int32 c2) 0x30) 4))] in
          match base64_scan_pad r2.2 with
          | None => Some out
          | Some r3 =>
            let c3 := r3.1 in
            if is_minus1 c3 then Some out
            else
              let out :=
                out ++ [JS.fromCharCode
                          (Z.lor (Z.shiftl (Z.land (to_int32 c2) 0xf) 4)
                                 (Z.shiftr (Z.land (to_int32 c3) 0x3c) 2))] in
              match base64_scan_pad r3.2 with
              | None => Some out
              | Some r4 =>
                let c4 := r4.1 in
                if is_minus1 c4 then Some out
                else
                  base64decode_loop fuel' r4.2
                    (out ++ [JS.fromCharCode
                               (Z.lor (Z.shiftl (Z.land (to_int32 c3) 0x03) 6)
                                      (to_int32 c4))])
              end
          end
    end
  end.

Definition base64decode (s : jstring) : option jstring :=
  base64decode_loop (S (length s)) s [].

(** ** The public interface

    [LZJS._init] only records the [encoding] option, which no method
    reads, so the four functions do not depend on their [options]. *)

Module lzjs.

Definition compress (data : jstring) : option jstring := LZJS.compress data.

Definition decompress (data : jstring) : option jstring :=
  LZJS.decompress data.

Definition compressToBase64 (data : jstring) : option jstring :=
  z ← LZJS.compress data; Some (base64encode (toUTF8 z)).

Definition decompressFromBase64 (data : jstring) : option jstring :=
  d ← base64decode data; LZJS.decompress (toUTF16 d).

End lzjs.

(** ** Auxiliary definitions for Base64 *)

(** A byte. *)
Definition byte (c : Z) : Prop := 0 <= c < 0x100.

(** The characters that [base64decode] passes over wherever they stand:
    those whose low byte has the entry -1, the padding character apart. *)
Definition base64_junk (x : Z) : bool :=
  is_minus1 (base64_entry (Z.land x 0xff)) && negb (Z.land x 0xff =? 61).

(** The characters written by [base64encode]. *)
Definition base64_char (x : Z) : Prop := x ∈ base64EncodeChars \/ x = 61.

(** The four sextets of a group of three bytes, as [base64encode] computes
    them. *)
Definition sextet1 (b1 : Z) : Z := Z.shiftr b1 2.
Definition sextet2 (b1 b2 : Z) : Z :=
  Z.lor (Z.shiftl (Z.land b1 0x3) 4) (Z.shiftr (Z.land b2 0xf0) 4).
Definition sextet3 (b2 b3 : Z) : Z :=
  Z.lor (Z.shiftl (Z.land b2 0xf) 2) (Z.shiftr (Z.land b3 0xc0) 6).
Definition sextet4 (b3 : Z) : Z := Z.land b3 0x3f.

(** The three bytes that [base64decode] rebuilds from four sextets. *)
Definition octet1 (v1 v2 : Z) : Z :=
  Z.lor (Z.shiftl v1 2) (Z.shiftr (Z.land v2 0x30) 4).
Definition octet2 (v2 v3 : Z) : Z :=
  Z.lor (Z.shiftl (Z.land v2 0xf) 4) (Z.shiftr (Z.land v3 0x3c) 2).
Definition octet3 (v3 v4 : Z) : Z :=
  Z.lor (Z.shiftl (Z.land v3 0x03) 6) v4.

(** The character of a sextet and its entry in the decoding table. *)
Definition sextet_ok (v : Z) : bool :=
  match JS.charAt base64EncodeChars v with
  | [q] => (Z.land q 0xff =? q) && negb (q =? 61)
           && bool_decide (base64_entry q = Some v)
           && bool_decide (q ∈ base64EncodeChars)
  | _ => false
  end.

(** [p] holds on every pair of bytes. *)
Definition all_bytes2 (p : Z -> Z -> bool) : bool :=
  all_from 256 0 (fun a => all_from 256 0 (fun b => p a b)).

(** The character [q] written for the sextet [v], and what the decoding
    table says of it. *)
Definition sextet_char (v q : Z) : Prop :=
  0 <= v < 64 /\ JS.charAt base64EncodeChars v = [q]
  /\ Z.land q 0xff = q /\ q <> 61 /\ base64_entry q = Some v
  /\ q ∈ base64EncodeChars.

(** The input of [base64decode] without the characters it passes over. *)
Definition base64_strip (s : jstring) : jstring :=
  List.filter (fun x => negb (base64_junk x)) s.

(** ** Auxiliary definitions for the size of the LZW output *)

(** A unit written by the LZW encoder with a flag, [true] for a code and
    [false] for a character of the input, and the least number of bytes
    charged for it. *)
Definition lzw_cost (u : bool * Z) : Z := if u.1 then 2 else 1.

Definition lzw_costs (us : list (bool * Z)) : Z :=
  foldr (fun u n => lzw_cost u + n) 0 us.

(** Where a written unit comes from: a character of [chars], or a code that
    is in the dictionary of [st] or is assigned later, up to [codeMax]. *)
Definition lzw_unit (st : LZW.cstate) (codeMax : Z) (chars : jstring)
           (u : bool * Z) : Prop :=
  if u.1 then
    (exists key, lzw_entry st key = Some u.2)
    \/ (exists k, LZW.code st <= k <= codeMax /\ u.2 = JS.fromCharCode k)
  else u.2 ∈ chars.

(** * Properties *)

(** ** Strings *)

Section strings.

Implicit Types s w : jstring.

Lemma len_nonneg s : 0 <= JS.len s.
Proof. unfold JS.len. lia. Qed.

Lemma len_app s w : JS.len (s ++ w) = JS.len s + JS.len w.
Proof. unfold JS.len. rewrite length_app. lia. Qed.

Lemma len_nil_inv s : JS.len s = 0 -> s = [].
Proof. destruct s; [done | unfold JS.len; simpl; lia]. Qed.

Lemma charCodeAt_Some s i c :
  JS.charCodeAt s i = Some c <-> 0 <= i /\ s !! Z.to_nat i = Some c.
Proof.
  unfold JS.charCodeAt. destruct (Z.ltb_spec i 0); split.
  - done.
  - intros [? _]. lia.
  - done.
  - by intros [_ ?].
Qed.

Lemma charCodeAt_lt s i :
  0 <= i < JS.len s -> exists c, JS.charCodeAt s i = Some c.
Proof.
  intros Hi. unfold JS.charCodeAt, JS.len in *.
  destruct (Z.ltb_spec i 0); [lia |].
  destruct (lookup_lt_is_Some_2 s (Z.to_nat i)) as [c Hc]; [lia |].
  by exists c.
Qed.

Lemma charCodeAt_nat s (n : nat) : JS.charCodeAt s (Z.of_nat n) = s !! n.
Proof.
  unfold JS.charCodeAt. destruct (Z.ltb_spec (Z.of_nat n) 0); [lia |].
  by rewrite Nat2Z.id.
Qed.

Lemma substring_from_drop s (n : nat) :
  JS.substring_from s (Z.of_nat n) = drop n s.
Proof.
  unfold JS.substring_from, JS.substring, JS.clamp, JS.len.
  destruct (decide (n <= length s)%nat) as [Hn | Hn].
  - replace (Z.min (Z.min (Z.max (Z.of_nat n) 0) (Z.of_nat (length s)))
                   (Z.min (Z.max (Z.of_nat (length s)) 0) (Z.of_nat (length
                       s))))
      with (Z.of_nat n) by lia.
    rewrite Nat2Z.id. apply take_ge. rewrite length_drop. lia.
  - replace (Z.min (Z.min (Z.max (Z.of_nat n) 0) (Z.of_nat (length s)))
                   (Z.min (Z.max (Z.of_nat (length s)) 0) (Z.of_nat (length
                       s))))
      with (Z.of_nat (length s)) by lia.
    rewrite Nat2Z.id, !drop_ge by lia. by destruct (Z.to_nat _).
Qed.

End strings.

(** ** The sliding window *)

Lemma createWindow_length : length createWindow = 1024%nat.
Proof. reflexivity. Qed.

(** C2, as stated: the first 16 characters of the window are not spaces. *)
Lemma createWindow_first16_not_spaces :
  take 16 createWindow <> replicate 16 32.
Proof. vm_compute. discriminate. Qed.

(** C2, amended: [createWindow] is one fixed string of exactly 1024
    characters; the rows " c c2" already fill the 1024 characters, so that
    the padding loop stops at its first test and adds no space, and the
    window starts with " a z a y a x a w". *)
Theorem createWindow_shape :
  createWindow_run = Some createWindow
  /\ length createWindow = 1024%nat
  /\ window_pad 1 window_rows = Some window_rows
  /\ createWindow = window_rows
  /\ take 16 createWindow = str " a z a y a x a w".
Proof. repeat split; vm_compute; reflexivity. Qed.

(** ** UTF-8 bridge *)

Lemma toUTF8_loop_app data result :
  toUTF8_loop data result = result ++ toUTF8 data.
Proof.
  unfold toUTF8. revert result.
  induction data as [| c data IH]; intros result; simpl.
  - by rewrite app_nil_r.
  - rewrite IH, (IH (toUTF8_unit c)). by rewrite app_assoc.
Qed.

Lemma toUTF8_cons c data : toUTF8 (c :: data) = toUTF8_unit c ++ toUTF8 data.
Proof. unfold toUTF8 at 1. simpl. apply toUTF8_loop_app. Qed.

Lemma toUTF8_app s1 s2 : toUTF8 (s1 ++ s2) = toUTF8 s1 ++ toUTF8 s2.
Proof.
  induction s1 as [| c s1 IH]; [done |].
  simpl. by rewrite !toUTF8_cons, IH, app_assoc.
Qed.

Lemma all_from_true fuel c p x :
  all_from fuel c p = true -> c <= x < c + Z.of_nat fuel -> p x = true.
Proof.
  revert c. induction fuel as [| fuel IH]; intros c H Hx; [lia |].
  simpl in H. apply andb_true_iff in H as [H1 H2].
  destruct (decide (x = c)) as [-> | Hne]; [done |].
  apply (IH (c + 1)); [done | lia].
Qed.

Lemma unit_decodes_all : all_from (Z.to_nat 0x10000) 0 unit_decodes = true.
Proof. vm_compute. reflexivity. Qed.

Lemma unit_decodes_true c : code_unit c -> unit_decodes c = true.
Proof.
  intros Hc. apply (all_from_true _ _ _ _ unit_decodes_all).
  unfold code_unit in Hc. lia.
Qed.

Lemma toUTF16_loop_unit c rest result :
  code_unit c ->
  toUTF16_loop (toUTF8_unit c ++ rest) result = toUTF16_loop rest (result ++
      [c]).
Proof.
  intros Hc. pose proof (unit_decodes_true c Hc) as H.
  unfold unit_decodes in H.
  destruct (toUTF8_unit c) as [| b1 [| b2 [| b3 [| ? ?]]]]; try done;
    cbv zeta in H; repeat (apply andb_true_iff in H as [H ?]);
    repeat match goal with
           | X : negb _ = true |- _ => apply negb_true_iff in X
           | X : (_ =? _) = true |- _ => apply Z.eqb_eq in X
           end; simpl.
  - rewrite H, H0. simpl. by rewrite H1.
  - rewrite H, H1, H2. simpl. by rewrite H0.
  - rewrite H, H2, H1. by rewrite H0.
Qed.

Lemma toUTF16_loop_toUTF8 s rest result :
  Forall code_unit s ->
  toUTF16_loop (toUTF8 s ++ rest) result = toUTF16_loop rest (result ++ s).
Proof.
  intros Hs. revert result.
  induction Hs as [| c s Hc Hs IH]; intros result.
  - by rewrite app_nil_r.
  - rewrite toUTF8_cons, <- app_assoc, toUTF16_loop_unit by done.
    rewrite IH. by rewrite <- app_assoc.
Qed.

Lemma toUTF16_toUTF8 s : Forall code_unit s -> toUTF16 (toUTF8 s) = s.
Proof.
  intros Hs. unfold toUTF16.
  rewrite <- (app_nil_r (toUTF8 s)), toUTF16_loop_toUTF8 by done.
  done.
Qed.

(** C7, as stated: the truncated sequence [0xC3] is not the UTF-8 form of
    any string, and [toUTF16] still emits a code unit for it. *)
Lemma toUTF16_truncated_emits :
  (forall s, Forall code_unit s -> toUTF8 s <> [0xc3])
  /\ toUTF16 [0xc3] = [0xc0].
Proof.
  split; [| reflexivity].
  intros s Hs E. destruct Hs as [| c s Hc Hs]; [done |].
  rewrite toUTF8_cons in E. unfold toUTF8_unit, code_unit in *.
  destruct (Z.ltb_spec c 128).
  { injection E as E _. unfold JS.fromCharCode in E.
    rewrite Z.mod_small in E by lia. lia. }
  destruct (c <? 2048); [by destruct (toUTF8 s) |].
  destruct (Z.ltb_spec c 65536); [by destruct (toUTF8 s) | lia].
Qed.

(** A byte that cannot start a sequence is passed over. *)
Lemma toUTF16_loop_skip c rest result :
  8 <= Z.shiftr c 4 <= 11 \/ 15 <= Z.shiftr c 4 ->
  toUTF16_loop (c :: rest) result = toUTF16_loop rest result.
Proof.
  intros H. simpl.
  destruct (Z.leb_spec 0 (c ≫ 4)), (Z.leb_spec (c ≫ 4) 7); simpl; try lia.
  destruct (Z.leb_spec 12 (c ≫ 4)), (Z.leb_spec (c ≫ 4) 13); simpl; try lia.
  - destruct (Z.eqb_spec (c ≫ 4) 14); [lia | done].
  - destruct (Z.eqb_spec (c ≫ 4) 14); [lia | done].
Qed.

(** A lead byte emits one code unit whatever follows it, also when the
    sequence is cut short or its continuation bytes are none. *)
Lemma toUTF16_loop_lead c rest result :
  12 <= Z.shiftr c 4 <= 14 ->
  exists u,
    toUTF16_loop (c :: rest) result
    = toUTF16_loop (drop (if Z.shiftr c 4 =? 14 then 2 else 1) rest)
                   (result ++ [u]).
Proof.
  intros H. cbn [toUTF16_loop].
  destruct (Z.leb_spec 0 (c ≫ 4)), (Z.leb_spec (c ≫ 4) 7); simpl; try lia.
  destruct (Z.leb_spec 12 (c ≫ 4)); [| lia].
  destruct (Z.leb_spec (c ≫ 4) 13); simpl.
  - destruct (Z.eqb_spec (c ≫ 4) 14); [lia |].
    destruct rest as [| c2 rest]; by eexists.
  - destruct (Z.eqb_spec (c ≫ 4) 14); [| lia].
    destruct rest as [| c2 [| c3 rest]]; by eexists.
Qed.

(** C7, amended: [toUTF16] inverts [toUTF8] on every string of code units
    (lone surrogates included, as three bytes); a byte whose high nibble
    is 8..11 or 15 (or that is no byte at all) advances the cursor by one
    without emission, whatever follows.  Truncated sequences and sequences
    with a bad continuation byte do emit: a byte whose high nibble is
    12..14 emits one code unit whatever follows. *)
Theorem toUTF16_inverts_toUTF8 :
  (forall s, Forall code_unit s -> toUTF16 (toUTF8 s) = s)
  /\ (forall c, 0x800 <= c < 0x10000 -> length (toUTF8 [c]) = 3%nat)
  /\ (forall c rest result,
        8 <= Z.shiftr c 4 <= 11 \/ 15 <= Z.shiftr c 4 ->
        toUTF16_loop (c :: rest) result = toUTF16_loop rest result)
  /\ (forall c rest result,
        12 <= Z.shiftr c 4 <= 14 ->
        exists u,
          toUTF16_loop (c :: rest) result
          = toUTF16_loop (drop (if Z.shiftr c 4 =? 14 then 2 else 1) rest)
                         (result ++ [u])).
Proof.
  split; [exact toUTF16_toUTF8 |].
  split; [| split; [exact toUTF16_loop_skip | exact toUTF16_loop_lead]].
  intros c Hc. rewrite toUTF8_cons. unfold toUTF8_unit.
  destruct (Z.ltb_spec c 128); [lia |].
  destruct (Z.ltb_spec c 2048); [lia |].
  destruct (Z.ltb_spec c 65536); [done | lia].
Qed.

Lemma toUTF16_inverts_toUTF8_witness :
  toUTF16 (toUTF8 [0x41; 0xe9; 0xd800; 0x3042]) = [0x41; 0xe9; 0xd800; 0x3042].
Proof.
  apply (proj1 toUTF16_inverts_toUTF8).
  repeat constructor; vm_compute; done.
Defined.

(** ** The dispatcher on empty input and unknown tags *)

(** C9: [compress] and [decompress] map the empty string to itself, and
    [decompress] returns unchanged every input whose first character is
    none of S, W, U, N. *)
Theorem dispatcher_edges :
  LZJS.compress [] = Some []
  /\ LZJS.decompress [] = Some []
  /\ forall c rest,
      [c] <> LZJS.tagS -> [c] <> LZJS.tagW -> [c] <> LZJS.tagU ->
      [c] <> LZJS.tagN ->
      LZJS.decompress (c :: rest) = Some (c :: rest).
Proof.
  split; [reflexivity |]. split; [reflexivity |].
  intros c rest HS HW HU HN. unfold LZJS.decompress.
  replace (JS.len (c :: rest) =? 0) with false
    by (symmetry; apply Z.eqb_neq; unfold JS.len; simpl; lia).
  change (JS.charAt (c :: rest) 0) with [c].
  by rewrite !bool_decide_eq_false_2.
Qed.

Lemma dispatcher_edges_witness :
  LZJS.decompress (str "hello") = Some (str "hello").
Proof.
  apply (proj2 (proj2 dispatcher_edges)); vm_compute; discriminate.
Defined.

(** ** The LZW decoder *)

Lemma charAt_0 (s : jstring) : JS.charAt s 0 = take 1 s.
Proof. by destruct s. Qed.

Lemma lzw_refines_step codeStart st sp c :
  lzw_refines codeStart st sp ->
  lzw_refines codeStart (LZW.decompress_step st c) (LZWSpec.step codeStart sp
      c).
Proof.
  intros (Hr & Hd & Hc & Hp & Hch & Hm).
  assert (LZW.d_prev (LZW.decompress_step st c)
          = LZWSpec.emission codeStart sp c) as Hb.
  { unfold LZW.decompress_step, LZWSpec.emission. simpl.
    by rewrite Hm, Hd, Hp, Hch. }
  unfold lzw_refines, LZWSpec.step. simpl. rewrite <- Hb.
  unfold LZW.decompress_step. simpl. rewrite charAt_0.
  by rewrite Hr, Hd, Hc, Hp.
Qed.

Lemma lzw_refines_loop codeStart cs st sp :
  lzw_refines codeStart st sp ->
  lzw_refines codeStart (LZW.decompress_loop cs st)
              (fold_left (LZWSpec.step codeStart) cs sp).
Proof.
  revert st sp. induction cs as [| c cs IH]; intros st sp H; [done |].
  simpl. by apply IH, lzw_refines_step.
Qed.

Lemma lzw_refines_start this c :
  lzw_refines (LZW._codeStart this) (LZW.decompress_start this c)
    {| LZWSpec.out := [JS.fromCharCode c]; LZWSpec.dict := ∅;
       LZWSpec.code := LZW._codeStart this + 1;
       LZWSpec.prev := [JS.fromCharCode c] |}.
Proof. done. Qed.

(** C6: [LZW.decompress] computes what the specification describes: a code
    not above [codeStart] is a literal, a code in the dictionary stands for
    its entry, any other code stands for [prev] followed by the first
    character of [prev]; each step stores [prev + buffer[0]] under the next
    code.  The bound [codeMax] of the loop stays [codeStart]. *)
Theorem lzw_decompress_refines this data :
  LZW.decompress this data = LZWSpec.decode (LZW._codeStart this) data
  /\ forall c cs,
      data = c :: cs ->
      LZW.d_codeMax (LZW.decompress_loop cs (LZW.decompress_start this c))
      = LZW._codeStart this.
Proof.
  split.
  - destruct data as [| c cs]; [done |]. simpl.
    by destruct (lzw_refines_loop _ cs _ _ (lzw_refines_start this c))
      as (-> & _).
  - intros c cs _.
    by destruct (lzw_refines_loop _ cs _ _ (lzw_refines_start this c))
      as (_ & _ & _ & _ & _ & ->).
Qed.
(** ** The LZW encoder raises no error *)

Lemma shl1_mod n : LZW.shl1 n = LZW.shl1 (n mod 32).
Proof.
  unfold LZW.shl1. change 31 with (Z.ones 5).
  rewrite !Z.land_ones by lia. change (2 ^ 5) with 32.
  by rewrite Z.mod_mod.
Qed.

Lemma shl1_meet_small :
  all_from 32 0 (fun k =>
    all_from 32 0 (fun l =>
      bool_decide ((Z.land (LZW.shl1 k) (LZW.shl1 l) =? 0) = negb (k =? l))))
  = true.
Proof. vm_compute. reflexivity. Qed.

Lemma shl1_meet K L :
  Z.land (LZW.shl1 K) (LZW.shl1 L) <> 0 <-> K mod 32 = L mod 32.
Proof.
  rewrite (shl1_mod K), (shl1_mod L).
  pose proof (Z.mod_pos_bound K 32 eq_refl) as HK.
  pose proof (Z.mod_pos_bound L 32 eq_refl) as HL.
  pose proof (all_from_true _ _ _ (K mod 32) shl1_meet_small) as H.
  cbv beta in H. specialize (H ltac:(lia)).
  pose proof (all_from_true _ _ _ (L mod 32) H ltac:(lia)) as H'.
  cbv beta in H'.
  apply bool_decide_eq_true in H'.
  destruct (Z.eqb_spec (K mod 32) (L mod 32)) as [E | E]; simpl in H'.
  - apply Z.eqb_neq in H'. done.
  - apply Z.eqb_eq in H'. split; [by rewrite H' | done].
Qed.

Lemma bit_seen_lor d K L :
  bit_seen (Z.lor d (LZW.shl1 K)) L <-> bit_seen d L \/ K mod 32 = L mod 32.
Proof.
  unfold bit_seen. rewrite Z.land_lor_distr_l, Z.lor_eq_0_iff, <- shl1_meet.
  destruct (decide (Z.land d (LZW.shl1 L) = 0)),
    (decide (Z.land (LZW.shl1 K) (LZW.shl1 L) = 0)); tauto.
Qed.

Lemma bit_seen_0 L : ~ bit_seen 0 L.
Proof. unfold bit_seen. rewrite Z.land_0_l. tauto. Qed.

Section lzw_total.

Variable this : LZW.instance.
Variable codeMax : Z.

Lemma slot_seen_iff st M L :
  lzw_slots st M -> 2 <= L ->
  LZW.slot_seen st L = true <-> L <= M.
Proof.
  intros (HM & Hd & Hb) HL. unfold LZW.slot_seen.
  destruct (Z.ltb_spec L 32) as [H32 | H32]; simpl.
  - destruct (Z.leb_spec 32 L); [lia |]. rewrite andb_false_l, orb_false_r.
    rewrite negb_true_iff, Z.eqb_neq. apply (Hb L). lia.
  - destruct (Z.leb_spec 32 L); [| lia]. simpl.
    rewrite bool_decide_eq_true, Hd. lia.
Qed.

Lemma known_total st M key :
  lzw_slots st M -> 2 <= JS.len key ->
  exists b, LZW.known st key = Some b
            /\ (b = true -> is_Some (lzw_entry st key)).
Proof.
  intros Hs Hk. unfold LZW.known.
  destruct (LZW.slot_seen st (JS.len key)) eqn:E.
  - apply (slot_seen_iff st M) in E; [| done | done].
    destruct Hs as (_ & Hd & _).
    destruct (proj2 (Hd (JS.len key)) ltac:(lia)) as [o Ho].
    rewrite Ho. simpl. eexists. split; [done |].
    intros Hb. apply bool_decide_eq_true in Hb.
    unfold lzw_entry. by rewrite Ho.
  - by exists false.
Qed.

Lemma emission_total st :
  lzw_buffer_ok st -> is_Some (LZW.emission st).
Proof.
  intros [H1 | [v Hv]]; unfold LZW.emission.
  - by rewrite H1.
  - destruct (JS.len (LZW.buffer st) =? 1); [done |].
    unfold lzw_entry in Hv.
    destruct (LZW.dict st !! JS.len (LZW.buffer st)); [done | done].
Qed.

Lemma learn_total st M c :
  lzw_slots st M ->
  JS.len (LZW.buffer st) = 1 \/ 2 <= JS.len (LZW.buffer st) <= M ->
  exists st', LZW.learn st c = Some st'
              /\ lzw_slots st' (Z.max M (JS.len (LZW.buffer st) + 1))
              /\ LZW.result st' = LZW.result st
              /\ LZW.resultBytes st' = LZW.resultBytes st.
Proof.
  intros Hs Hb. pose proof Hs as (HM & Hd & Hbit).
  unfold LZW.learn. rewrite len_app.
  change (JS.len [c]) with 1. set (K := JS.len (LZW.buffer st) + 1).
  assert (2 <= K <= M + 1) as HK by lia.
  set (fresh := (K <? 32) && (Z.land (LZW.dictLen st) (LZW.shl1 K) =? 0)
                || (32 <=? K) && bool_decide (LZW.dict st !! K = None)).
  assert (fresh = true <-> K = M + 1) as Hfresh.
  { unfold fresh. destruct (Z.ltb_spec K 32), (Z.leb_spec 32 K); try lia; simpl.
    - rewrite orb_false_r, Z.eqb_eq.
      pose proof (Hbit K ltac:(lia)) as HbK. unfold bit_seen in HbK.
      destruct (decide (Z.land (LZW.dictLen st) (LZW.shl1 K) = 0)) as [E | E].
      + split; [| done]. intros _. destruct (decide (K <= M)); [| lia].
        apply HbK in l. done.
      + split; [done |]. intros ->. apply HbK in E. lia.
    - rewrite bool_decide_eq_true.
      pose proof (Hd K) as HdK.
      destruct (decide (LZW.dict st !! K = None)) as [E | E].
      + split; [| done]. intros _. destruct (decide (K <= M)); [| lia].
        destruct (proj2 HdK ltac:(lia)) as [? ?]. congruence.
      + split; [tauto |]. intros ->. apply not_eq_None_Some, HdK in E. lia. }
  destruct fresh eqn:Ef.
  - assert (K = M + 1) as HKM by by apply Hfresh.
    rewrite lookup_insert_eq. simpl. eexists. split; [done |].
    split; [| done]. unfold lzw_slots. simpl.
    split; [lia |]. split.
    + intros L. destruct (decide (L = K)) as [-> | Hne].
      * rewrite lookup_insert_eq. split; [lia | by eexists].
      * rewrite !lookup_insert_ne by done. rewrite Hd. lia.
    + intros L HL. rewrite bit_seen_lor, (Hbit L HL).
      rewrite (Z.mod_small L) by lia.
      destruct (Z.ltb_spec K 32).
      * rewrite Z.mod_small by lia. lia.
      * split; [| lia]. intros [? | ?]; lia.
  - assert (K <= M) as HKM.
    { destruct (decide (K = M + 1)) as [E | E]; [| lia].
      apply Hfresh in E. done. }
    destruct (proj2 (Hd K) ltac:(lia)) as [o Ho]. rewrite Ho. simpl.
    eexists. split; [done |]. split; [| done].
    unfold lzw_slots. simpl. split; [lia |]. split.
    + intros L. destruct (decide (L = K)) as [-> | Hne].
      * rewrite lookup_insert_eq. split; [lia | by eexists].
      * rewrite lookup_insert_ne by done. rewrite Hd. lia.
    + intros L HL. rewrite (Hbit L HL). lia.
Qed.

Lemma lzw_slots_ext st st' M :
  LZW.dict st' = LZW.dict st -> LZW.dictLen st' = LZW.dictLen st ->
  lzw_slots st M -> lzw_slots st' M.
Proof. unfold lzw_slots. by intros -> ->. Qed.

Lemma lzw_entry_slot st M key :
  lzw_slots st M -> is_Some (lzw_entry st key) -> 2 <= JS.len key <= M.
Proof.
  intros (_ & Hd & _) [v Hv]. apply Hd. unfold lzw_entry in Hv.
  destruct (LZW.dict st !! JS.len key); [by eexists | done].
Qed.

Lemma lzw_compress_loop_total data : forall st M,
  lzw_slots st M -> lzw_buffer_ok st ->
  exists r, LZW.compress_loop this codeMax data st = Some r
            /\ (LZW._maxBytes this = None -> exists s, r = RStr s).
Proof.
  induction data as [| c data IH]; intros st M Hs Hb.
  - simpl. destruct (emission_total st Hb) as [e ->]. simpl.
    destruct (exceeds _ _) eqn:E.
    + eexists. split; [done |]. intros Hn. by rewrite Hn in E.
    + eexists. split; [done |]. by eexists.
  - simpl.
    assert (JS.len (LZW.buffer st) = 1 \/ 2 <= JS.len (LZW.buffer st) <= M)
      as Hlen.
    { destruct Hb as [? | Hb]; [by left | right].
      by apply (lzw_entry_slot st M). }
    destruct (known_total st M (LZW.buffer st ++ [c]) Hs) as (b & -> & Hk).
    { rewrite len_app. change (JS.len [c]) with 1. lia. }
    simpl. destruct b.
    + apply (IH _ M).
      * by apply (lzw_slots_ext st).
      * right. by apply Hk.
    + destruct (emission_total st Hb) as [e ->]. simpl.
      destruct (exceeds _ _) eqn:E.
      { eexists. split; [done |]. intros Hn. by rewrite Hn in E. }
      destruct (LZW.code st <=? codeMax).
      * edestruct (learn_total
                     {| LZW.result := LZW.result st ++ e.1;
                        LZW.resultBytes := LZW.resultBytes st + e.2;
                        LZW.buffer := LZW.buffer st; LZW.code := LZW.code st;
                        LZW.codeBytes := LZW.codeBytes st;
                        LZW.dict := LZW.dict st;
                        LZW.dictLen := LZW.dictLen st |} M c)
          as (st' & -> & Hs' & _); [by apply (lzw_slots_ext st) | done |].
        simpl. eapply IH; [by eapply lzw_slots_ext; [| | exact Hs'] |].
        by left.
      * simpl. apply (IH _ M); [by apply (lzw_slots_ext st) | by left].
Qed.

End lzw_total.

Lemma lzw_slots_start this c :
  lzw_slots {| LZW.result := []; LZW.resultBytes := 0; LZW.buffer := [c];
               LZW.code := LZW._codeStart this + 1; LZW.codeBytes := 2;
               LZW.dict := ∅; LZW.dictLen := 0 |} 1.
Proof.
  split; [lia |]. simpl. split.
  - intros L. rewrite lookup_empty. split; [by intros [? ?] | lia].
  - intros L HL. split; [| lia]. intros H. by apply bit_seen_0 in H.
Qed.

(** [LZW.compress] answers on every input, and never [false] when
    [maxBytes] is omitted. *)
Lemma lzw_compress_total this data :
  exists r, LZW.compress this data = Some r
            /\ (LZW._maxBytes this = None -> exists s, r = RStr s).
Proof.
  destruct data as [| c data]; simpl.
  - eexists. split; [done |]. by eexists.
  - eapply lzw_compress_loop_total; [apply lzw_slots_start | by left].
Qed.
(** ** LZW round trip *)

Lemma learn_entries st c st' :
  LZW.learn st c = Some st' ->
  (forall key v,
      lzw_entry st' key = Some v ->
      (key = LZW.buffer st ++ [c] /\ v = JS.fromCharCode (LZW.code st))
      \/ lzw_entry st key = Some v)
  /\ LZW.code st' = LZW.code st + 1
  /\ LZW.result st' = LZW.result st.
Proof.
  unfold LZW.learn.
  set (key0 := LZW.buffer st ++ [c]). set (K := JS.len key0).
  set (fresh := (K <? 32) && (Z.land (LZW.dictLen st) (LZW.shl1 K) =? 0)
                || (32 <=? K) && bool_decide (LZW.dict st !! K = None)).
  set (dict1 := if fresh then <[K:=∅]> (LZW.dict st) else LZW.dict st).
  destruct (dict1 !! K) as [o |] eqn:Ho; [| done]. simpl.
  intros [= <-]. simpl. split; [| done].
  intros key v. unfold lzw_entry. simpl.
  destruct (decide (JS.len key = K)) as [E | E].
  - rewrite E, lookup_insert_eq. simpl. unfold LZW.set_own.
    assert (o !! key = Some v -> LZW.dict st !! K ≫= (.!! key) = Some v) as
        Hold.
    { intros Hv. subst dict1. destruct fresh.
      - rewrite lookup_insert_eq in Ho. by simplify_eq.
      - by rewrite Ho. }
    case_bool_decide; [by right; apply Hold |].
    destruct (decide (key = key0)) as [-> | Hne].
    + rewrite lookup_insert_eq. intros [= <-]. by left.
    + rewrite lookup_insert_ne by done. by right; apply Hold.
  - rewrite lookup_insert_ne by done. intros Hv. right.
    subst dict1. destruct fresh; [| done].
    by rewrite lookup_insert_ne in Hv by done.
Qed.

Section lzw_roundtrip.

Variable this : LZW.instance.
Variables cs cm : Z.
Hypothesis cs_range : 0 <= cs < 65536.
Hypothesis cm_range : cm < 65536.

Lemma fromCharCode_small x : 0 <= x < 65536 -> JS.fromCharCode x = x.
Proof. intros. unfold JS.fromCharCode. by apply Z.mod_small. Qed.

(** The decoder's reading of the code written for the pending buffer. *)
Lemma sync_emission st ds e :
  lzw_sync cs cm st ds -> LZW.emission st = Some e ->
  exists x, e.1 = [x]
            /\ LZW.decompress_step ds x
               = {| LZW.d_result := LZW.d_result ds ++ LZW.buffer st;
                    LZW.d_dict := <[LZW.d_code ds :=
                                      LZW.d_prev ds ++ take 1 (LZW.buffer st)]>
                                    (LZW.d_dict ds);
                    LZW.d_code := LZW.d_code ds + 1;
                    LZW.d_codeMax := cs;
                    LZW.d_ch := take 1 (LZW.buffer st);
                    LZW.d_prev := LZW.buffer st |}.
Proof.
  intros Hs He. unfold LZW.emission in He.
  assert (forall x buf,
             (if x <=? LZW.d_codeMax ds then [JS.fromCharCode x]
              else match LZW.d_dict ds !! x with
                   | Some s => s
                   | None => LZW.d_prev ds ++ LZW.d_ch ds
                   end) = buf ->
             buf = LZW.buffer st ->
             LZW.decompress_step ds x
             = {| LZW.d_result := LZW.d_result ds ++ LZW.buffer st;
                  LZW.d_dict := <[LZW.d_code ds :=
                                    LZW.d_prev ds ++ take 1 (LZW.buffer st)]>
                                  (LZW.d_dict ds);
                  LZW.d_code := LZW.d_code ds + 1;
                  LZW.d_codeMax := cs;
                  LZW.d_ch := take 1 (LZW.buffer st);
                  LZW.d_prev := LZW.buffer st |}) as Hstep.
  { intros x buf Hx ->. unfold LZW.decompress_step. rewrite Hx, charAt_0.
    by rewrite (sync_codeMax _ _ _ _ Hs). }
  destruct (Z.eqb_spec (JS.len (LZW.buffer st)) 1) as [E | E].
  - injection He as <-. simpl.
    pose proof (sync_literal _ _ _ _ Hs) as Hl.
    destruct (LZW.buffer st) as [| x [| ? ?]] eqn:Eb;
      [done | | unfold JS.len in E; simpl in E; lia].
    exists x. split; [done |]. eapply Hstep; [| done].
    apply Forall_cons in Hl as [Hx _].
    rewrite (sync_codeMax _ _ _ _ Hs).
    destruct (Z.leb_spec x cs); [| lia].
    by rewrite fromCharCode_small by lia.
  - destruct (sync_buffer _ _ _ _ Hs) as [? | [v Hv]]; [done |].
    pose proof Hv as Hv'. unfold lzw_entry in Hv'.
    destruct (LZW.dict st !! JS.len (LZW.buffer st)) as [o |]; [| done].
    simpl in He, Hv'. rewrite Hv' in He. injection He as <-. simpl.
    exists v. split; [done |]. eapply Hstep; [| done].
    destruct (sync_entry _ _ _ _ Hs _ _ Hv) as [Hlo Hd].
    rewrite (sync_codeMax _ _ _ _ Hs).
    destruct (Z.leb_spec v cs); [lia |].
    destruct Hd as [-> | [-> Hk]]; [done |].
    destruct (LZW.d_dict ds !! LZW.d_code ds) eqn:Ed.
    { pose proof (sync_dict _ _ _ _ Hs (LZW.d_code ds) ltac:(by eexists)). lia.
        }
    rewrite (sync_ch _ _ _ _ Hs).
    assert (take 1 (LZW.buffer st) = take 1 (LZW.d_prev ds)) as Ht.
    { rewrite Hk. pose proof (sync_prev _ _ _ _ Hs).
      by destruct (LZW.d_prev ds). }
    by rewrite <- Ht.
Qed.

Lemma lzw_entry_ext st st' key :
  LZW.dict st' = LZW.dict st -> lzw_entry st' key = lzw_entry st key.
Proof. unfold lzw_entry. by intros ->. Qed.

(** The encoder extends its buffer: the decoder is not concerned. *)
Lemma sync_grow st ds c st' :
  lzw_sync cs cm st ds ->
  LZW.dict st' = LZW.dict st -> LZW.code st' = LZW.code st ->
  LZW.buffer st' = LZW.buffer st ++ [c] ->
  is_Some (lzw_entry st (LZW.buffer st ++ [c])) ->
  0 <= c <= cs ->
  lzw_sync cs cm st' ds.
Proof.
  intros Hs Hd Hc Hb He Hlit. pose proof (sync_nonempty _ _ _ _ Hs) as Hne.
  assert (take 1 (LZW.buffer st') = take 1 (LZW.buffer st)) as Ht.
  { rewrite Hb. by destruct (LZW.buffer st). }
  split.
  - intros key v. rewrite (lzw_entry_ext st st') by done. rewrite Ht.
    apply (sync_entry _ _ _ _ Hs).
  - rewrite Hc. apply (sync_code _ _ _ _ Hs).
  - rewrite Hc. apply (sync_code_lo _ _ _ _ Hs).
  - apply (sync_dict _ _ _ _ Hs).
  - apply (sync_ch _ _ _ _ Hs).
  - apply (sync_prev _ _ _ _ Hs).
  - apply (sync_codeMax _ _ _ _ Hs).
  - right. rewrite Hb. by rewrite (lzw_entry_ext st st').
  - rewrite Hb. by destruct (LZW.buffer st).
  - rewrite Hb. apply Forall_app. split; [apply (sync_literal _ _ _ _ Hs) |].
    by apply Forall_singleton.
Qed.

(** The encoder writes the code of its buffer and restarts from [c]; the
    decoder reads that code.  [st'] is the encoder after the optional
    [learn]. *)
Lemma sync_emit st ds c st' :
  lzw_sync cs cm st ds ->
  (forall key v,
      lzw_entry st' key = Some v ->
      (LZW.code st <= cm /\ key = LZW.buffer st ++ [c]
       /\ v = JS.fromCharCode (LZW.code st))
      \/ lzw_entry st key = Some v) ->
  LZW.code st' = (if LZW.code st <=? cm then LZW.code st + 1 else LZW.code st)
      ->
  LZW.buffer st' = [c] ->
  0 <= c <= cs ->
  lzw_sync cs cm st'
    {| LZW.d_result := LZW.d_result ds ++ LZW.buffer st;
       LZW.d_dict := <[LZW.d_code ds :=
                         LZW.d_prev ds ++ take 1 (LZW.buffer st)]>
                       (LZW.d_dict ds);
       LZW.d_code := LZW.d_code ds + 1;
       LZW.d_codeMax := cs;
       LZW.d_ch := take 1 (LZW.buffer st);
       LZW.d_prev := LZW.buffer st |}.
Proof.
  intros Hs He Hc Hb Hlit.
  pose proof (sync_code_lo _ _ _ _ Hs) as Hlo.
  split; simpl.
  - intros key v Hv. rewrite Hb. simpl.
    destruct (He key v Hv) as [(Hcm & -> & ->) | Hold].
    + rewrite fromCharCode_small by lia. split; [done |]. right.
      split; [| done]. apply (sync_code _ _ _ _ Hs Hcm).
    + destruct (sync_entry _ _ _ _ Hs key v Hold) as [Hv1 [Hd | [-> ->]]].
      * split; [done |]. left. rewrite lookup_insert_ne; [done |].
        pose proof (sync_dict _ _ _ _ Hs v ltac:(by eexists)). lia.
      * split; [done |]. left. by rewrite lookup_insert_eq.
  - rewrite Hc. intros H. destruct (Z.leb_spec (LZW.code st) cm); [| lia].
    rewrite (sync_code _ _ _ _ Hs) by done. lia.
  - rewrite Hc. destruct (LZW.code st <=? cm); lia.
  - intros k [s Hk]. destruct (decide (k = LZW.d_code ds)) as [-> | Hne];
      [lia |].
    rewrite lookup_insert_ne in Hk by done.
    pose proof (sync_dict _ _ _ _ Hs k ltac:(by eexists)). lia.
  - done.
  - apply (sync_nonempty _ _ _ _ Hs).
  - done.
  - left. by rewrite Hb.
  - by rewrite Hb.
  - rewrite Hb. by apply Forall_singleton.
Qed.

Lemma lzw_loop_roundtrip rest : forall st ds z,
  lzw_sync cs cm st ds ->
  Forall (fun x => 0 <= x <= cs) rest ->
  LZW.compress_loop this cm rest st = Some (RStr z) ->
  exists tail,
    z = LZW.result st ++ tail
    /\ LZW.d_result (LZW.decompress_loop tail ds)
       = LZW.d_result ds ++ LZW.buffer st ++ rest.
Proof.
  induction rest as [| c rest IH]; intros st ds z Hs Hlit Hc.
  - simpl in Hc. destruct (LZW.emission st) as [e |] eqn:He; [| done].
    simpl in Hc. destruct (exceeds _ _); [done |]. injection Hc as <-.
    destruct (sync_emission st ds e Hs He) as (x & Hx & Hstep).
    exists e.1. split; [done |]. rewrite Hx.
    change (LZW.decompress_loop [x] ds) with (LZW.decompress_step ds x).
    rewrite Hstep. simpl.
    by rewrite app_nil_r.
  - simpl in Hc. apply Forall_cons in Hlit as [Hclit Hlit].
    destruct (LZW.known st (LZW.buffer st ++ [c])) as [b |] eqn:Hk; [| done].
    simpl in Hc. destruct b.
    + (* the buffer grows *)
      unfold LZW.known in Hk.
      destruct (LZW.slot_seen st _); [| done].
      unfold LZW.hasOwn in Hk.
      destruct (LZW.dict st !! JS.len (LZW.buffer st ++ [c])) as [o |] eqn:Ho;
        [| done].
      simpl in Hk. injection Hk as Hk. apply bool_decide_eq_true in Hk.
      apply IH with (ds := ds) in Hc as (tail & -> & Hd); [| | done].
      * exists tail. split; [done |]. rewrite Hd. simpl.
        by rewrite <- !app_assoc.
      * apply (sync_grow st ds c); try done.
        unfold lzw_entry. by rewrite Ho.
    + (* the code of the buffer is written *)
      destruct (LZW.emission st) as [e |] eqn:He; [| done].
      simpl in Hc. destruct (exceeds _ _); [done |].
      destruct (sync_emission st ds e Hs He) as (x & Hx & Hstep).
      match type of Hc with
      | (?m ≫= _) = _ => destruct m as [st2 |] eqn:Hl; [| done]
      end.
      simpl in Hc.
      pose proof (fun Hs' => IH _ (LZW.decompress_step ds x) z Hs' Hlit Hc)
        as IH'.
      destruct IH' as (tail & Hz & Hd).
      { rewrite Hstep. apply (sync_emit st ds c); try done; simpl.
        - intros key v Hv. destruct (Z.leb_spec (LZW.code st) cm).
          + apply learn_entries in Hl as (Hl & _ & _).
            destruct (Hl key v Hv) as [[-> ->] | Hold]; [by left | by right].
          + injection Hl as <-. by right.
        - destruct (LZW.code st <=? cm).
          + by apply learn_entries in Hl as (_ & -> & _).
          + by injection Hl as <-. }
      exists (e.1 ++ tail). split.
      { rewrite Hz. simpl. destruct (LZW.code st <=? cm).
        - apply learn_entries in Hl as (_ & _ & ->). simpl.
          by rewrite <- app_assoc.
        - injection Hl as <-. simpl. by rewrite <- app_assoc. }
      rewrite Hx. simpl. rewrite Hd, Hstep. simpl.
      by rewrite <- app_assoc.
Qed.

Lemma sync_start c0 c1 st' :
  0 <= c0 <= cs -> 0 <= c1 <= cs ->
  (forall key v,
      lzw_entry st' key = Some v ->
      cs + 1 <= cm /\ key = [c0; c1] /\ v = JS.fromCharCode (cs + 1)) ->
  LZW.code st' = (if cs + 1 <=? cm then cs + 2 else cs + 1) ->
  LZW.buffer st' = [c1] ->
  lzw_sync cs cm st'
    {| LZW.d_result := [c0]; LZW.d_dict := ∅; LZW.d_code := cs + 1;
       LZW.d_codeMax := cs; LZW.d_ch := [c0]; LZW.d_prev := [c0] |}.
Proof.
  intros H0 H1 He Hc Hb. split; simpl.
  - intros key v Hv. destruct (He key v Hv) as (Hcm & -> & ->).
    rewrite fromCharCode_small by lia. split; [lia |]. right.
    by rewrite Hb.
  - rewrite Hc. destruct (Z.leb_spec (cs + 1) cm); lia.
  - rewrite Hc. destruct (cs + 1 <=? cm); lia.
  - intros k [s Hk]. by rewrite lookup_empty in Hk.
  - done.
  - done.
  - done.
  - left. by rewrite Hb.
  - by rewrite Hb.
  - rewrite Hb. by apply Forall_singleton.
Qed.

Lemma lzw_roundtrip_gen this' data z :
  LZW._codeStart this = cs -> LZW._codeMax this = cm ->
  LZW._codeStart this' = cs ->
  Forall (fun x => 0 <= x <= cs) data ->
  LZW.compress this data = Some (RStr z) ->
  LZW.decompress this' z = data.
Proof.
  intros Hcs Hcm Hcs' Hlit Hc.
  destruct data as [| c0 rest]; [by injection Hc as <- |].
  apply Forall_cons in Hlit as [H0 Hlit].
  unfold LZW.compress in Hc. rewrite Hcs, Hcm in Hc.
  destruct rest as [| c1 rest].
  - simpl in Hc. destruct (exceeds _ _); [done |]. injection Hc as <-.
    simpl. by rewrite fromCharCode_small by lia.
  - apply Forall_cons in Hlit as [H1 Hlit].
    cbn [LZW.compress_loop] in Hc.
    change (LZW.known _ _) with (Some false) in Hc.
    change (LZW.emission _) with (Some ([c0], 1)) in Hc.
    cbn [mbind option_bind fst snd LZW.result LZW.resultBytes LZW.code] in Hc.
    destruct (exceeds _ _); [done |].
    match type of Hc with
    | (?m ≫= _) = _ => destruct m as [st2 |] eqn:Hl; [| done]
    end.
    cbn [mbind option_bind] in Hc.
    pose proof (fun Hs' =>
                  lzw_loop_roundtrip rest _
                    {| LZW.d_result := [c0]; LZW.d_dict := ∅;
                       LZW.d_code := cs + 1; LZW.d_codeMax := cs;
                       LZW.d_ch := [c0]; LZW.d_prev := [c0] |}
                    z Hs' Hlit Hc) as Hloop.
    destruct Hloop as (tail & Hz & Hd).
    { apply (sync_start c0 c1); try done; simpl.
      - intros key v Hv. destruct (Z.leb_spec (cs + 1) cm).
        + apply learn_entries in Hl as (Hl & _ & _).
          destruct (Hl key v Hv) as [[-> ->] | Hold]; [done |].
          unfold lzw_entry in Hold. simpl in Hold.
          by rewrite lookup_empty in Hold.
        + injection Hl as <-. unfold lzw_entry in Hv. simpl in Hv.
          by rewrite lookup_empty in Hv.
      - destruct (cs + 1 <=? cm).
        + apply learn_entries in Hl as (_ & -> & _). simpl. lia.
        + by injection Hl as <-. }
    assert (LZW.result st2 = [c0]) as Hr.
    { destruct (cs + 1 <=? cm).
      - by apply learn_entries in Hl as (_ & _ & ->).
      - by injection Hl as <-. }
    simpl in Hz. rewrite Hr in Hz. rewrite Hz. simpl.
    unfold LZW.decompress_start. rewrite Hcs'.
    rewrite fromCharCode_small by lia. by rewrite Hd.
Qed.

End lzw_roundtrip.

(** [LZW.decompress] inverts [LZW.compress] when the literals of the input
    do not exceed [codeStart] and the codes fit a code unit. *)
Lemma lzw_roundtrip this this' data z :
  0 <= LZW._codeStart this < 65536 -> LZW._codeMax this < 65536 ->
  LZW._codeStart this' = LZW._codeStart this ->
  Forall (fun x => 0 <= x <= LZW._codeStart this) data ->
  LZW.compress this data = Some (RStr z) ->
  LZW.decompress this' z = data.
Proof.
  intros Hcs Hcm Hcs' Hlit Hc.
  by apply (lzw_roundtrip_gen this (LZW._codeStart this) (LZW._codeMax this)
              Hcs Hcm this' data z).
Qed.
(** ** The alphabet and the two tables *)

Lemma in_alphabet_b_spec c : in_alphabet_b c = true <-> in_alphabet c.
Proof.
  unfold in_alphabet_b, in_alphabet, esc.
  rewrite !andb_true_iff, negb_true_iff, !orb_false_iff, !Z.eqb_neq.
  rewrite Z.leb_le, Z.ltb_lt. tauto.
Qed.

Lemma createTable_alphabet :
  forallb (fun v => in_alphabet_b (v mod 256) && (v mod 256 =? v))
      LZSSCompressor._createTable
  = true.
Proof. vm_compute. reflexivity. Qed.

(** Every byte that the compressor writes is a character of the alphabet:
    an entry of the table, or 0 for a read outside the table. *)
Lemma table_byte_alphabet x :
  in_alphabet (LZSSCompressor.table_byte x) /\ 0 <= LZSSCompressor.table_byte x
      < 0x7f.
Proof.
  assert (in_alphabet (LZSSCompressor.table_byte x)) as H.
  { unfold LZSSCompressor.table_byte.
    destruct (JS.charCodeAt LZSSCompressor._createTable x) as [v |] eqn:E.
    - apply charCodeAt_Some in E as [_ E].
      apply list_elem_of_lookup_2, list_elem_of_In in E.
      pose proof createTable_alphabet as H. rewrite forallb_forall in H.
      apply H, andb_true_iff in E as [E _]. by apply in_alphabet_b_spec.
    - by apply in_alphabet_b_spec. }
  split; [done |]. apply H.
Qed.

Lemma fromCharCode_table_byte x :
  JS.fromCharCode (LZSSCompressor.table_byte x) = LZSSCompressor.table_byte x.
Proof.
  destruct (table_byte_alphabet x) as [_ H].
  unfold JS.fromCharCode. apply Z.mod_small. lia.
Qed.

Lemma createIndex_table_byte_all :
  all_from (Z.to_nat TABLE_LENGTH) 0
    (fun x => bool_decide (LZSSDecompressor._createTable !!
        LZSSCompressor.table_byte x = Some x))
  = true.
Proof. vm_compute. reflexivity. Qed.

(** The decompressor's table inverts the compressor's. *)
Lemma createIndex_table_byte x :
  0 <= x < TABLE_LENGTH ->
  LZSSDecompressor._createTable !! LZSSCompressor.table_byte x = Some x.
Proof.
  intros Hx.
  pose proof (all_from_true _ _ _ x createIndex_table_byte_all) as H.
  cbv beta in H. eapply bool_decide_eq_true_1, H.
  change (Z.of_nat (Z.to_nat TABLE_LENGTH)) with 121.
  change TABLE_LENGTH with 121 in Hx. lia.
Qed.

Lemma createIndex_entries :
  forallb (fun kv => in_alphabet_b kv.1 && (0 <=? kv.2) && (kv.2 <?
      TABLE_LENGTH))
          (map_to_list LZSSDecompressor._createTable)
  = true.
Proof. vm_compute. reflexivity. Qed.

Lemma createIndex_Some c i :
  LZSSDecompressor._createTable !! c = Some i -> in_alphabet c /\ 0 <= i <
      TABLE_LENGTH.
Proof.
  intros H. apply elem_of_map_to_list, list_elem_of_In in H.
  pose proof createIndex_entries as Ha. rewrite forallb_forall in Ha.
  apply Ha in H. simpl in H.
  apply andb_true_iff in H as [H H2]. apply andb_true_iff in H as [H H1].
  apply in_alphabet_b_spec in H. split; [done | lia].
Qed.

Lemma createIndex_alphabet_all :
  all_from 127 0
    (fun c => implb (in_alphabet_b c)
                    (bool_decide (is_Some (LZSSDecompressor._createTable !!
                        c))))
  = true.
Proof. vm_compute. reflexivity. Qed.

(** The symbols that the decompressor skips are those outside the
    alphabet. *)
Lemma createIndex_None c : LZSSDecompressor._createTable !! c = None <-> ~
    in_alphabet c.
Proof.
  split.
  - intros H Hc.
    pose proof (all_from_true _ _ _ c createIndex_alphabet_all) as Ha.
    cbv beta in Ha.
    assert (0 <= c < 127) as Hr by (destruct Hc; lia).
    specialize (Ha ltac:(lia)).
    apply in_alphabet_b_spec in Hc. rewrite Hc in Ha. cbn [implb] in Ha.
    apply bool_decide_eq_true in Ha as [? Ha]. congruence.
  - intros H. destruct (LZSSDecompressor._createTable !! c) eqn:E; [| done].
    by apply createIndex_Some in E as [? _].
Qed.
Arguments LZSSDecompressor._createTable : simpl never.
Arguments LZSSCompressor._createTable : simpl never.
Arguments createWindow : simpl never.

(** ** The LZSS compressor writes characters of the alphabet *)

Lemma bufferToString_alphabet buf :
  Forall in_alphabet buf -> bufferToString buf = buf.
Proof.
  intros H. unfold bufferToString.
  induction H as [| b buf Hb _ IH]; [done |].
  rewrite fmap_cons, IH. f_equal.
  unfold JS.fromCharCode. apply Z.mod_small. destruct Hb. lia.
Qed.

Lemma literal_alphabet c lastIndex :
  Forall in_alphabet (LZSSCompressor.literal c lastIndex).1.1.
Proof.
  unfold LZSSCompressor.literal.
  repeat match goal with
         | |- context [if ?b then _ else _] => destruct b
         end; simpl; repeat constructor; apply table_byte_alphabet.
Qed.

Lemma reference_alphabet _index _length :
  Forall in_alphabet (LZSSCompressor.reference _index _length).1.
Proof.
  unfold LZSSCompressor.reference.
  repeat match goal with
         | |- context [if ?b then _ else _] => destruct b
         end; simpl; repeat constructor; apply table_byte_alphabet.
Qed.

Lemma lzss_loop_alphabet maxBytes data dataLen fuel : forall st z,
  Forall in_alphabet (LZSSCompressor.result st) -> Forall in_alphabet
      (LZSSCompressor.buf st) ->
  LZSSCompressor.compress_loop fuel maxBytes data dataLen st = Some (RStr z) ->
  Forall in_alphabet z.
Proof.
  induction fuel as [| fuel IH]; intros st z Hr Hb Hc; [done |].
  simpl in Hc. destruct (LZSSCompressor.offset st <? dataLen).
  - destruct (LZSSCompressor._search data (LZSSCompressor.offset st) dataLen) as
      [found |];
      [| done].
    simpl in Hc.
    match type of Hc with
    | (?m ≫= _) = _ => destruct m as [st1 |] eqn:E1; [| done]
    end.
    simpl in Hc. destruct (exceeds _ _); [done |].
    assert (Forall in_alphabet (LZSSCompressor.result st1)
            /\ Forall in_alphabet (LZSSCompressor.buf st1)) as [Hr1 Hb1].
    { destruct found as [[_index _length] |].
      - injection E1 as <-. simpl. split; [done |].
        apply Forall_app. split; [done | apply reference_alphabet].
      - destruct (JS.charCodeAt data (LZSSCompressor.offset st)) as [c |]; [|
          done].
        injection E1 as <-. simpl. split; [done |].
        apply Forall_app. split; [done | apply literal_alphabet]. }
    apply IH in Hc; [done | |].
    + destruct (COMPRESS_CHUNK_MAX <=? JS.len (LZSSCompressor.buf st1)); [|
        done].
      simpl. apply Forall_app. by rewrite bufferToString_alphabet.
    + by destruct (COMPRESS_CHUNK_MAX <=? JS.len (LZSSCompressor.buf st1)).
  - injection Hc as <-. destruct (0 <? JS.len (LZSSCompressor.buf st)); [|
      done].
    apply Forall_app. by rewrite bufferToString_alphabet.
Qed.

(** C3: every character of the string returned by
    [LZSSCompressor.compress] lies in the alphabet: its code is below 0x7F
    and is none of 0x08, 0x0A, 0x0B, 0x0C, 0x0D, 0x5C. *)
Theorem lzss_compress_alphabet maxBytes data z :
  LZSSCompressor.compress maxBytes data = Some (RStr z) -> Forall in_alphabet z.
Proof.
  unfold LZSSCompressor.compress. destruct (JS.len data =? 0).
  - by intros [= <-].
  - by apply lzss_loop_alphabet.
Qed.

Lemma lzss_compress_alphabet_witness :
  Forall in_alphabet
         [50; 22; 23; 39; 22; 24; 22; 25; 54; 7; 4; 48; 37; 54; 17; 28].
Proof.
  apply (lzss_compress_alphabet None
           (str "abracadabra abracadabra abracadabra")).
  vm_compute. reflexivity.
Defined.
(** ** Searching strings *)

Lemma prefixb_lookup s : forall w k c,
  JS.prefixb s w = true -> s !! k = Some c -> w !! k = Some c.
Proof.
  induction s as [| x s IH]; intros w k c Hp Hk; [done |].
  destruct w as [| y w]; [done |]. simpl in Hp.
  apply andb_true_iff in Hp as [Hxy Hp]. apply Z.eqb_eq in Hxy as ->.
  destruct k as [| k]; [done |]. simpl in *. by eapply IH.
Qed.

Lemma lastIndexOf_from_spec s limit : forall w k best r,
  JS.lastIndexOf_from w s limit k best = r ->
  r = best
  \/ (k <= r <= limit /\ Z.of_nat (length w) + k >= r
      /\ JS.prefixb s (drop (Z.to_nat (r - k)) w) = true).
Proof.
  induction w as [| y w IH]; intros k best r Hr; simpl in Hr.
  - destruct (Z.leb_spec k limit); simpl in Hr; [| by left].
    destruct (JS.prefixb s []) eqn:Hp; [| by left].
    subst r. right. replace (k - k) with 0 by lia. simpl.
    split; [lia |]. split; [lia | done].
  - apply IH in Hr as [-> | (H1 & H2 & Hp)].
    + destruct (Z.leb_spec k limit); simpl; [| by left].
      destruct (JS.prefixb s (y :: w)) eqn:Hp; [| by left].
      right. replace (k - k) with 0 by lia. simpl length. split; [lia |].
      split; [lia | done].
    + right. split; [lia |]. simpl length. split; [lia |].
      replace (Z.to_nat (r - k)) with (S (Z.to_nat (r - (k + 1)))) by lia.
      done.
Qed.

Lemma lastIndexOf_spec w s limit r :
  JS.lastIndexOf w s limit = r ->
  r = -1
  \/ (0 <= r <= Z.max limit 0
      /\ forall k c, s !! k = Some c -> w !! (Z.to_nat r + k)%nat = Some c).
Proof.
  intros Hr. apply lastIndexOf_from_spec in Hr as [-> | (H1 & _ & Hp)];
    [by left | right].
  split; [done |]. intros k c Hk.
  rewrite <- lookup_drop. eapply prefixb_lookup; [| done].
  by rewrite Z.sub_0_r in Hp.
Qed.

Lemma substring_take_drop s a b :
  0 <= a <= b -> b <= JS.len s ->
  JS.substring s a b = take (Z.to_nat (b - a)) (drop (Z.to_nat a) s).
Proof.
  intros Ha Hb. unfold JS.substring, JS.clamp.
  by replace (Z.min (Z.min (Z.max a 0) (JS.len s)) (Z.min (Z.max b 0) (JS.len
      s)))
    with a by lia;
  replace (Z.max (Z.min (Z.max a 0) (JS.len s)) (Z.min (Z.max b 0) (JS.len s)))
    with b by lia.
Qed.

Lemma substr_take_drop s a n :
  0 <= a -> 0 <= n -> a + n <= JS.len s ->
  JS.substr s a n = take (Z.to_nat n) (drop (Z.to_nat a) s).
Proof.
  intros Ha Hn Hs. unfold JS.substr.
  by replace (Z.min a (JS.len s)) with a by lia;
  replace (Z.min (Z.max n 0) (JS.len s - a)) with n by lia.
Qed.

Lemma charCodeAt_take_drop s a n k :
  0 <= a -> 0 <= k < n ->
  take (Z.to_nat n) (drop (Z.to_nat a) s) !! Z.to_nat k
  = JS.charCodeAt s (a + k).
Proof.
  intros Ha Hk. rewrite lookup_take_lt by lia. rewrite lookup_drop.
  unfold JS.charCodeAt. destruct (Z.ltb_spec (a + k) 0); [lia |].
  f_equal. lia.
Qed.

Lemma charAt_singleton s i c : JS.charCodeAt s i = Some c -> JS.charAt s i =
    [c].
Proof. unfold JS.charAt. by intros ->. Qed.

(** The search string of [_search] for the current [i]. *)
Lemma take_drop_charCodes s a (n : nat) :
  0 <= a -> a + Z.of_nat n <= JS.len s ->
  forall k c, take n (drop (Z.to_nat a) s) !! k = Some c ->
    JS.charCodeAt s (a + Z.of_nat k) = Some c.
Proof.
  intros Ha Hn k c Hk. apply lookup_take_Some in Hk as [Hk Hlt].
  rewrite lookup_drop in Hk. apply charCodeAt_Some. split; [lia |].
  rewrite <- Hk. f_equal. lia.
Qed.
(** ** The longest-match search *)

Lemma strict_ne_false a b :
  LZSSCompressor.strict_ne a b = false -> exists c, a = Some c /\ b = Some c.
Proof.
  destruct a as [x |], b as [y |]; try done. simpl.
  rewrite negb_false_iff, Z.eqb_eq. intros ->. by exists y.
Qed.

Section search.

Variable data : jstring.
Variables offset len : Z.

Lemma search_extend_spec j fuel : forall i i',
  LZSSCompressor.search_extend fuel data offset j len i = Some i' ->
  i <= i' <= Z.max (i + 1) len
  /\ forall k, i <= k < i' ->
       exists c, JS.charCodeAt data (offset + k) = Some c
                 /\ JS.charCodeAt data (j + k) = Some c.
Proof.
  induction fuel as [| fuel IH]; intros i i' H; [done |]. simpl in H.
  destruct (LZSSCompressor.strict_ne _ _) eqn:E.
  - injection H as <-. split; [lia |]. intros k Hk. lia.
  - apply strict_ne_false in E.
    destruct (Z.ltb_spec (i + 1) len).
    + apply IH in H as [H1 H2]. split; [lia |]. intros k Hk.
      destruct (decide (k = i)) as [-> | Hne]; [done |]. apply H2. lia.
    + injection H as <-. split; [lia |]. intros k Hk.
      by replace k with i by lia.
Qed.

Lemma search_extend_total j fuel : forall i,
  len - i <= Z.of_nat fuel -> (0 < fuel)%nat ->
  is_Some (LZSSCompressor.search_extend fuel data offset j len i).
Proof.
  induction fuel as [| fuel IH]; intros i Hf H0; [lia |]. simpl.
  destruct (LZSSCompressor.strict_ne _ _); [done |].
  destruct (Z.ltb_spec (i + 1) len); [| done].
  apply IH; lia.
Qed.

Variables pos limit : Z.
Variable win : jstring.

Local Abbreviation search_ctx' := (search_ctx data offset len pos win).
Local Abbreviation search_entry' :=
  (search_entry data offset len pos limit win).
Local Abbreviation search_exit' := (search_exit data offset len pos limit win).

(** The string searched for in the turn that starts with [i]. *)
Lemma search_string i s :
  search_ctx' -> 2 <= i <= len ->
  (i = 3 -> s = JS.charAt data offset ++ JS.charAt data (offset + 1)) ->
  (if i =? 2 then JS.charAt data offset ++ JS.charAt data (offset + 1)
   else if i =? 3 then s ++ JS.charAt data (offset + 2)
   else JS.substr data offset i)
  = take (Z.to_nat i) (drop (Z.to_nat offset) data).
Proof.
  intros (Hp & Hpo & Hl & _) Hi Hs.
  assert (forall k, 0 <= k < i ->
            exists c, JS.charCodeAt data (offset + k) = Some c) as Hc.
  { intros k Hk. apply charCodeAt_lt. lia. }
  assert (forall (n : nat) m, offset <= m -> m + Z.of_nat n < offset + i ->
            take (S n) (drop (Z.to_nat m) data)
            = JS.charAt data m ++ take n (drop (Z.to_nat (m + 1)) data)) as Ht.
  { intros n m Hm Hn.
    destruct (Hc (m - offset) ltac:(lia)) as [c Hck].
    replace (offset + (m - offset)) with m in Hck by lia.
    rewrite (charAt_singleton _ _ _ Hck).
    apply charCodeAt_Some in Hck as [_ Hck].
    rewrite (drop_S _ _ _ Hck). simpl. do 3 f_equal. lia. }
  destruct (Z.eqb_spec i 2) as [-> | H2].
  - change (Z.to_nat 2) with 2%nat.
    rewrite (Ht 1%nat offset), (Ht 0%nat (offset + 1)) by lia.
    by rewrite take_0, app_nil_r.
  - destruct (Z.eqb_spec i 3) as [-> | H3].
    + rewrite Hs by done. change (Z.to_nat 3) with 3%nat.
      rewrite (Ht 2%nat offset), (Ht 1%nat (offset + 1)) by lia.
      replace (offset + 1 + 1) with (offset + 2) by lia.
      rewrite (Ht 0%nat (offset + 2)) by lia.
      by rewrite take_0, app_nil_r, <- app_assoc.
    + apply substr_take_drop; lia.
Qed.

(** An occurrence of the search string in the window is a match. *)
Lemma search_occurrence i b :
  search_ctx' -> 2 <= i <= len -> 0 <= b ->
  (forall k c, take (Z.to_nat i) (drop (Z.to_nat offset) data) !! k = Some c ->
               win !! (Z.to_nat b + k)%nat = Some c) ->
  lzss_match data offset (offset - pos - b) i.
Proof.
  intros (Hp & Hpo & Hl & Hw) Hi Hb Hocc k Hk.
  destruct (charCodeAt_lt data (offset + k) ltac:(lia)) as [c Hc].
  exists c. split; [done |].
  assert (take (Z.to_nat i) (drop (Z.to_nat offset) data) !! Z.to_nat k
          = Some c) as Hs.
  { by rewrite charCodeAt_take_drop by lia. }
  apply Hocc in Hs. rewrite Hw, substring_take_drop in Hs by lia.
  apply lookup_take_Some in Hs as [Hs _]. rewrite lookup_drop in Hs.
  apply charCodeAt_Some. split; [lia |]. rewrite <- Hs. f_equal. lia.
Qed.

Lemma lzss_match_extend distance n n' :
  lzss_match data offset distance n ->
  (forall k, n <= k < n' ->
     exists c, JS.charCodeAt data (offset + k) = Some c
               /\ JS.charCodeAt data (offset - distance + k) = Some c) ->
  lzss_match data offset distance n'.
Proof.
  intros Hm He k Hk. destruct (decide (k < n)); [apply Hm | apply He]; lia.
Qed.

Lemma search_loop_spec fuel : forall i s index bestIndex r,
  2 <= i <= len -> search_entry' i s bestIndex ->
  LZSSCompressor.search_loop fuel data win offset pos limit len i s index
      bestIndex
  = Some r ->
  search_exit' r.
Proof.
  induction fuel as [| fuel IH]; intros i s index bestIndex r Hi He H;
    [done |].
  simpl in H.
  (* the string searched for in this turn *)
  set (s' := if i =? 2 then JS.charAt data offset ++ JS.charAt data (offset + 1)
             else if i =? 3 then s ++ JS.charAt data (offset + 2)
             else JS.substr data offset i) in *.
  assert (exists index' stop,
             (if i =? 2
              then (JS.charAt data offset ++ JS.charAt data (offset + 1),
                    Some (JS.indexOf win (JS.charAt data offset
                                          ++ JS.charAt data (offset + 1))),
                    (JS.indexOf win (JS.charAt data offset
                                     ++ JS.charAt data (offset + 1)) =? -1)
                    || (limit <? JS.indexOf win (JS.charAt data offset
                                   ++ JS.charAt data (offset + 1))))
              else if i =? 3 then (s ++ JS.charAt data (offset + 2), index,
                  false)
                   else (JS.substr data offset i, index, false))
             = (s', index', stop)) as (index' & stop & Eq).
  { subst s'. destruct (i =? 2); [by eexists _, _ |].
    destruct (i =? 3); by eexists _, _. }
  rewrite Eq in H. clear Eq.
  assert (search_exit' (i, bestIndex)) as Hstay.
  { destruct (decide (i = 2)) as [-> | Hne]; [by left | right].
    destruct (He ltac:(lia)) as (Hlt & b & -> & Hb & Hm). simpl.
    split; [lia |]. exists b. split; [done |]. split; [done |].
    intros Hctx. by apply Hm. }
  destruct stop; [by injection H as <- |].
  destruct (Z.eqb_spec (JS.lastIndexOf win s' limit) (-1)) as [E | E];
    [by injection H as <- |].
  destruct (lastIndexOf_spec win s' limit _ eq_refl) as [? | [Hb Hocc]];
    [done |].
  set (b := JS.lastIndexOf win s' limit) in *.
  destruct (LZSSCompressor.search_extend _ data offset (pos + b) len i) as [i1
      |] eqn:Ex;
    [| done].
  simpl in H. apply search_extend_spec in Ex as [Hi1 Hext].
  assert (search_ctx' -> lzss_match data offset (offset - pos - b) i1) as Hm.
  { intros Hctx.
    assert (s' = take (Z.to_nat i) (drop (Z.to_nat offset) data)) as Hs'.
    { apply search_string; [done | done |]. intros Hi3.
      destruct (He ltac:(lia)) as (_ & b0 & _ & _ & Hm0).
      by apply Hm0. }
    apply (lzss_match_extend _ i).
    - apply search_occurrence; [done | done | lia |]. by rewrite <- Hs'.
    - intros k Hk. destruct (Hext k Hk) as (c & H1 & H2). exists c.
      split; [done |]. rewrite <- H2. f_equal. lia. }
  assert (i1 <= Z.max 3 len) as Hi1'.
  { destruct (decide (i = 2)) as [-> | Hne]; [lia |].
    destruct (He ltac:(lia)) as [? _]. lia. }
  assert (search_exit' (i1 + 1, Some b)) as Hleave.
  { right. simpl. split; [lia |]. exists b. split; [done |].
    split; [done |]. intros Hctx. replace (i1 + 1 - 1) with i1 by lia.
    by apply Hm. }
  destruct (bool_decide _); [by injection H as <- |].
  destruct (Z.ltb_spec (i1 + 1) len); [| by injection H as <-].
  apply IH in H; [done | lia |].
  intros _. split; [done |]. exists b. split; [done |]. split; [done |].
  intros Hctx. split.
  - intros Hi3. assert (i = 2) as -> by lia. done.
  - replace (i1 + 1 - 1) with i1 by lia. by apply Hm.
Qed.

Lemma search_loop_total fuel : forall i s index bestIndex,
  2 <= i <= len -> len - i < Z.of_nat fuel ->
  is_Some (LZSSCompressor.search_loop fuel data win offset pos limit len i s
      index
                            bestIndex).
Proof.
  induction fuel as [| fuel IH]; intros i s index bestIndex Hi Hf; [lia |].
  simpl.
  assert (forall s' index' bestIndex',
            is_Some
              (if JS.lastIndexOf win s' limit =? -1 then Some (i, bestIndex')
               else
                 i1 ← LZSSCompressor.search_extend (Z.to_nat len) data offset
                        (pos + JS.lastIndexOf win s' limit) len i;
                 if bool_decide (index' = Some (JS.lastIndexOf win s' limit))
                 then Some (i1 + 1, Some (JS.lastIndexOf win s' limit))
                 else if i1 + 1 <? len
                      then LZSSCompressor.search_loop fuel data win offset pos
                          limit len
                             (i1 + 1) s' index'
                             (Some (JS.lastIndexOf win s' limit))
                      else Some (i1 + 1, Some (JS.lastIndexOf win s' limit))))
    as Hrest.
  { intros s' index' bestIndex'. destruct (_ =? -1); [done |].
    assert (len - i <= Z.of_nat (Z.to_nat len)) as Hf1 by lia.
    assert (0 < Z.to_nat len)%nat as Hf2 by lia.
    destruct (search_extend_total (pos + JS.lastIndexOf win s' limit)
                (Z.to_nat len) i Hf1 Hf2) as [i1 Hx].
    rewrite Hx. simpl. apply search_extend_spec in Hx as [Hi1 _].
    destruct (bool_decide _); [done |].
    destruct (Z.ltb_spec (i1 + 1) len); [| done].
    apply IH; lia. }
  destruct (i =? 2); [| destruct (i =? 3)]; cbn beta iota zeta.
  - destruct (_ || _); [done | apply Hrest].
  - apply Hrest.
  - apply Hrest.
Qed.

End search.
Lemma search_total data offset dataLen :
  is_Some (LZSSCompressor._search data offset dataLen).
Proof.
  unfold LZSSCompressor._search.
  set (len := if dataLen - offset <? BUFFER_MAX then dataLen - offset
              else BUFFER_MAX).
  destruct (Z.ltb_spec len 2); [done |].
  set (pos := offset - WINDOW_BUFFER_MAX).
  destruct (search_loop_total data offset len pos (offset + 2 - 3 - pos)
              (JS.substring data pos (offset + len)) (Z.to_nat len) 2 []
              None None) as [r Hr]; [lia | lia |].
  rewrite Hr. simpl.
  apply search_loop_spec in Hr as [-> | (Hr1 & b & Hb & _)];
    [done | | lia | by intros ?].
  destruct (Z.eqb_spec r.1 2); [done |]. by rewrite Hb.
Qed.

Lemma search_spec data offset dataLen _index _length :
  LZSSCompressor._search data offset dataLen = Some (Some (_index, _length)) ->
  2 <= _length <= BUFFER_MAX
  /\ 1 <= _index <= WINDOW_BUFFER_MAX
  /\ (WINDOW_BUFFER_MAX <= offset -> dataLen = JS.len data ->
      lzss_match data offset _index _length).
Proof.
  unfold LZSSCompressor._search.
  set (len := if dataLen - offset <? BUFFER_MAX then dataLen - offset
              else BUFFER_MAX).
  assert (len <= BUFFER_MAX /\ len <= dataLen - offset) as Hlen.
  { subst len. destruct (Z.ltb_spec (dataLen - offset) BUFFER_MAX); lia. }
  destruct (Z.ltb_spec len 2); [done |].
  set (pos := offset - WINDOW_BUFFER_MAX).
  destruct (LZSSCompressor.search_loop _ _ _ _ _ _ _ _ _ _ _) as [r |] eqn:Hr;
      [| done].
  simpl. apply search_loop_spec in Hr; [| lia | by intros ?].
  destruct (Z.eqb_spec r.1 2); [done |].
  destruct Hr as [? | (Hr1 & b & -> & Hb & Hm)]; [done |]. simpl.
  intros [= <- <-].
  replace (offset + 2 - 3 - pos) with 303 in Hb by (subst pos; unfold
      WINDOW_BUFFER_MAX; lia).
  unfold BUFFER_MAX, WINDOW_BUFFER_MAX in *.
  split; [lia |]. split; [lia |].
  intros Ho Hd.
  replace (304 - b) with (offset - pos - b) by (subst pos; lia).
  apply Hm. unfold search_ctx. subst pos. split; [lia |]. split; [lia |].
  split; [lia | done].
Qed.

(** C4: every back reference found by [_search] has a length between 2
    and [BUFFER_MAX] and a distance between 1 and [WINDOW_BUFFER_MAX]. *)
Theorem search_bounds data offset dataLen distance length :
  LZSSCompressor._search data offset dataLen = Some (Some (distance, length)) ->
  (2 <= length <= BUFFER_MAX /\ 1 <= distance <= WINDOW_BUFFER_MAX)
  /\ BUFFER_MAX = JS.len TABLE - 1 /\ BUFFER_MAX = 120
  /\ WINDOW_BUFFER_MAX = 304.
Proof.
  intros H. apply search_spec in H as (H1 & H2 & _). done.
Qed.

Lemma search_bounds_witness :
  (2 <= 42 <= BUFFER_MAX /\ 1 <= 1 <= WINDOW_BUFFER_MAX)
  /\ BUFFER_MAX = JS.len TABLE - 1 /\ BUFFER_MAX = 120
  /\ WINDOW_BUFFER_MAX = 304.
Proof.
  apply (search_bounds (createWindow ++ str
      "aaaaaaaaaaaaaaaaaaaaaaaaaaaaaaaaaaaaaaaaaaa")
                       1025 1067).
  vm_compute. reflexivity.
Defined.
(** ** The LZSS compressor answers on every input *)

Lemma lzss_compress_loop_total maxBytes data fuel : forall st,
  0 <= LZSSCompressor.offset st ->
  Z.max 0 (JS.len data - LZSSCompressor.offset st) < Z.of_nat fuel ->
  exists r, LZSSCompressor.compress_loop fuel maxBytes data (JS.len data) st =
      Some r
            /\ (maxBytes = None -> exists s, r = RStr s).
Proof.
  induction fuel as [| fuel IH]; intros st Ho Hf; [lia |].
  simpl. destruct (Z.ltb_spec (LZSSCompressor.offset st) (JS.len data)) as [Hlt
      | Hge].
  - destruct (search_total data (LZSSCompressor.offset st) (JS.len data)) as
      [found Hs].
    rewrite Hs. simpl.
    assert (exists st1,
               match found with
               | Some (_index, _length) =>
                 Some {| LZSSCompressor.offset := LZSSCompressor.offset st +
                     _length;
                         LZSSCompressor.lastIndex := -1;
                         LZSSCompressor.buf := LZSSCompressor.buf st
                                     ++ (LZSSCompressor.reference _index
                                        _length).1;
                         LZSSCompressor.result := LZSSCompressor.result st;
                         LZSSCompressor.bytes := LZSSCompressor.bytes st
                                       + (LZSSCompressor.reference _index
                                        _length).2 |}
               | None =>
                 c ← JS.charCodeAt data (LZSSCompressor.offset st);
                 Some {| LZSSCompressor.offset := LZSSCompressor.offset st + 1;
                         LZSSCompressor.lastIndex := (LZSSCompressor.literal c
                             (LZSSCompressor.lastIndex st)).2;
                         LZSSCompressor.buf := LZSSCompressor.buf st
                                     ++ (LZSSCompressor.literal c
                                        (LZSSCompressor.lastIndex st)).1.1;
                         LZSSCompressor.result := LZSSCompressor.result st;
                         LZSSCompressor.bytes := LZSSCompressor.bytes st
                                       + (LZSSCompressor.literal c
                                        (LZSSCompressor.lastIndex st)).1.2 |}
               end = Some st1
               /\ LZSSCompressor.offset st < LZSSCompressor.offset st1) as (st1
                   & -> & Hst1).
    { destruct found as [[_index _length] |].
      - apply search_spec in Hs as (Hl & _). eexists. split; [done |].
        simpl. lia.
      - destruct (charCodeAt_lt data (LZSSCompressor.offset st)) as [c ->]; [lia
          |].
        simpl. eexists. split; [done |]. simpl. lia. }
    simpl. destruct (exceeds _ _) eqn:E.
    { eexists. split; [done |]. intros ->. done. }
    apply IH.
    + destruct (_ <=? _); simpl; lia.
    + destruct (_ <=? _); simpl; lia.
  - eexists. split; [done |]. by eexists.
Qed.

(** [LZSSCompressor.compress] answers on every input, and never [false] when
    [maxBytes] is omitted. *)
Lemma lzss_compress_total maxBytes data :
  exists r, LZSSCompressor.compress maxBytes data = Some r
            /\ (maxBytes = None -> exists s, r = RStr s).
Proof.
  unfold LZSSCompressor.compress. destruct (JS.len data =? 0).
  - eexists. split; [done |]. by eexists.
  - apply lzss_compress_loop_total; cbn [LZSSCompressor.offset].
    + apply len_nonneg.
    + rewrite len_app. unfold JS.len. lia.
Qed.

(** C10: with [maxBytes] omitted, neither compressor returns [false]: on
    every input each returns a string. *)
Theorem compress_without_budget this data :
  LZW._maxBytes this = None ->
  (exists s, LZSSCompressor.compress None data = Some (RStr s))
  /\ (exists s, LZW.compress this data = Some (RStr s)).
Proof.
  intros Hm. split.
  - destruct (lzss_compress_total None data) as (r & Hr & Hs).
    destruct (Hs eq_refl) as [s ->]. by exists s.
  - destruct (lzw_compress_total this data) as (r & Hr & Hs).
    destruct (Hs Hm) as [s ->]. by exists s.
Qed.

Lemma compress_without_budget_witness :
  (exists s, LZSSCompressor.compress None (str "abcabcabc") = Some (RStr s))
  /\ (exists s, LZW.compress (LZW._init (LZW.Options None None None))
                             (str "abcabcabc") = Some (RStr s)).
Proof. apply (compress_without_budget _ (str "abcabcabc")). reflexivity.
    Defined.
(** ** The LZSS decompressor *)

Ltac consts :=
  unfold DECODE_MAX, LATIN_DECODE_MAX, CHAR_START, COMPRESS_START,
    COMPRESS_FIXED_START, COMPRESS_INDEX, BUFFER_MAX, WINDOW_BUFFER_MAX,
    WINDOW_MAX, TABLE_LENGTH, LATIN_INDEX, LATIN_INDEX_START, UNICODE_INDEX,
    LATIN_BUFFER_MAX, UNICODE_BUFFER_MAX, UNICODE_CHAR_MAX in *.

(** Settle the tests of the dispatch that follow from the hypotheses. *)
Ltac settle :=
  repeat match goal with
         | |- context [?a <? ?b] =>
           first [ rewrite (proj2 (Z.ltb_lt a b)) by (consts; lia)
                 | rewrite (proj2 (Z.ltb_ge a b)) by (consts; lia) ]
         | |- context [?a =? ?b] =>
           first [ rewrite (proj2 (Z.eqb_eq a b)) by (consts; lia)
                 | rewrite (proj2 (Z.eqb_neq a b)) by (consts; lia) ]
         end.

Ltac step_loop Hx :=
  cbn [LZSSDecompressor.decompress_loop]; rewrite Hx; settle; cbn [negb].

Lemma back_out st pos length st' :
  LZSSDecompressor.back st pos length = Some st' -> LZSSDecompressor.d_out st' =
      LZSSDecompressor.d_out st.
Proof.
  unfold LZSSDecompressor.back. intros H.
  match type of H with
  | (?m ≫= _) = _ => destruct m; [| done]
  end.
  by injection H as <-.
Qed.

Lemma decompress_loop_skip x rest st :
  LZSSDecompressor._createTable !! x = None ->
  LZSSDecompressor.decompress_loop (x :: rest) st =
      LZSSDecompressor.decompress_loop rest st.
Proof. intros H. cbn [LZSSDecompressor.decompress_loop]. by rewrite H. Qed.

(** The decompressor passes over characters outside the alphabet where it
    expects an opcode. *)
Lemma decompress_loop_junk j rest st :
  Forall (fun c => ~ in_alphabet c) j ->
  LZSSDecompressor.decompress_loop (j ++ rest) st =
      LZSSDecompressor.decompress_loop rest st.
Proof.
  induction 1 as [| x j Hx _ IH]; [done |].
  rewrite <- app_comm_cons, decompress_loop_skip; [done |].
  by apply createIndex_None.
Qed.

(** After a sequence of complete opcodes the decompressor continues with
    what follows. *)
Lemma decompress_loop_opcodes out p out' :
  opcodes out p out' ->
  forall st rest,
    LZSSDecompressor.d_out st = out ->
    LZSSDecompressor.decompress_loop (p ++ rest) st
    = LZSSDecompressor.decompress_loop p st ≫= LZSSDecompressor.decompress_loop
        rest
    /\ forall st', LZSSDecompressor.decompress_loop p st = Some st' ->
                   LZSSDecompressor.d_out st' = out'.
Proof.
  induction 1 as [out | out x p out' Hx _ IH | x c p out' Hx Hc _ IH
                  | x c y p out' Hx Hc _ IH | out x c p out' Hx Hc _ IH
                  | out x y p out' Hx _ IH | out x c y z p out' Hx Hc Hne _ IH
                  | out x c y p out' Hx Hc _ IH | out x c p out' Hx Hc _ IH];
    intros st rest Hout.
  - split; [done |]. by intros st' [= <-].
  - rewrite <- app_comm_cons, !decompress_loop_skip by done. by apply IH.
  - rewrite <- app_comm_cons. step_loop Hx. rewrite Hout. by apply IH.
  - rewrite <- !app_comm_cons. step_loop Hx. rewrite Hout. by apply IH.
  - rewrite <- app_comm_cons. step_loop Hx. by apply IH.
  - rewrite <- !app_comm_cons. step_loop Hx. by apply IH.
  - rewrite <- !app_comm_cons. step_loop Hx.
    match goal with
    | |- context [LZSSDecompressor.back ?a ?b ?c] =>
      destruct (LZSSDecompressor.back a b c) as [st1 |] eqn:Hb
    end; cbn [mbind option_bind]; [| by split].
    apply IH. by rewrite (back_out _ _ _ _ Hb).
  - rewrite <- !app_comm_cons. step_loop Hx.
    match goal with
    | |- context [LZSSDecompressor.back ?a ?b ?c] =>
      destruct (LZSSDecompressor.back a b c) as [st1 |] eqn:Hb
    end; cbn [mbind option_bind]; [| by split].
    apply IH. by rewrite (back_out _ _ _ _ Hb).
  - rewrite <- app_comm_cons. step_loop Hx. by apply IH.
Qed.
Global Opaque LZSSDecompressor._createTable LZSSCompressor._createTable
    createWindow.

Lemma grow_total sub length fuel : forall shrink,
  sub <> [] -> Z.max 0 (length - JS.len shrink) < Z.of_nat fuel ->
  is_Some (LZSSDecompressor.grow fuel sub length shrink).
Proof.
  induction fuel as [| fuel IH]; intros shrink Hs Hf; [lia |].
  cbn [LZSSDecompressor.grow]. destruct (Z.ltb_spec (JS.len shrink) length); [|
      done].
  apply IH; [done |]. rewrite len_app.
  assert (0 < JS.len sub); [| lia].
  destruct sub; [done |]. unfold JS.len. simpl. lia.
Qed.

Lemma back_total st pos length : is_Some (LZSSDecompressor.back st pos length).
Proof.
  unfold LZSSDecompressor.back.
  match goal with
  | |- is_Some (?m ≫= _) => assert (is_Some m) as [added ->]; [| done]
  end.
  match goal with
  | |- context [match ?s with [] => _ | _ :: _ => _ end] =>
    destruct s as [| x sub] eqn:Es; [done |]
  end.
  destruct length as [l |]; [| done].
  destruct (grow_total (x :: sub) l (S (Z.to_nat l)) []) as [shrink ->];
    [done | unfold JS.len; simpl; lia | done].
Qed.

Lemma decompress_loop_total n : forall data st,
  (length data <= n)%nat -> is_Some (LZSSDecompressor.decompress_loop data st).
Proof.
  induction n as [| n IH]; intros data st Hn.
  { destruct data; [done | simpl in Hn; lia]. }
  destruct data as [| x data1]; [done |]. simpl in Hn.
  cbn [LZSSDecompressor.decompress_loop].
  destruct (LZSSDecompressor._createTable !! x) as [c |]; [| apply IH; lia].
  assert (forall pos l data',
            (length data' <= n)%nat ->
            is_Some (LZSSDecompressor.back st pos l
                     ≫= LZSSDecompressor.decompress_loop data')) as Hback.
  { intros pos l data' Hd. destruct (back_total st pos l) as [st' ->].
    by apply IH. }
  destruct (c <? DECODE_MAX).
  { destruct (negb _); [apply IH; lia |].
    destruct data1 as [| y data2]; [done |]. apply IH. simpl in Hn. lia. }
  destruct (c <? LATIN_DECODE_MAX); [apply IH; lia |].
  destruct (c =? CHAR_START).
  { destruct data1 as [| y data2]; [done |]. apply IH. simpl in Hn. lia. }
  destruct (c <? COMPRESS_INDEX); [| apply IH; lia].
  destruct data1 as [| y data2].
  { destruct (c <? COMPRESS_FIXED_START); apply back_total. }
  simpl in Hn. destruct (c <? COMPRESS_FIXED_START).
  - destruct data2 as [| z data3]; [apply back_total |].
    apply Hback. simpl in Hn. lia.
  - apply Hback. lia.
Qed.

(** [LZSSDecompressor.decompress] answers on every input. *)
Lemma lzss_decompress_total data : is_Some (LZSSDecompressor.decompress data).
Proof.
  unfold LZSSDecompressor.decompress. destruct (JS.len data =? 0); [done |].
  destruct (decompress_loop_total (length data) data
              {| LZSSDecompressor.d_result := createWindow;
                  LZSSDecompressor.d_out := false;
                 LZSSDecompressor.d_index := LZSSDecompressor.JNull |}) as [st
                     ->]; done.
Qed.

(** ** The size of what the decompressor returns *)

Lemma substring_0_length s l : JS.len (JS.substring s 0 l) <= Z.max 0 l.
Proof.
  unfold JS.substring, JS.clamp. pose proof (len_nonneg s).
  unfold JS.len in *. rewrite length_take, length_drop. lia.
Qed.

(** A back reference appends at most [length] characters. *)
Lemma back_length st pos length st' :
  LZSSDecompressor.back st pos length = Some st' ->
  JS.len (LZSSDecompressor.d_result st)
  <= JS.len (LZSSDecompressor.d_result st')
  <= JS.len (LZSSDecompressor.d_result st) + Z.max 0 (default 0 length).
Proof.
  unfold LZSSDecompressor.back.
  match goal with
  | |- (?m ≫= _) = _ -> _ => destruct m as [added |] eqn:Ea; [| done]
  end.
  cbn [mbind option_bind]. intros [= <-]. cbn [LZSSDecompressor.d_result].
  rewrite len_app. pose proof (len_nonneg added).
  assert (JS.len added <= Z.max 0 (default 0 length)); [| lia].
  revert Ea.
  match goal with
  | |- context [match ?s with [] => _ | _ :: _ => _ end] =>
    destruct s as [| x sub]
  end; [intros [= <-]; unfold JS.len; simpl; lia |].
  destruct length as [n |]; [| intros [= <-]; unfold JS.len; simpl; lia].
  destruct (LZSSDecompressor.grow _ _ _ _) as [shrink |]; [| done].
  cbn [mbind option_bind]. intros [= <-]. apply substring_0_length.
Qed.

Lemma put_length st code :
  JS.len (LZSSDecompressor.d_result (LZSSDecompressor.put st code))
  = JS.len (LZSSDecompressor.d_result st) + 1.
Proof.
  unfold LZSSDecompressor.put. cbn [LZSSDecompressor.d_result].
  rewrite len_app. by destruct code.
Qed.

(** The loop of the decompressor ends, and appends at most 40 characters
    for every symbol it reads: a back reference of three symbols gives at
    most 120. *)
Lemma decompress_loop_bound n : forall data st,
  (length data <= n)%nat ->
  exists st',
    LZSSDecompressor.decompress_loop data st = Some st'
    /\ JS.len (LZSSDecompressor.d_result st)
       <= JS.len (LZSSDecompressor.d_result st')
       <= JS.len (LZSSDecompressor.d_result st) + 40 * JS.len data.
Proof.
  induction n as [| n IH]; intros data st Hn.
  { destruct data; [| simpl in Hn; lia]. exists st. split; [done |].
    unfold JS.len. simpl. lia. }
  destruct data as [| x data1].
  { exists st. split; [done |]. unfold JS.len. simpl. lia. }
  cbn [length] in Hn. cbn [LZSSDecompressor.decompress_loop].
  assert (forall data' st1 k,
            (length data' <= n)%nat ->
            Z.of_nat (length data') + k <= Z.of_nat (length (x :: data1)) ->
            JS.len (LZSSDecompressor.d_result st)
            <= JS.len (LZSSDecompressor.d_result st1)
            <= JS.len (LZSSDecompressor.d_result st) + 40 * k ->
            exists st',
              LZSSDecompressor.decompress_loop data' st1 = Some st'
              /\ JS.len (LZSSDecompressor.d_result st)
                 <= JS.len (LZSSDecompressor.d_result st')
                 <= JS.len (LZSSDecompressor.d_result st)
                    + 40 * JS.len (x :: data1)) as Hnext.
  { intros data' st1 k Hd Hk Hl.
    destruct (IH data' st1 Hd) as (st' & -> & Hst').
    exists st'. split; [done |]. unfold JS.len in *. lia. }
  assert (forall pos l data' k,
            (length data' <= n)%nat ->
            Z.of_nat (length data') + k <= Z.of_nat (length (x :: data1)) ->
            Z.max 0 (default 0 l) <= 40 * k ->
            exists st',
              LZSSDecompressor.back st pos l
                ≫= LZSSDecompressor.decompress_loop data' = Some st'
              /\ JS.len (LZSSDecompressor.d_result st)
                 <= JS.len (LZSSDecompressor.d_result st')
                 <= JS.len (LZSSDecompressor.d_result st)
                    + 40 * JS.len (x :: data1)) as Hback.
  { intros pos l data' k Hd Hk Hl.
    destruct (back_total st pos l) as [st1 Hb]. rewrite Hb.
    cbn [mbind option_bind]. apply back_length in Hb.
    apply (Hnext data' st1 k); [done | done | lia]. }
  assert (forall pos l k,
            k <= Z.of_nat (length (x :: data1)) ->
            Z.max 0 (default 0 l) <= 40 * k ->
            exists st',
              LZSSDecompressor.back st pos l = Some st'
              /\ JS.len (LZSSDecompressor.d_result st)
                 <= JS.len (LZSSDecompressor.d_result st')
                 <= JS.len (LZSSDecompressor.d_result st)
                    + 40 * JS.len (x :: data1)) as Hlast.
  { intros pos l k Hk Hl. destruct (back_total st pos l) as [st1 Hb].
    exists st1. split; [done |]. apply back_length in Hb.
    unfold JS.len in *. lia. }
  destruct (LZSSDecompressor._createTable !! x) as [c |];
    [| apply (Hnext data1 st 1); cbn [length]; lia].
  destruct (c <? DECODE_MAX).
  { destruct (negb _).
    - apply (Hnext data1 _ 1); [lia | cbn [length]; lia |].
      rewrite put_length. lia.
    - destruct data1 as [| y data2].
      + eexists. split; [done |]. rewrite put_length. unfold JS.len. simpl.
        lia.
      + cbn [length] in Hn.
        apply (Hnext data2 _ 1); [lia | cbn [length]; lia |].
        rewrite put_length. lia. }
  destruct (c <? LATIN_DECODE_MAX).
  { apply (Hnext data1 _ 0); [lia | cbn [length]; lia |].
    cbn [LZSSDecompressor.d_result]. lia. }
  destruct (c =? CHAR_START).
  { destruct data1 as [| y data2].
    - eexists. split; [done |]. cbn [LZSSDecompressor.d_result].
      unfold JS.len. simpl. lia.
    - cbn [length] in Hn. apply (Hnext data2 _ 0); [lia | cbn [length]; lia |].
      cbn [LZSSDecompressor.d_result]. lia. }
  destruct (c <? COMPRESS_INDEX);
    [| apply (Hnext data1 st 1); cbn [length]; lia].
  destruct data1 as [| y data2].
  { destruct (c <? COMPRESS_FIXED_START).
    - apply (Hlast None None 1); cbn; lia.
    - apply (Hlast None (Some 2) 1); cbn; lia. }
  cbn [length] in Hn. destruct (c <? COMPRESS_FIXED_START).
  - destruct data2 as [| z data3].
    + apply (Hlast _ None 1); cbn; lia.
    + cbn [length] in Hn.
      apply (Hback _ _ data3 3); [lia | cbn [length]; lia |].
      destruct (LZSSDecompressor._createTable !! z) as [l |] eqn:El;
        [| cbn; lia].
      apply createIndex_Some in El as [_ El]. unfold TABLE_LENGTH in El.
      cbn. lia.
  - apply (Hback _ _ data2 2); [lia | cbn [length]; lia | cbn; lia].
Qed.

(** [LZSSDecompressor.decompress] answers on every input, with at most 40
    characters for every symbol of the input. *)
Lemma lzss_decompress_bound data :
  exists r, LZSSDecompressor.decompress data = Some r
            /\ JS.len r <= 40 * JS.len data.
Proof.
  unfold LZSSDecompressor.decompress.
  destruct (Z.eqb_spec (JS.len data) 0) as [E | E].
  { exists []. split; [done |]. rewrite E. done. }
  destruct (decompress_loop_bound (length data) data
              {| LZSSDecompressor.d_result := createWindow;
                 LZSSDecompressor.d_out := false;
                 LZSSDecompressor.d_index := LZSSDecompressor.JNull |})
    as (st & -> & Hst); [done |].
  cbn [mbind option_bind LZSSDecompressor.d_result] in *.
  eexists. split; [done |].
  change WINDOW_MAX with (Z.of_nat 1024). rewrite substring_from_drop.
  assert (JS.len createWindow = 1024) as Hw
    by (unfold JS.len; by rewrite createWindow_length).
  rewrite Hw in Hst. unfold JS.len in *. rewrite length_drop. lia.
Qed.

Lemma createWindow_dropped : JS.substring_from createWindow WINDOW_MAX = [].
Proof. vm_compute. reflexivity. Qed.

(** C8, as stated: a line feed inserted between the two symbols of the
    back reference in the payload of "abab" changes the output. *)
Lemma lzss_junk_inside_opcode :
  ~ in_alphabet 10
  /\ LZSSCompressor.compress None (str "abab") = Some (RStr [50; 22; 23; 59; 2])
  /\ LZSSDecompressor.decompress [50; 22; 23; 59; 2] = Some (str "abab")
  /\ LZSSDecompressor.decompress [50; 22; 23; 59; 10; 2] = Some [97; 98; 32;
      122; 2].
Proof.
  split; [| by vm_compute].
  intros H. apply in_alphabet_b_spec in H. done.
Qed.

(** A line feed between the two symbols of the back reference in the
    payload of "abab" is read as the operand of the reference. *)
Lemma junk_changes_result :
  exists p1 x c j p2,
    opcodes false p1 false
    /\ LZSSDecompressor._createTable !! x = Some c
    /\ COMPRESS_FIXED_START <= c < COMPRESS_INDEX
    /\ ~ in_alphabet j
    /\ LZSSDecompressor.decompress (p1 ++ x :: j :: p2)
       <> LZSSDecompressor.decompress (p1 ++ x :: p2).
Proof.
  exists [50; 22; 23], 59, 54, 10, [2]. split.
  { apply opcodes_latin_page with (c := 45); [by vm_compute | by vm_compute |].
    apply opcodes_latin with (c := 17); [by vm_compute | by vm_compute |].
    apply opcodes_latin with (c := 18); [by vm_compute | by vm_compute |].
    apply opcodes_nil. }
  split; [by vm_compute |]. split; [by vm_compute |].
  split; [intros H; by apply in_alphabet_b_spec in H |].
  vm_compute. discriminate.
Qed.

(** C8, amended: [LZSSDecompressor.decompress] returns a string on every
    input, of at most 40 characters for every symbol of the input;
    characters outside the alphabet inserted after any sequence of complete
    opcodes (before the first symbol of an opcode, or at the end) do not
    change the result; and a character outside the alphabet between the two
    symbols of a back reference is not passed over: there is a payload
    whose result it changes. *)
Theorem lzss_junk_between_opcodes :
  (forall p, exists r, LZSSDecompressor.decompress p = Some r
                       /\ JS.len r <= 40 * JS.len p)
  /\ (forall p1 out' j p2,
        opcodes false p1 out' ->
        Forall (fun c => ~ in_alphabet c) j ->
        LZSSDecompressor.decompress (p1 ++ j ++ p2)
        = LZSSDecompressor.decompress (p1 ++ p2))
  /\ exists p1 x c j p2,
       opcodes false p1 false
       /\ LZSSDecompressor._createTable !! x = Some c
       /\ COMPRESS_FIXED_START <= c < COMPRESS_INDEX
       /\ ~ in_alphabet j
       /\ LZSSDecompressor.decompress (p1 ++ x :: j :: p2)
          <> LZSSDecompressor.decompress (p1 ++ x :: p2).
Proof.
  split; [exact lzss_decompress_bound |]. split; [| apply junk_changes_result].
  intros p1 out' j p2 Hp Hj. unfold LZSSDecompressor.decompress.
  set (st0 := {| LZSSDecompressor.d_result := createWindow;
      LZSSDecompressor.d_out := false;
                 LZSSDecompressor.d_index := LZSSDecompressor.JNull |}).
  assert (LZSSDecompressor.decompress_loop (p1 ++ j ++ p2) st0
          = LZSSDecompressor.decompress_loop (p1 ++ p2) st0) as Hloop.
  { destruct (decompress_loop_opcodes _ _ _ Hp st0 (j ++ p2) eq_refl)
      as [-> _].
    destruct (decompress_loop_opcodes _ _ _ Hp st0 p2 eq_refl) as [-> _].
    destruct (LZSSDecompressor.decompress_loop p1 st0); [| done].
    cbn [mbind option_bind]. by apply decompress_loop_junk. }
  rewrite Hloop.
  destruct (Z.eqb_spec (JS.len (p1 ++ p2)) 0) as [E | E].
  - apply len_nil_inv, app_eq_nil in E as [-> ->].
    destruct (JS.len _ =? 0); [done |].
    cbn [app LZSSDecompressor.decompress_loop mbind option_bind].
    unfold st0. cbn [LZSSDecompressor.d_result]. by rewrite
        createWindow_dropped.
  - destruct (Z.eqb_spec (JS.len (p1 ++ j ++ p2)) 0) as [E' | E']; [| done].
    rewrite !len_app in *. pose proof (len_nonneg p1).
    pose proof (len_nonneg p2). pose proof (len_nonneg j). lia.
Qed.

Lemma lzss_junk_between_opcodes_witness :
  LZSSDecompressor.decompress ([50; 22; 23] ++ [10; 13] ++ [59; 2])
  = LZSSDecompressor.decompress ([50; 22; 23] ++ [59; 2]).
Proof.
  apply (proj1 (proj2 lzss_junk_between_opcodes) [50; 22; 23] false [10; 13]).
  - apply opcodes_latin_page with (c := 45); [by vm_compute | by vm_compute |].
    apply opcodes_latin with (c := 17); [by vm_compute | by vm_compute |].
    apply opcodes_latin with (c := 18); [by vm_compute | by vm_compute |].
    apply opcodes_nil.
  - repeat constructor; intros H; apply in_alphabet_b_spec in H; done.
Defined.
(** ** Decoding what the LZSS compressor writes *)

Section tokens.

Variable ds : LZSSDecompressor.dstate.
Variable rest : jstring.

Ltac step_token :=
  cbn [LZSSDecompressor.decompress_loop];
  rewrite ?createIndex_table_byte by (consts; lia);
  settle; cbn [negb].

Lemma decode_latin_page c2 c1 :
  0 <= c2 < 4 -> 0 <= c1 < 40 ->
  LZSSDecompressor.decompress_loop
    (LZSSCompressor.table_byte (c2 + LATIN_INDEX - LATIN_INDEX_START)
     :: LZSSCompressor.table_byte c1 :: rest) ds
  = LZSSDecompressor.decompress_loop rest
      {| LZSSDecompressor.d_result := LZSSDecompressor.d_result ds ++
          [JS.fromCharCode (c2 * 40 + c1)];
         LZSSDecompressor.d_out := false; LZSSDecompressor.d_index :=
             LZSSDecompressor.JNum c2 |}.
Proof.
  intros H2 H1. step_token. step_token.
  unfold LZSSDecompressor.put, LZSSDecompressor.latin_code. cbn.
  replace (c2 + LATIN_INDEX - LATIN_INDEX_START - DECODE_MAX) with c2
    by (consts; lia).
  done.
Qed.

Lemma decode_latin_digit c2 c1 :
  0 <= c1 < 40 ->
  LZSSDecompressor.d_out ds = false -> LZSSDecompressor.d_index ds =
      LZSSDecompressor.JNum c2 ->
  LZSSDecompressor.decompress_loop (LZSSCompressor.table_byte c1 :: rest) ds
  = LZSSDecompressor.decompress_loop rest
      {| LZSSDecompressor.d_result := LZSSDecompressor.d_result ds ++
          [JS.fromCharCode (c2 * 40 + c1)];
         LZSSDecompressor.d_out := false; LZSSDecompressor.d_index :=
             LZSSDecompressor.JNum c2 |}.
Proof.
  intros H1 Ho Hi. step_token. rewrite Ho. cbn [negb].
  unfold LZSSDecompressor.put, LZSSDecompressor.latin_code. rewrite Hi, Ho.
      done.
Qed.

Lemma decode_unicode_page c2 c3 c4 :
  0 <= c2 < 40 -> 0 <= c3 < 40 -> 0 <= c4 < 121 ->
  LZSSDecompressor.decompress_loop
    (LZSSCompressor.table_byte CHAR_START
     :: LZSSCompressor.table_byte (c2 + UNICODE_INDEX - TABLE_LENGTH)
     :: LZSSCompressor.table_byte c3 :: LZSSCompressor.table_byte c4 :: rest) ds
  = LZSSDecompressor.decompress_loop rest
      {| LZSSDecompressor.d_result :=
           LZSSDecompressor.d_result ds ++ [JS.fromCharCode (c4 * 40 + c3 + 1640
               * c2)];
         LZSSDecompressor.d_out := true; LZSSDecompressor.d_index :=
             LZSSDecompressor.JNum c2 |}.
Proof.
  intros H2 H3 H4. step_token. step_token.
  unfold LZSSDecompressor.put, LZSSDecompressor.unicode_code. cbn.
  replace (c2 + UNICODE_INDEX - TABLE_LENGTH - 5) with c2 by (consts; lia).
  done.
Qed.

Lemma decode_unicode_digits c2 c3 c4 :
  0 <= c3 < 40 -> 0 <= c4 < 121 ->
  LZSSDecompressor.d_out ds = true -> LZSSDecompressor.d_index ds =
      LZSSDecompressor.JNum c2 ->
  LZSSDecompressor.decompress_loop (LZSSCompressor.table_byte c3 ::
      LZSSCompressor.table_byte c4 :: rest) ds
  = LZSSDecompressor.decompress_loop rest
      {| LZSSDecompressor.d_result :=
           LZSSDecompressor.d_result ds ++ [JS.fromCharCode (c4 * 40 + c3 + 1640
               * c2)];
         LZSSDecompressor.d_out := true; LZSSDecompressor.d_index :=
             LZSSDecompressor.JNum c2 |}.
Proof.
  intros H3 H4 Ho Hi. step_token. rewrite Ho. cbn [negb].
  unfold LZSSDecompressor.put, LZSSDecompressor.unicode_code. rewrite Hi, Ho.
      done.
Qed.

Lemma decode_reference c2 c1 l :
  0 <= c2 < 3 -> 0 <= c1 < 120 -> 0 <= l < 121 ->
  LZSSDecompressor.decompress_loop
    (LZSSCompressor.table_byte (c2 + COMPRESS_START) ::
        LZSSCompressor.table_byte c1
     :: LZSSCompressor.table_byte l :: rest) ds
  = LZSSDecompressor.back ds (Some (c2 * 120 + c1)) (Some l)
    ≫= LZSSDecompressor.decompress_loop rest.
Proof.
  intros H2 H1 Hl. step_token. unfold LZSSDecompressor.position. cbn [mbind
      option_bind].
  replace ((c2 + COMPRESS_START - COMPRESS_START) * BUFFER_MAX + c1)
    with (c2 * 120 + c1) by (consts; lia).
  done.
Qed.

Lemma decode_reference2 c2 c1 :
  0 <= c2 < 3 -> 0 <= c1 < 120 ->
  LZSSDecompressor.decompress_loop
    (LZSSCompressor.table_byte (c2 + COMPRESS_FIXED_START) ::
        LZSSCompressor.table_byte c1 :: rest)
    ds
  = LZSSDecompressor.back ds (Some (c2 * 120 + c1)) (Some 2)
    ≫= LZSSDecompressor.decompress_loop rest.
Proof.
  intros H2 H1. step_token. unfold LZSSDecompressor.position. cbn [mbind
      option_bind].
  replace ((c2 + COMPRESS_FIXED_START - COMPRESS_FIXED_START) * BUFFER_MAX + c1)
    with (c2 * 120 + c1) by (consts; lia).
  done.
Qed.

End tokens.
(** The quotient and remainder computed by the compressor. *)
Lemma split_digit c m :
  0 <= c -> 0 < m ->
  let c1 := if c <? m then c else Z.rem c m in
  let c2 := if c <? m then 0 else (c - c1) / m in
  c = c2 * m + c1 /\ 0 <= c1 < m /\ c2 = c / m.
Proof.
  intros Hc Hm. cbv zeta. destruct (Z.ltb_spec c m).
  - rewrite Z.div_small by lia. lia.
  - rewrite Z.rem_mod_nonneg by lia.
    pose proof (Z.mod_pos_bound c m Hm). pose proof (Z.div_mod c m ltac:(lia)).
    assert ((c - c mod m) / m = c / m) as ->.
    { replace (c - c mod m) with (c / m * m) by lia. by apply Z.div_mul; lia. }
    lia.
Qed.

Lemma literal_decodes c lastIndex ds :
  code_unit c -> lzss_sync lastIndex ds ->
  exists ds',
    (forall rest,
        LZSSDecompressor.decompress_loop ((LZSSCompressor.literal c
            lastIndex).1.1 ++ rest) ds
        = LZSSDecompressor.decompress_loop rest ds')
    /\ LZSSDecompressor.d_result ds' = LZSSDecompressor.d_result ds ++ [c]
    /\ lzss_sync (LZSSCompressor.literal c lastIndex).2 ds'.
Proof.
  intros Hc Hs. unfold code_unit in Hc. unfold LZSSCompressor.literal.
  destruct (Z.ltb_spec c LATIN_BUFFER_MAX) as [Hl | Hl].
  - destruct (split_digit c UNICODE_CHAR_MAX ltac:(lia) eq_refl)
      as (Hsplit & H1 & H2). cbv zeta.
    set (c1 := if c <? UNICODE_CHAR_MAX then c else Z.rem c UNICODE_CHAR_MAX) in
        *.
    set (c2 := if c <? UNICODE_CHAR_MAX then 0 else (c - c1) / UNICODE_CHAR_MAX)
      in *.
    assert (0 <= c2 < 4) as H2'.
    { rewrite H2. split; [apply Z.div_pos; consts; lia |].
      apply Z.div_lt_upper_bound; consts; lia. }
    assert ((if c <? UNICODE_CHAR_MAX then LATIN_INDEX else c2 + LATIN_INDEX)
            = c2 + LATIN_INDEX) as ->.
    { subst c2. by destruct (c <? UNICODE_CHAR_MAX). }
    assert (JS.fromCharCode (c2 * 40 + c1) = c) as Hcode.
    { unfold JS.fromCharCode. rewrite Z.mod_small; consts; lia. }
    destruct (Z.eqb_spec lastIndex (c2 + LATIN_INDEX)) as [E | E];
      cbn [fst snd app].
    + assert (LZSSDecompressor.d_out ds = false /\ LZSSDecompressor.d_index ds =
        LZSSDecompressor.JNum c2)
        as [Ho Hi].
      { destruct Hs as [? | [(c2' & ? & ? & ? & Hi) | (c2' & ? & ? & _)]];
          [consts; lia | | consts; lia].
        by replace c2 with c2' by lia. }
      eexists. split;
        [intros rest; apply (decode_latin_digit _ _ c2); consts; lia || done |].
      cbn [LZSSDecompressor.d_result]. rewrite Hcode. split; [done |].
      right; left. exists c2. rewrite E. repeat split; try done; lia.
    + eexists. split; [intros rest; apply decode_latin_page; consts; lia |].
      cbn [LZSSDecompressor.d_result]. rewrite Hcode. split; [done |].
      right; left. exists c2. repeat split; try done; lia.
  - destruct (split_digit c UNICODE_BUFFER_MAX ltac:(lia) eq_refl)
      as (Hsplit & H1 & H2). cbv zeta.
    set (c1 := if c <? UNICODE_BUFFER_MAX then c
               else Z.rem c UNICODE_BUFFER_MAX) in *.
    set (c2 := if c <? UNICODE_BUFFER_MAX then 0
               else (c - c1) / UNICODE_BUFFER_MAX) in *.
    assert (0 <= c2 < 40) as H2'.
    { rewrite H2. split; [apply Z.div_pos; consts; lia |].
      apply Z.div_lt_upper_bound; consts; lia. }
    assert ((if c <? UNICODE_BUFFER_MAX then UNICODE_INDEX
             else c2 + UNICODE_INDEX) = c2 + UNICODE_INDEX) as ->.
    { subst c2. by destruct (c <? UNICODE_BUFFER_MAX). }
    destruct (split_digit c1 UNICODE_CHAR_MAX ltac:(lia) eq_refl)
      as (Hsplit' & H3 & H4).
    set (c3 := if c1 <? UNICODE_CHAR_MAX then c1
               else Z.rem c1 UNICODE_CHAR_MAX) in *.
    set (c4 := if c1 <? UNICODE_CHAR_MAX then 0
               else (c1 - c3) / UNICODE_CHAR_MAX) in *.
    assert (0 <= c4 < 121) as H4'.
    { rewrite H4. split; [apply Z.div_pos; consts; lia |].
      apply Z.div_lt_upper_bound; consts; lia. }
    assert (JS.fromCharCode (c4 * 40 + c3 + 1640 * c2) = c) as Hcode.
    { unfold JS.fromCharCode. rewrite Z.mod_small; consts; lia. }
    destruct (Z.eqb_spec lastIndex (c2 + UNICODE_INDEX)) as [E | E];
      cbn [fst snd app].
    + assert (LZSSDecompressor.d_out ds = true /\ LZSSDecompressor.d_index ds =
        LZSSDecompressor.JNum c2)
        as [Ho Hi].
      { destruct Hs as [? | [(c2' & ? & ? & _) | (c2' & ? & ? & ? & Hi)]];
          [consts; lia | consts; lia |].
        by replace c2 with c2' by lia. }
      eexists. split;
        [intros rest; apply (decode_unicode_digits _ _ c2);
         consts; lia || done |].
      cbn [LZSSDecompressor.d_result]. rewrite Hcode. split; [done |].
      right; right. exists c2. rewrite E. repeat split; try done; lia.
    + eexists. split; [intros rest; apply decode_unicode_page; consts; lia |].
      cbn [LZSSDecompressor.d_result]. rewrite Hcode. split; [done |].
      right; right. exists c2. repeat split; try done; lia.
Qed.

Lemma reference_decodes distance length ds rest :
  1 <= distance <= WINDOW_BUFFER_MAX -> 2 <= length <= BUFFER_MAX ->
  LZSSDecompressor.decompress_loop ((LZSSCompressor.reference distance length).1
      ++ rest) ds
  = LZSSDecompressor.back ds (Some distance) (Some length) ≫=
      LZSSDecompressor.decompress_loop rest.
Proof.
  intros Hd Hl. unfold LZSSCompressor.reference.
  destruct (split_digit distance BUFFER_MAX ltac:(lia) eq_refl)
    as (Hsplit & H1 & H2). cbv zeta.
  set (c1 := if distance <? BUFFER_MAX then distance
             else Z.rem distance BUFFER_MAX) in *.
  set (c2 := if distance <? BUFFER_MAX then 0
             else (distance - c1) / BUFFER_MAX) in *.
  assert (0 <= c2 < 3) as H2'.
  { rewrite H2. split; [apply Z.div_pos; consts; lia |].
    apply Z.div_lt_upper_bound; consts; lia. }
  assert (c2 * 120 + c1 = distance) as Hdist by (consts; lia).
  destruct (Z.eqb_spec length 2) as [-> | E]; cbn [fst app].
  - rewrite decode_reference2 by (consts; lia). by rewrite Hdist.
  - rewrite decode_reference by (consts; lia). by rewrite Hdist.
Qed.
(** ** The copy of a back reference *)

Open Scope nat_scope.

(** The loop of [back] repeats [sub]: when [sub] repeated agrees with the
    stream [D] below [l], so does what the loop returns, which is at least
    [l] long. *)
Lemma grow_spec (D : nat -> option Z) sub l fuel : forall shrink n res,
  length shrink = n * length sub ->
  (forall k c, shrink !! k = Some c -> k < l -> D k = Some c) ->
  (forall n j c, sub !! j = Some c -> n * length sub + j < l ->
                 D (n * length sub + j) = Some c) ->
  LZSSDecompressor.grow fuel sub (Z.of_nat l) shrink = Some res ->
  l <= length res
  /\ forall k c, res !! k = Some c -> k < l -> D k = Some c.
Proof.
  induction fuel as [| fuel IH]; intros shrink n res Hn Hs Hp Hg; [done |].
  cbn [LZSSDecompressor.grow] in Hg.
  destruct (Z.ltb_spec (JS.len shrink) (Z.of_nat l)) as [Hlt | Hge].
  - apply (IH _ (S n)) in Hg; [done | | | done].
    + rewrite length_app. lia.
    + intros k c Hk Hkl. apply lookup_app_Some in Hk as [Hk | [Hk1 Hk2]].
      * by apply Hs.
      * rewrite Hn in Hk1, Hk2.
        replace k with (n * length sub + (k - n * length sub)) by lia.
        apply Hp; [done | lia].
  - injection Hg as <-. unfold JS.len in Hge. split; [lia | done].
Qed.

Lemma back_added (data : jstring) (o ll : nat) res :
  ll <= length res ->
  (forall k c, res !! k = Some c -> k < ll -> data !! (o + k) = Some c) ->
  take ll res = take ll (drop o data).
Proof.
  intros Hlen Hres. apply list_eq. intros k.
  destruct (decide (k < ll)) as [Hk | Hk].
  - rewrite !lookup_take_lt by done. rewrite lookup_drop.
    destruct (lookup_lt_is_Some_2 res k ltac:(lia)) as [c Hc].
    rewrite Hc. symmetry. by apply Hres.
  - by rewrite !lookup_take_ge by lia.
Qed.

Section back_copy.

Variable data : jstring.
Variables o dd ll : nat.
Hypothesis dd_pos : 1 <= dd.
Hypothesis dd_le : dd <= o.
Hypothesis ll_pos : 1 <= ll.
Hypothesis matches :
  forall k, k < ll ->
    exists c, data !! (o + k) = Some c /\ data !! (o - dd + k) = Some c.

Lemma back_periodic n : forall j c,
  j < dd `min` ll -> data !! (o - dd + j) = Some c ->
  n * (dd `min` ll) + j < ll ->
  data !! (o + (n * (dd `min` ll) + j)) = Some c.
Proof.
  induction n as [| n IH]; intros j c Hj Hc Hl.
  - simpl. destruct (matches j ltac:(lia)) as (c' & H1 & H2). congruence.
  - rewrite Nat.mul_succ_l in *.
    assert (dd `min` ll = dd) as Hd by lia. rewrite Hd in *.
    destruct (matches (n * dd + dd + j) Hl) as (c' & H1 & H2).
    rewrite H1. rewrite <- H2.
    replace (o - dd + (n * dd + dd + j)) with (o + (n * dd + j)) by lia.
    apply IH; [lia | done | lia].
Qed.

End back_copy.

Close Scope nat_scope.
Lemma substring_0_take s n :
  0 <= n -> JS.substring s 0 n = take (Z.to_nat n) s.
Proof.
  intros Hn. unfold JS.substring, JS.clamp. pose proof (len_nonneg s).
  replace (Z.min (Z.min (Z.max 0 0) (JS.len s)) (Z.min (Z.max n 0) (JS.len s)))
    with 0 by lia.
  replace (Z.max (Z.min (Z.max 0 0) (JS.len s)) (Z.min (Z.max n 0) (JS.len s)))
    with (Z.min n (JS.len s)) by lia.
  rewrite Z.sub_0_r. change (Z.to_nat 0) with 0%nat. rewrite drop_0.
  destruct (Z.le_ge_cases n (JS.len s)).
  - by rewrite Z.min_l by done.
  - rewrite Z.min_r by done. unfold JS.len. rewrite Nat2Z.id.
    rewrite !take_ge; [done | unfold JS.len in *; lia | done].
Qed.

Lemma slice_from_neg s n :
  0 < n <= JS.len s ->
  JS.slice_from s (- n) = drop (Z.to_nat (JS.len s - n)) s.
Proof.
  intros Hn. unfold JS.slice_from.
  destruct (Z.ltb_spec (- n) 0); [| lia]. f_equal. lia.
Qed.

(** The copy made for a back reference that matches the input extends the
    output by the characters of the input. *)
Lemma back_copy ds data offset distance length :
  LZSSDecompressor.d_result ds = take (Z.to_nat offset) data ->
  WINDOW_BUFFER_MAX <= offset ->
  1 <= distance <= WINDOW_BUFFER_MAX -> 1 <= length ->
  lzss_match data offset distance length ->
  LZSSDecompressor.back ds (Some distance) (Some length)
  = Some {| LZSSDecompressor.d_result := take (Z.to_nat (offset + length)) data;
            LZSSDecompressor.d_out := LZSSDecompressor.d_out ds;
                LZSSDecompressor.d_index := LZSSDecompressor.JNull |}.
Proof.
  intros Hr Ho Hd Hl Hm. unfold WINDOW_BUFFER_MAX in *.
  set (o := Z.to_nat offset). set (dd := Z.to_nat distance).
  set (ll := Z.to_nat length).
  assert (forall k, (k < ll)%nat ->
            exists c, data !! (o + k)%nat = Some c
                      /\ data !! (o - dd + k)%nat = Some c) as Hmatch.
  { intros k Hk. destruct (Hm (Z.of_nat k) ltac:(lia)) as (c & H1 & H2).
    apply charCodeAt_Some in H1 as [_ H1]. apply charCodeAt_Some in H2 as [_
        H2].
    exists c. split.
    - rewrite <- H1. f_equal. lia.
    - rewrite <- H2. f_equal. lia. }
  assert (o + ll <= base.length data)%nat as Hdata.
  { destruct (Hmatch (ll - 1)%nat ltac:(lia)) as (c & H1 & _).
    apply lookup_lt_Some in H1. lia. }
  assert (base.length (LZSSDecompressor.d_result ds) = o) as Hlen.
  { rewrite Hr, length_take. lia. }
  assert (JS.slice_from (JS.slice_from (LZSSDecompressor.d_result ds) (- 304))
      (- distance)
          = drop (o - dd) (LZSSDecompressor.d_result ds)) as Htail.
  { rewrite (slice_from_neg _ 304) by (unfold JS.len; lia).
    rewrite slice_from_neg
      by (unfold JS.len; rewrite length_drop; unfold JS.len; lia).
    rewrite drop_drop. f_equal. unfold JS.len. rewrite length_drop.
    unfold JS.len. lia. }
  unfold LZSSDecompressor.back. change (- WINDOW_BUFFER_MAX) with (- 304).
  rewrite Htail. clear Htail.
  set (tail := drop (o - dd) (LZSSDecompressor.d_result ds)).
  assert (forall j c, tail !! j = Some c -> data !! (o - dd + j)%nat = Some c)
    as Htail.
  { intros j c Hj. subst tail. rewrite lookup_drop, Hr in Hj.
    by apply lookup_take_Some in Hj as [Hj _]. }
  assert (base.length tail = dd) as Hlt.
  { subst tail. rewrite length_drop. lia. }
  rewrite substring_0_take by lia. fold ll.
  set (sub := take ll tail).
  assert (base.length sub = (dd `min` ll)%nat) as Hls.
  { subst sub. rewrite length_take. lia. }
  destruct sub as [| x sub'] eqn:Es; [simpl in Hls; lia |].
  cbv beta iota. rewrite <- Es in *. clear Es x sub'.
  destruct (grow_total sub length (S ll) []) as [shrink Hg].
  { intros E. rewrite E in Hls. simpl in Hls. lia. }
  { unfold JS.len. simpl. lia. }
  rewrite Hg. cbn [mbind option_bind]. do 2 f_equal.
  replace length with (Z.of_nat ll) in Hg by lia.
  apply (grow_spec (fun k => data !! (o + k)%nat) sub ll _ [] 0%nat) in Hg
    as [Hlen' Hagree]; [| done | done |].
  - rewrite substring_0_take by lia. fold ll.
    rewrite (back_added data o ll shrink Hlen' Hagree).
    rewrite Hr, take_take_drop. f_equal. lia.
  - intros n j c Hj Hn. rewrite Hls in *.
    apply lookup_take_Some in Hj as [Hj Hjl].
    apply (back_periodic data o dd ll); try done; try lia.
    + apply lookup_lt_Some in Hj. lia.
    + by apply Htail.
Qed.
(** ** LZSS round trip *)

Lemma flush_same (st1 : LZSSCompressor.cstate) :
  Forall in_alphabet (LZSSCompressor.buf st1) ->
  let st2 := if COMPRESS_CHUNK_MAX <=? JS.len (LZSSCompressor.buf st1)
             then {| LZSSCompressor.offset := LZSSCompressor.offset st1;
                     LZSSCompressor.lastIndex := LZSSCompressor.lastIndex st1;
                     LZSSCompressor.buf := [];
                     LZSSCompressor.result := LZSSCompressor.result st1
                                    ++ bufferToString (LZSSCompressor.buf st1);
                     LZSSCompressor.bytes := LZSSCompressor.bytes st1 |}
             else st1 in
  LZSSCompressor.result st2 ++ LZSSCompressor.buf st2 = LZSSCompressor.result
      st1 ++ LZSSCompressor.buf st1
  /\ LZSSCompressor.offset st2 = LZSSCompressor.offset st1
  /\ LZSSCompressor.lastIndex st2 = LZSSCompressor.lastIndex st1
  /\ Forall in_alphabet (LZSSCompressor.buf st2).
Proof.
  intros Hb. cbv zeta. destruct (_ <=? _); [| done]. cbn.
  by rewrite bufferToString_alphabet, app_nil_r.
Qed.

Lemma lzss_loop_roundtrip maxBytes data fuel : forall st ds z,
  Forall code_unit data ->
  WINDOW_BUFFER_MAX <= LZSSCompressor.offset st <= JS.len data ->
  LZSSDecompressor.d_result ds = take (Z.to_nat (LZSSCompressor.offset st)) data
      ->
  lzss_sync (LZSSCompressor.lastIndex st) ds ->
  Forall in_alphabet (LZSSCompressor.buf st) ->
  LZSSCompressor.compress_loop fuel maxBytes data (JS.len data) st = Some (RStr
      z) ->
  exists tail ds',
    z = LZSSCompressor.result st ++ LZSSCompressor.buf st ++ tail
    /\ LZSSDecompressor.decompress_loop tail ds = Some ds'
    /\ LZSSDecompressor.d_result ds' = data.
Proof.
  induction fuel as [| fuel IH]; intros st ds z Hdata Ho Hr Hs Hb Hc; [done |].
  cbn [LZSSCompressor.compress_loop] in Hc.
  destruct (Z.ltb_spec (LZSSCompressor.offset st) (JS.len data)) as [Hlt | Hge].
  - destruct (LZSSCompressor._search data (LZSSCompressor.offset st) (JS.len
      data)) as [found |]
      eqn:Hsearch; [| done].
    cbn [mbind option_bind] in Hc.
    (* the state after this turn, and the decoder after reading its output *)
    assert (exists e st1 ds1,
               match found with
               | Some (_index, _length) =>
                 Some {| LZSSCompressor.offset := LZSSCompressor.offset st +
                     _length;
                         LZSSCompressor.lastIndex := -1;
                         LZSSCompressor.buf := LZSSCompressor.buf st
                                     ++ (LZSSCompressor.reference _index
                                        _length).1;
                         LZSSCompressor.result := LZSSCompressor.result st;
                         LZSSCompressor.bytes := LZSSCompressor.bytes st
                                       + (LZSSCompressor.reference _index
                                        _length).2 |}
               | None =>
                 c ← JS.charCodeAt data (LZSSCompressor.offset st);
                 Some {| LZSSCompressor.offset := LZSSCompressor.offset st + 1;
                         LZSSCompressor.lastIndex := (LZSSCompressor.literal c
                             (LZSSCompressor.lastIndex st)).2;
                         LZSSCompressor.buf := LZSSCompressor.buf st
                                     ++ (LZSSCompressor.literal c
                                        (LZSSCompressor.lastIndex st)).1.1;
                         LZSSCompressor.result := LZSSCompressor.result st;
                         LZSSCompressor.bytes := LZSSCompressor.bytes st
                                       + (LZSSCompressor.literal c
                                        (LZSSCompressor.lastIndex st)).1.2 |}
               end = Some st1
               /\ LZSSCompressor.buf st1 = LZSSCompressor.buf st ++ e
               /\ LZSSCompressor.result st1 = LZSSCompressor.result st
               /\ Forall in_alphabet e
               /\ LZSSCompressor.offset st < LZSSCompressor.offset st1 <= JS.len
                   data
               /\ (forall rest, LZSSDecompressor.decompress_loop (e ++ rest) ds
                                = LZSSDecompressor.decompress_loop rest ds1)
               /\ LZSSDecompressor.d_result ds1 = take (Z.to_nat
                   (LZSSCompressor.offset st1)) data
               /\ lzss_sync (LZSSCompressor.lastIndex st1) ds1)
      as (e & st1 & ds1 & Hst1 & Hbuf & Hres & He & Hoff & Hdec & Hr1 & Hs1).
    { destruct found as [[_index _length] |].
      - apply search_spec in Hsearch as (Hl & Hd & Hm).
        specialize (Hm ltac:(lia) eq_refl).
        assert (LZSSCompressor.offset st + _length <= JS.len data) as Hend.
        { destruct (Hm (_length - 1) ltac:(lia)) as (c & Hc1 & _).
          apply charCodeAt_Some in Hc1 as [_ Hc1].
          apply lookup_lt_Some in Hc1. unfold JS.len. lia. }
        exists (LZSSCompressor.reference _index _length).1.
        eexists _, {| LZSSDecompressor.d_result :=
                        take (Z.to_nat (LZSSCompressor.offset st + _length))
                            data;
                      LZSSDecompressor.d_out := LZSSDecompressor.d_out ds;
                      LZSSDecompressor.d_index := LZSSDecompressor.JNull |}.
        split; [done |]. cbn.
        split; [done |]. split; [done |].
        split; [apply reference_alphabet |]. split; [lia |].
        split; [| split; [done | by left]].
        intros rest. rewrite reference_decodes by done.
        rewrite (back_copy ds data (LZSSCompressor.offset st)) by (done || lia).
        done.
      - destruct (charCodeAt_lt data (LZSSCompressor.offset st)) as [c Hcc];
          [unfold WINDOW_BUFFER_MAX in *; lia |].
        rewrite Hcc. cbn [mbind option_bind].
        assert (code_unit c) as Hcu.
        { apply charCodeAt_Some in Hcc as [_ Hcc].
          rewrite Forall_forall in Hdata. apply Hdata.
          by apply list_elem_of_lookup_2 in Hcc. }
        destruct (literal_decodes c (LZSSCompressor.lastIndex st) ds Hcu Hs)
          as (ds1 & Hdec & Hr1 & Hs1).
        exists (LZSSCompressor.literal c (LZSSCompressor.lastIndex st)).1.1.
        eexists _, ds1. split; [done |]. cbn.
        split; [done |]. split; [done |].
        split; [apply literal_alphabet |]. split; [lia |].
        split; [done |]. split; [| done].
        rewrite Hr1, Hr.
        apply charCodeAt_Some in Hcc as [_ Hcc].
        rewrite <- (take_S_r _ _ _ Hcc). f_equal.
        unfold WINDOW_BUFFER_MAX in *. lia. }
    rewrite Hst1 in Hc. cbn [mbind option_bind] in Hc.
    destruct (exceeds _ _); [done |].
    assert (Forall in_alphabet (LZSSCompressor.buf st1)) as Hb1.
    { rewrite Hbuf. by apply Forall_app. }
    destruct (flush_same st1 Hb1) as (Hsame & Hof & Hli & Hbf).
    cbv zeta in Hsame, Hof, Hli, Hbf.
    apply (IH _ ds1) in Hc as (tail & ds' & Hz & Hd & Hfin); [| done | | | |
        done].
    + exists (e ++ tail), ds'. split.
      { rewrite Hz, app_assoc, Hsame, Hres, Hbuf. by rewrite <- !app_assoc. }
      by rewrite Hdec.
    + rewrite Hof. unfold WINDOW_BUFFER_MAX in *. lia.
    + by rewrite Hof.
    + by rewrite Hli.
  - injection Hc as <-. exists [], ds.
    split.
    { destruct (Z.ltb_spec 0 (JS.len (LZSSCompressor.buf st))) as [H0 | H0].
      - by rewrite bufferToString_alphabet, app_nil_r.
      - pose proof (len_nonneg (LZSSCompressor.buf st)).
        rewrite (len_nil_inv (LZSSCompressor.buf st)) by lia. by rewrite
            app_nil_r. }
    split; [done |]. rewrite Hr. apply take_ge. unfold JS.len in *. lia.
Qed.
Lemma createWindow_code_units : Forall code_unit createWindow.
Proof.
  apply Forall_forall. intros c Hc. apply list_elem_of_In in Hc.
  assert (forallb (fun c => (0 <=? c) && (c <? 0x10000)) createWindow = true)
    as H by (vm_compute; reflexivity).
  rewrite forallb_forall in H. apply H in Hc. unfold code_unit. lia.
Qed.

(** [LZSSDecompressor.decompress] inverts [LZSSCompressor.compress]. *)
Lemma lzss_roundtrip maxBytes input z :
  Forall code_unit input ->
  LZSSCompressor.compress maxBytes input = Some (RStr z) ->
  LZSSDecompressor.decompress z = Some input.
Proof.
  intros Hin Hc. unfold LZSSCompressor.compress in Hc.
  destruct (Z.eqb_spec (JS.len input) 0) as [E | E].
  { injection Hc as <-. by rewrite (len_nil_inv _ E). }
  cbv zeta in Hc.
  apply (lzss_loop_roundtrip _ _ _ _
           {| LZSSDecompressor.d_result := createWindow; LZSSDecompressor.d_out
               := false;
              LZSSDecompressor.d_index := LZSSDecompressor.JNull |}) in Hc
    as (tail & ds' & Hz & Hd & Hfin).
  - cbn [LZSSCompressor.result LZSSCompressor.buf app] in Hz. subst z.
    unfold LZSSDecompressor.decompress.
    destruct (Z.eqb_spec (JS.len tail) 0) as [Et | Et].
    + apply len_nil_inv in Et. subst tail. injection Hd as <-.
      cbn [LZSSDecompressor.d_result] in Hfin.
      apply (f_equal length) in Hfin. rewrite length_app in Hfin.
      unfold JS.len in E. lia.
    + rewrite Hd. cbn [mbind option_bind]. rewrite Hfin. f_equal.
      change WINDOW_MAX with (Z.of_nat 1024).
      rewrite substring_from_drop, <- createWindow_length.
      apply drop_app_length.
  - apply Forall_app. split; [apply createWindow_code_units | done].
  - cbn [LZSSCompressor.offset]. rewrite len_app.
    assert (JS.len createWindow = 1024) as ->
      by (unfold JS.len; by rewrite createWindow_length).
    unfold WINDOW_BUFFER_MAX. pose proof (len_nonneg input). lia.
  - cbn [LZSSCompressor.offset LZSSDecompressor.d_result]. unfold JS.len.
      rewrite Nat2Z.id.
    by rewrite take_app_length.
  - by left.
  - done.
Qed.

(** ** The dispatcher *)

Lemma byteLength_loop_ge data : forall n,
  n + JS.len data <= byteLength_loop data n
  /\ (byteLength_loop data n = n + JS.len data ->
      Forall (fun c => c < 0x80) data).
Proof.
  induction data as [| c data IH]; intros n.
  { unfold JS.len. simpl. split; [lia | done]. }
  cbn [byteLength_loop]. unfold JS.len in *. cbn [length].
  destruct (Z.ltb_spec c 128).
  - destruct (IH (n + 1)) as [H1 H2]. split; [lia |].
    intros Heq. constructor; [done |]. apply H2. lia.
  - destruct (c <? 2048).
    + destruct (IH (n + 2)) as [H1 _]. split; lia.
    + destruct (IH (n + 3)) as [H1 _]. split; lia.
Qed.

Lemma byteLength_ascii data :
  byteLength data = JS.len data -> Forall (fun c => c < 0x80) data.
Proof. intros H. by apply (byteLength_loop_ge data 0). Qed.

Lemma unit_bytes_all : all_from (Z.to_nat 0x10000) 0 unit_bytes = true.
Proof. vm_compute. reflexivity. Qed.

Lemma toUTF8_bytes s :
  Forall code_unit s -> Forall (fun b => 0 <= b <= 0xff) (toUTF8 s).
Proof.
  induction 1 as [| c s Hc _ IH]; [done |].
  rewrite toUTF8_cons. apply Forall_app. split; [| done].
  pose proof (all_from_true _ _ _ c unit_bytes_all) as H.
  unfold code_unit in Hc. specialize (H ltac:(lia)).
  unfold unit_bytes in H. rewrite forallb_forall in H.
  apply Forall_forall. intros b Hb. apply list_elem_of_In, H in Hb. lia.
Qed.
Lemma decompress_tagged c payload :
  LZJS.decompress (c :: payload)
  = if bool_decide ([c] = LZJS.tagS) then LZJS._decompressByS payload
    else if bool_decide ([c] = LZJS.tagW) then LZJS._decompressByW payload
    else if bool_decide ([c] = LZJS.tagU) then LZJS._decompressByU payload
    else if bool_decide ([c] = LZJS.tagN) then LZJS._decompressByN payload
    else Some (c :: payload).
Proof.
  unfold LZJS.decompress.
  replace (JS.len (c :: payload) =? 0) with false
    by (symmetry; apply Z.eqb_neq; unfold JS.len; simpl; lia).
  change (JS.charAt (c :: payload) 0) with [c].
  change 1 with (Z.of_nat 1). by rewrite substring_from_drop.
Qed.

Lemma lzss_compress_some maxBytes data :
  exists r, LZSSCompressor.compress maxBytes data = Some r.
Proof. destruct (lzss_compress_total maxBytes data) as (r & H & _). eauto. Qed.

Lemma lzw_compress_some this data :
  exists r, LZW.compress this data = Some r.
Proof. destruct (lzw_compress_total this data) as (r & H & _). eauto. Qed.

(** C5: on a non-empty pure-ASCII input the dispatcher tries LZW with
    [codeStart = 0x7F], [codeMax = 0x7FF] and the UTF-8 length of the input
    as budget; when that returns [false] it tries LZSS with the same budget,
    and when that returns [false] too it keeps the input; the result is the
    payload after its tag W, S or N. *)
Theorem compress_ascii s :
  s <> [] -> byteLength s = JS.len s ->
  exists r1,
    LZW.compress {| LZW._codeStart := 0x7f; LZW._codeMax := 0x7ff;
                    LZW._maxBytes := Some (byteLength s) |} s = Some r1
    /\ match r1 with
       | RStr payload => LZJS.compress s = Some (LZJS.tagW ++ payload)
       | RFalse =>
         exists r2,
           LZSSCompressor.compress (Some (byteLength s)) s = Some r2
           /\ match r2 with
              | RStr payload => LZJS.compress s = Some (LZJS.tagS ++ payload)
              | RFalse => LZJS.compress s = Some (LZJS.tagN ++ s)
              end
       end.
Proof.
  intros Hne Hb. unfold LZJS.compress.
  replace (JS.len s =? 0) with false
    by (symmetry; apply Z.eqb_neq; intros E; by apply len_nil_inv in E).
  cbv zeta. rewrite Hb, Z.eqb_refl. rewrite <- Hb.
  change (LZW._init _) with
    {| LZW._codeStart := 0x7f; LZW._codeMax := 0x7ff;
       LZW._maxBytes := Some (byteLength s) |}.
  destruct (lzw_compress_some
              {| LZW._codeStart := 0x7f; LZW._codeMax := 0x7ff;
                 LZW._maxBytes := Some (byteLength s) |} s) as [r1 Hr1].
  exists r1. split; [done |]. rewrite Hr1. cbn [mbind option_bind].
  destruct r1 as [payload |]; [done |]. cbn [LZW.maxBytes].
  destruct (lzss_compress_some (Some (byteLength s)) s) as [r2 Hr2].
  exists r2. split; [done |]. rewrite Hr2. cbn [mbind option_bind].
  by destruct r2.
Qed.

Lemma compress_ascii_witness :
  exists r1,
    LZW.compress {| LZW._codeStart := 0x7f; LZW._codeMax := 0x7ff;
                    LZW._maxBytes := Some (byteLength (str "Hello, world!")) |}
                 (str "Hello, world!") = Some r1
    /\ match r1 with
       | RStr payload =>
         LZJS.compress (str "Hello, world!") = Some (LZJS.tagW ++ payload)
       | RFalse =>
         exists r2,
           LZSSCompressor.compress (Some (byteLength (str "Hello, world!")))
                         (str "Hello, world!") = Some r2
           /\ match r2 with
              | RStr payload =>
                LZJS.compress (str "Hello, world!")
                = Some (LZJS.tagS ++ payload)
              | RFalse =>
                LZJS.compress (str "Hello, world!")
                = Some (LZJS.tagN ++ str "Hello, world!")
              end
       end.
Proof. apply (compress_ascii (str "Hello, world!")); [done | reflexivity].
    Defined.

(** C1: on every string of code units [compress] returns a string that
    [decompress] maps back to the input, whichever of the tags S, W, U, N
    is chosen. *)
Theorem lzjs_roundtrip s :
  Forall code_unit s ->
  exists z, LZJS.compress s = Some z /\ LZJS.decompress z = Some s.
Proof.
  intros Hs. unfold LZJS.compress.
  destruct (Z.eqb_spec (JS.len s) 0) as [E | E].
  { apply len_nil_inv in E. subst s. by exists []. }
  cbv zeta.
  (* the three ways of decoding *)
  assert (forall payload,
             LZSSCompressor.compress (Some (byteLength s)) s = Some (RStr
                 payload) ->
             LZJS.decompress (LZJS.tagS ++ payload) = Some s) as HS.
  { intros payload Hc. change (LZJS.tagS ++ payload) with (83 :: payload).
    rewrite decompress_tagged. cbn [bool_decide].
    rewrite bool_decide_eq_true_2 by done.
    by apply (lzss_roundtrip (Some (byteLength s))). }
  assert (LZJS.decompress (LZJS.tagN ++ s) = Some s) as HN.
  { change (LZJS.tagN ++ s) with (78 :: s). rewrite decompress_tagged.
    rewrite !bool_decide_eq_false_2 by done.
    by rewrite bool_decide_eq_true_2 by done. }
  assert (forall payload,
             LZW.compress
               (LZW._init {| LZW.codeStart := None; LZW.codeMax := None;
                             LZW.maxBytes := Some (byteLength s) |})
               (toUTF8 s) = Some (RStr payload) ->
             LZJS.decompress (LZJS.tagU ++ payload) = Some s) as HU.
  { intros payload Hc. change (LZJS.tagU ++ payload) with (85 :: payload).
    rewrite decompress_tagged.
    rewrite !bool_decide_eq_false_2 by done.
    rewrite bool_decide_eq_true_2 by done.
    unfold LZJS._decompressByU. f_equal.
    erewrite lzw_roundtrip; [by apply toUTF16_toUTF8 | | | | | exact Hc];
      try done.
    by apply toUTF8_bytes. }
  destruct (Z.eqb_spec (byteLength s) (JS.len s)) as [Hb | Hb].
  - (* pure ASCII *)
    destruct (lzw_compress_some
                (LZW._init {| LZW.codeStart := Some 0x7f;
                              LZW.codeMax := Some 0x7ff;
                              LZW.maxBytes := Some (byteLength s) |}) s)
      as [r1 Hr1].
    rewrite Hr1. cbn [mbind option_bind]. destruct r1 as [payload |].
    + eexists. split; [done |].
      change (LZJS.tagW ++ payload) with (87 :: payload).
      rewrite decompress_tagged.
      rewrite !bool_decide_eq_false_2 by done.
      rewrite bool_decide_eq_true_2 by done.
      unfold LZJS._decompressByW. f_equal.
      eapply lzw_roundtrip; [| | | | exact Hr1]; try done.
      apply byteLength_ascii in Hb.
      apply Forall_forall. intros c Hc.
      rewrite Forall_forall in Hs, Hb. specialize (Hs c Hc).
      specialize (Hb c Hc). unfold code_unit in Hs. cbn. lia.
    + cbn [LZW.maxBytes].
      destruct (lzss_compress_some (Some (byteLength s)) s) as [r2 Hr2].
      rewrite Hr2. cbn [mbind option_bind]. destruct r2 as [payload |].
      * eexists. split; [done |]. by apply HS.
      * eexists. by split.
  - cbn [LZW.maxBytes].
    destruct (lzss_compress_some (Some (byteLength s)) s) as [r2 Hr2].
    destruct (lzw_compress_some
                (LZW._init {| LZW.codeStart := None; LZW.codeMax := None;
                              LZW.maxBytes := Some (byteLength s) |})
                (toUTF8 s)) as [r1 Hr1].
    destruct (_ && _).
    + (* mostly ASCII *)
      rewrite Hr1. cbn [mbind option_bind]. destruct r1 as [payload |].
      * eexists. split; [done |]. by apply HU.
      * rewrite Hr2. cbn [mbind option_bind]. destruct r2 as [payload |].
        -- eexists. split; [done |]. by apply HS.
        -- eexists. by split.
    + (* mostly beyond ASCII *)
      rewrite Hr2. cbn [mbind option_bind]. destruct r2 as [payload |].
      * eexists. split; [done |]. by apply HS.
      * rewrite Hr1. cbn [mbind option_bind]. destruct r1 as [payload |].
        -- destruct (_ <? _).
           ++ eexists. by split.
           ++ eexists. split; [done |]. by apply HU.
        -- eexists. by split.
Qed.

Lemma lzjs_roundtrip_witness :
  exists z, LZJS.compress (str "abracadabra") = Some z
            /\ LZJS.decompress z = Some (str "abracadabra").
Proof.
  apply (lzjs_roundtrip (str "abracadabra")).
  repeat constructor; vm_compute; done.
Defined.

(** * Further properties *)

(** ** Base64 *)

Lemma list_ind3 {A} (P : list A -> Prop) :
  P [] -> (forall a, P [a]) -> (forall a b, P [a; b]) ->
  (forall a b c l, P l -> P (a :: b :: c :: l)) ->
  forall l, P l.
Proof.
  intros H0 H1 H2 H3 l.
  cut (P l /\ (forall a, P (a :: l)) /\ (forall a b, P (a :: b :: l)));
    [tauto |].
  induction l as [| x l (IH0 & IH1 & IH2)]; [auto |].
  split; [apply IH1 |]. split; [intros; apply IH2 |].
  intros a b. apply H3, IH0.
Qed.

Lemma low_byte x : byte (Z.land x 0xff).
Proof.
  unfold byte. change 0xff with (Z.ones 8). rewrite Z.land_ones by lia.
  apply Z.mod_pos_bound. lia.
Qed.

Lemma low_byte_land x m :
  Z.land 0xff m = m -> Z.land x m = Z.land (Z.land x 0xff) m.
Proof. intros H. by rewrite <- Z.land_assoc, H. Qed.

Lemma low_byte_id b : byte b -> Z.land b 0xff = b.
Proof.
  unfold byte. intros H. change 0xff with (Z.ones 8).
  rewrite Z.land_ones by lia. apply Z.mod_small. lia.
Qed.

Lemma sextet_ok_all : all_from 64 0 sextet_ok = true.
Proof. vm_compute. reflexivity. Qed.

Lemma sextet_char_exists v : 0 <= v < 64 -> exists q, sextet_char v q.
Proof.
  intros Hv. pose proof (all_from_true _ _ _ v sextet_ok_all) as H.
  specialize (H ltac:(lia)). unfold sextet_ok in H.
  destruct (JS.charAt base64EncodeChars v) as [| q [| ? ?]] eqn:E; try done.
  exists q. unfold sextet_char. rewrite E.
  repeat (apply andb_true_iff in H as [H ?]).
  repeat match goal with
         | H : bool_decide _ = true |- _ => apply bool_decide_eq_true in H
         | H : negb _ = true |- _ => apply negb_true_iff, Z.eqb_neq in H
         | H : (_ =? _) = true |- _ => apply Z.eqb_eq in H
         end.
  done.
Qed.

Lemma all_bytes2_true p a b :
  all_bytes2 p = true -> byte a -> byte b -> p a b = true.
Proof.
  unfold all_bytes2, byte. intros H Ha Hb.
  apply (all_from_true _ _ _ a) in H; [| lia].
  apply (all_from_true _ _ _ b) in H; [done | lia].
Qed.

Lemma sextets_range_all :
  all_bytes2 (fun a b =>
    (0 <=? sextet1 a) && (sextet1 a <? 64)
    && (0 <=? sextet2 a b) && (sextet2 a b <? 64)
    && (0 <=? sextet3 a b) && (sextet3 a b <? 64)
    && (0 <=? sextet4 a) && (sextet4 a <? 64)) = true.
Proof. vm_compute. reflexivity. Qed.

Lemma sextets_range a b :
  byte a -> byte b ->
  0 <= sextet1 a < 64 /\ 0 <= sextet2 a b < 64
  /\ 0 <= sextet3 a b < 64 /\ 0 <= sextet4 a < 64.
Proof.
  intros Ha Hb. pose proof (all_bytes2_true _ a b sextets_range_all Ha Hb) as H.
  cbv beta in H. repeat (apply andb_true_iff in H as [H ?]). lia.
Qed.

Lemma octets_all :
  all_bytes2 (fun a b =>
    (JS.fromCharCode (octet1 (sextet1 a) (sextet2 a b)) =? a)
    && (Z.land (sextet2 a b) 0xf =? Z.shiftr b 4)
    && (Z.shiftr (Z.land (sextet3 a b) 0x3c) 2 =? Z.land a 0xf)
    && (JS.fromCharCode (Z.lor (Z.shiftl (Z.shiftr a 4) 4) (Z.land a 0xf))
        =? a)
    && (JS.fromCharCode (octet3 (sextet3 a b) (sextet4 b)) =? b)) = true.
Proof. vm_compute. reflexivity. Qed.

Lemma octet1_spec a b :
  byte a -> byte b -> JS.fromCharCode (octet1 (sextet1 a) (sextet2 a b)) = a.
Proof.
  intros Ha Hb. pose proof (all_bytes2_true _ a b octets_all Ha Hb) as H.
  cbv beta in H. repeat (apply andb_true_iff in H as [H ?]). lia.
Qed.

Lemma octet2_spec a b c :
  byte a -> byte b -> byte c ->
  JS.fromCharCode (octet2 (sextet2 a b) (sextet3 b c)) = b.
Proof.
  intros Ha Hb Hc.
  pose proof (all_bytes2_true _ a b octets_all Ha Hb) as H1.
  pose proof (all_bytes2_true _ b c octets_all Hb Hc) as H2.
  cbv beta in H1, H2.
  repeat (apply andb_true_iff in H1 as [H1 ?]).
  repeat (apply andb_true_iff in H2 as [H2 ?]).
  unfold octet2.
  replace (Z.land (sextet2 a b) 15) with (Z.shiftr b 4) by lia.
  replace (Z.shiftr (Z.land (sextet3 b c) 60) 2) with (Z.land b 15) by lia.
  lia.
Qed.

Lemma octet3_spec b c :
  byte b -> byte c -> JS.fromCharCode (octet3 (sextet3 b c) (sextet4 c)) = c.
Proof.
  intros Hb Hc. pose proof (all_bytes2_true _ b c octets_all Hb Hc) as H.
  cbv beta in H. repeat (apply andb_true_iff in H as [H ?]). lia.
Qed.
Lemma base64encode_loop_app s : forall out,
  base64encode_loop s out = out ++ base64encode s.
Proof.
  unfold base64encode.
  induction s as [| a | a b | a b c s IH] using list_ind3; intros out;
    cbn [base64encode_loop].
  - by rewrite app_nil_r.
  - done.
  - done.
  - rewrite IH, (IH ([] ++ _)). by rewrite !app_nil_l, <- !app_assoc.
Qed.

(** The groups written by [base64encode], by the sextets of the low
    bytes. *)
Lemma base64encode_three x1 x2 x3 s :
  base64encode (x1 :: x2 :: x3 :: s)
  = (JS.charAt base64EncodeChars (sextet1 (Z.land x1 0xff))
     ++ JS.charAt base64EncodeChars
          (sextet2 (Z.land x1 0xff) (Z.land x2 0xff))
     ++ JS.charAt base64EncodeChars
          (sextet3 (Z.land x2 0xff) (Z.land x3 0xff))
     ++ JS.charAt base64EncodeChars (sextet4 (Z.land x3 0xff)))
    ++ base64encode s.
Proof.
  unfold base64encode at 1. cbn [base64encode_loop].
  rewrite base64encode_loop_app, app_nil_l.
  unfold sextet1, sextet2, sextet3, sextet4.
  by rewrite <- !(low_byte_land x2), <- !(low_byte_land x3).
Qed.

Lemma base64encode_two x1 x2 :
  base64encode [x1; x2]
  = JS.charAt base64EncodeChars (sextet1 (Z.land x1 0xff))
    ++ JS.charAt base64EncodeChars
         (sextet2 (Z.land x1 0xff) (Z.land x2 0xff))
    ++ JS.charAt base64EncodeChars (sextet3 (Z.land x2 0xff) 0)
    ++ [61].
Proof.
  unfold base64encode. cbn [base64encode_loop]. rewrite app_nil_l.
  unfold sextet1, sextet2, sextet3.
  rewrite <- !(low_byte_land x2) by done.
  change (Z.shiftr (Z.land 0 192) 6) with 0. by rewrite Z.lor_0_r.
Qed.

Lemma base64encode_one x1 :
  base64encode [x1]
  = JS.charAt base64EncodeChars (sextet1 (Z.land x1 0xff))
    ++ JS.charAt base64EncodeChars (sextet2 (Z.land x1 0xff) 0)
    ++ [61; 61].
Proof.
  unfold base64encode. cbn [base64encode_loop]. rewrite app_nil_l.
  unfold sextet1, sextet2.
  change (Z.shiftr (Z.land 0 240) 4) with 0. by rewrite Z.lor_0_r.
Qed.
Arguments base64EncodeChars : simpl never.
Arguments base64DecodeChars : simpl never.

Lemma sextet_char_not_minus1 v q :
  sextet_char v q -> is_minus1 (base64_entry (Z.land q 0xff)) = false.
Proof.
  intros (Hv & _ & -> & _ & -> & _). simpl. apply Z.eqb_neq. lia.
Qed.

Lemma base64_scan_char v q rest :
  sextet_char v q -> base64_scan (q :: rest) = (Some v, rest).
Proof.
  intros H. pose proof (sextet_char_not_minus1 _ _ H) as Hm.
  destruct H as (_ & _ & Hq & _ & He & _).
  cbn [base64_scan]. rewrite Hm, Hq, He. by destruct rest.
Qed.

Lemma base64_scan_pad_char v q rest :
  sextet_char v q -> base64_scan_pad (q :: rest) = Some (Some v, rest).
Proof.
  intros H. pose proof (sextet_char_not_minus1 _ _ H) as Hm.
  destruct H as (_ & _ & Hq & Hp & He & _).
  cbn [base64_scan_pad]. rewrite Hm, Hq, He.
  destruct (Z.eqb_spec q 61); [done |]. by destruct rest.
Qed.

Lemma is_minus1_sextet v q : sextet_char v q -> is_minus1 (Some v) = false.
Proof. intros (Hv & _). simpl. apply Z.eqb_neq. lia. Qed.

Section groups.

Variables (v1 v2 v3 v4 q1 q2 q3 q4 : Z).
Hypothesis H1 : sextet_char v1 q1.
Hypothesis H2 : sextet_char v2 q2.

Lemma base64decode_loop_one fuel out :
  base64decode_loop (S fuel) [q1; q2; 61; 61] out
  = Some (out ++ [JS.fromCharCode (octet1 v1 v2)]).
Proof.
  cbn [base64decode_loop].
  rewrite (base64_scan_char v1) by done. cbn [fst snd].
  rewrite (is_minus1_sextet v1 q1) by done.
  rewrite (base64_scan_char v2) by done. cbn [fst snd].
  rewrite (is_minus1_sextet v2 q2) by done.
  done.
Qed.

Hypothesis H3 : sextet_char v3 q3.

Lemma base64decode_loop_two fuel out :
  base64decode_loop (S fuel) [q1; q2; q3; 61] out
  = Some (out ++ [JS.fromCharCode (octet1 v1 v2);
                  JS.fromCharCode (octet2 v2 v3)]).
Proof.
  cbn [base64decode_loop].
  rewrite (base64_scan_char v1) by done. cbn [fst snd].
  rewrite (is_minus1_sextet v1 q1) by done.
  rewrite (base64_scan_char v2) by done. cbn [fst snd].
  rewrite (is_minus1_sextet v2 q2) by done.
  rewrite (base64_scan_pad_char v3) by done. cbn [fst snd].
  rewrite (is_minus1_sextet v3 q3) by done.
  cbn [base64_scan_pad]. change (Z.land 61 255 =? 61) with true. cbv iota.
  by rewrite <- app_assoc.
Qed.

Hypothesis H4 : sextet_char v4 q4.

Lemma base64decode_loop_three fuel rest out :
  base64decode_loop (S fuel) (q1 :: q2 :: q3 :: q4 :: rest) out
  = base64decode_loop fuel rest
      (out ++ [JS.fromCharCode (octet1 v1 v2);
               JS.fromCharCode (octet2 v2 v3);
               JS.fromCharCode (octet3 v3 v4)]).
Proof.
  cbn [base64decode_loop].
  rewrite (base64_scan_char v1) by done. cbn [fst snd].
  rewrite (is_minus1_sextet v1 q1) by done.
  rewrite (base64_scan_char v2) by done. cbn [fst snd].
  rewrite (is_minus1_sextet v2 q2) by done.
  rewrite (base64_scan_pad_char v3) by done. cbn [fst snd].
  rewrite (is_minus1_sextet v3 q3) by done.
  rewrite (base64_scan_pad_char v4) by done. cbn [fst snd].
  rewrite (is_minus1_sextet v4 q4) by done.
  by rewrite <- !app_assoc.
Qed.

End groups.

Lemma sextet_chars a b :
  byte a -> byte b ->
  exists q1 q2 q3 q4,
    sextet_char (sextet1 a) q1 /\ sextet_char (sextet2 a b) q2
    /\ sextet_char (sextet3 a b) q3 /\ sextet_char (sextet4 a) q4.
Proof.
  intros Ha Hb. destruct (sextets_range a b Ha Hb) as (R1 & R2 & R3 & R4).
  destruct (sextet_char_exists _ R1) as [q1 ?].
  destruct (sextet_char_exists _ R2) as [q2 ?].
  destruct (sextet_char_exists _ R3) as [q3 ?].
  destruct (sextet_char_exists _ R4) as [q4 ?].
  by exists q1, q2, q3, q4.
Qed.

Lemma byte_0 : byte 0.
Proof. unfold byte. lia. Qed.

Lemma base64_loop_roundtrip s : forall fuel out,
  (length s < fuel)%nat ->
  base64decode_loop fuel (base64encode s) out
  = Some (out ++ ((fun c => Z.land c 0xff) <$> s)).
Proof.
  induction s as [| a | a b | a b c s IH] using list_ind3; intros fuel out Hf;
    (destruct fuel as [| fuel]; [simpl in Hf; lia |]).
  - by rewrite app_nil_r.
  - rewrite base64encode_one.
    destruct (sextet_chars _ _ (low_byte a) byte_0)
      as (q1 & q2 & _ & _ & Q1 & Q2 & _).
    rewrite (proj1 (proj2 Q1)), (proj1 (proj2 Q2)).
    cbn [app]. rewrite (base64decode_loop_one _ _ _ _ Q1 Q2).
    by rewrite octet1_spec by (apply low_byte || apply byte_0).
  - rewrite base64encode_two.
    destruct (sextet_chars _ _ (low_byte a) (low_byte b))
      as (q1 & q2 & _ & _ & Q1 & Q2 & _).
    destruct (sextet_chars _ _ (low_byte b) byte_0)
      as (_ & _ & q3 & _ & _ & _ & Q3 & _).
    rewrite (proj1 (proj2 Q1)), (proj1 (proj2 Q2)), (proj1 (proj2 Q3)).
    cbn [app]. rewrite (base64decode_loop_two _ _ _ _ _ _ Q1 Q2 Q3).
    rewrite octet1_spec by apply low_byte.
    by rewrite (octet2_spec _ _ 0) by (apply low_byte || apply byte_0).
  - rewrite base64encode_three.
    destruct (sextet_chars _ _ (low_byte a) (low_byte b))
      as (q1 & q2 & _ & _ & Q1 & Q2 & _).
    destruct (sextet_chars _ _ (low_byte b) (low_byte c))
      as (_ & _ & q3 & _ & _ & _ & Q3 & _).
    destruct (sextet_chars _ _ (low_byte c) byte_0)
      as (_ & _ & _ & q4 & _ & _ & _ & Q4).
    rewrite (proj1 (proj2 Q1)), (proj1 (proj2 Q2)), (proj1 (proj2 Q3)),
      (proj1 (proj2 Q4)).
    cbn [app]. rewrite (base64decode_loop_three _ _ _ _ _ _ _ _ Q1 Q2 Q3 Q4).
    rewrite IH by (simpl in Hf; lia).
    rewrite octet1_spec, octet2_spec, octet3_spec by apply low_byte.
    by rewrite <- app_assoc.
Qed.
Lemma sextet_char_base64 v q : sextet_char v q -> base64_char q.
Proof. intros (_ & _ & _ & _ & _ & H). by left. Qed.

Lemma base64encode_shape s :
  JS.len (base64encode s) = 4 * ((JS.len s + 2) / 3)
  /\ Forall base64_char (base64encode s).
Proof.
  induction s as [| a | a b | a b c s [IHl IHc]] using list_ind3.
  - done.
  - rewrite base64encode_one.
    destruct (sextet_chars _ _ (low_byte a) byte_0)
      as (q1 & q2 & _ & _ & Q1 & Q2 & _).
    rewrite (proj1 (proj2 Q1)), (proj1 (proj2 Q2)). cbn [app].
    split; [done |].
    repeat first
      [ apply Forall_nil_2
      | apply Forall_cons_2;
        [first [eapply sextet_char_base64; eassumption | right; reflexivity] |]
      ].
  - rewrite base64encode_two.
    destruct (sextet_chars _ _ (low_byte a) (low_byte b))
      as (q1 & q2 & _ & _ & Q1 & Q2 & _).
    destruct (sextet_chars _ _ (low_byte b) byte_0)
      as (_ & _ & q3 & _ & _ & _ & Q3 & _).
    rewrite (proj1 (proj2 Q1)), (proj1 (proj2 Q2)), (proj1 (proj2 Q3)).
    cbn [app]. split; [done |].
    repeat first
      [ apply Forall_nil_2
      | apply Forall_cons_2;
        [first [eapply sextet_char_base64; eassumption | right; reflexivity] |]
      ].
  - rewrite base64encode_three.
    destruct (sextet_chars _ _ (low_byte a) (low_byte b))
      as (q1 & q2 & _ & _ & Q1 & Q2 & _).
    destruct (sextet_chars _ _ (low_byte b) (low_byte c))
      as (_ & _ & q3 & _ & _ & _ & Q3 & _).
    destruct (sextet_chars _ _ (low_byte c) byte_0)
      as (_ & _ & _ & q4 & _ & _ & _ & Q4).
    rewrite (proj1 (proj2 Q1)), (proj1 (proj2 Q2)), (proj1 (proj2 Q3)),
      (proj1 (proj2 Q4)).
    cbn [app]. split.
    + unfold JS.len in *. cbn [length].
      replace (Z.of_nat (S (S (S (length s)))) + 2)
        with (Z.of_nat (length s) + 2 + 1 * 3) by lia.
      rewrite Z.div_add by lia. lia.
    + repeat (apply Forall_cons_2; [by eapply sextet_char_base64 |]). done.
Qed.

Lemma base64encode_length s : (length s <= length (base64encode s))%nat.
Proof.
  destruct (base64encode_shape s) as [H _]. unfold JS.len in H.
  pose proof (Z.div_mod (Z.of_nat (length s) + 2) 3 ltac:(lia)).
  pose proof (Z.mod_pos_bound (Z.of_nat (length s) + 2) 3 ltac:(lia)).
  lia.
Qed.

Lemma base64_roundtrip_low s :
  base64decode (base64encode s) = Some ((fun c => Z.land c 0xff) <$> s).
Proof.
  unfold base64decode. rewrite base64_loop_roundtrip; [done |].
  pose proof (base64encode_length s). lia.
Qed.

Lemma base64_roundtrip_bytes s :
  Forall byte s -> base64decode (base64encode s) = Some s.
Proof.
  intros Hs. rewrite base64_roundtrip_low. f_equal.
  induction Hs as [| c s Hc _ IH]; [done |].
  cbn [fmap list_fmap]. rewrite low_byte_id by done. f_equal. apply IH.
Qed.
Lemma base64_scan_nil : base64_scan [] = (Some (-1), []).
Proof. reflexivity. Qed.

Lemma is_minus1_true c : is_minus1 c = true -> c = Some (-1).
Proof. destruct c as [v |]; [| done]. simpl. intros H. f_equal. lia. Qed.

(** A character whose entry is -1 is passed over by the first two
    scans, the padding character included. *)
Lemma base64_scan_skip x rest :
  is_minus1 (base64_entry (Z.land x 0xff)) = true ->
  base64_scan (x :: rest) = base64_scan rest.
Proof.
  intros H. cbn [base64_scan]. rewrite H.
  destruct rest; [| done]. by rewrite (is_minus1_true _ H).
Qed.

Lemma base64_scan_keep x rest :
  is_minus1 (base64_entry (Z.land x 0xff)) = false ->
  base64_scan (x :: rest) = (base64_entry (Z.land x 0xff), rest).
Proof. intros H. cbn [base64_scan]. rewrite H. by destruct rest. Qed.

Lemma base64_scan_pad_skip x rest :
  base64_junk x = true -> base64_scan_pad (x :: rest) = base64_scan_pad rest.
Proof.
  unfold base64_junk. intros H. apply andb_true_iff in H as [H1 H2].
  apply negb_true_iff in H2. cbn [base64_scan_pad]. rewrite H1, H2.
  destruct rest; [| done]. by rewrite (is_minus1_true _ H1).
Qed.

Lemma base64_scan_pad_keep x rest :
  base64_junk x = false ->
  base64_scan_pad (x :: rest)
  = if Z.land x 0xff =? 61 then None
    else Some (base64_entry (Z.land x 0xff), rest).
Proof.
  unfold base64_junk. intros H. cbn [base64_scan_pad].
  destruct (Z.land x 0xff =? 61); [done |].
  rewrite andb_true_r in H. rewrite H. by destruct rest.
Qed.

Lemma base64_strip_cons x s :
  base64_strip (x :: s)
  = if base64_junk x then base64_strip s else x :: base64_strip s.
Proof. unfold base64_strip. simpl. by destruct (base64_junk x). Qed.

Lemma base64_scan_strip s :
  base64_scan (base64_strip s)
  = ((base64_scan s).1, base64_strip (base64_scan s).2).
Proof.
  induction s as [| x s IH]; [done |].
  rewrite base64_strip_cons.
  destruct (is_minus1 (base64_entry (Z.land x 0xff))) eqn:Hm.
  - rewrite (base64_scan_skip x s Hm).
    destruct (base64_junk x); [done |].
    by rewrite (base64_scan_skip x _ Hm).
  - replace (base64_junk x) with false
      by (unfold base64_junk; by rewrite Hm).
    by rewrite !base64_scan_keep.
Qed.

Lemma base64_scan_pad_strip s :
  base64_scan_pad (base64_strip s)
  = (fun r => (r.1, base64_strip r.2)) <$> base64_scan_pad s.
Proof.
  induction s as [| x s IH]; [done |].
  rewrite base64_strip_cons. destruct (base64_junk x) eqn:Hj.
  - by rewrite base64_scan_pad_skip.
  - rewrite !base64_scan_pad_keep by done.
    by destruct (Z.land x 0xff =? 61).
Qed.

Lemma base64_scan_length s :
  (length (base64_scan s).2 <= Nat.pred (length s))%nat.
Proof.
  induction s as [| x s IH]; [done |].
  cbn [base64_scan]. destruct s as [| y s]; [simpl; lia |].
  destruct (is_minus1 _); [| simpl; lia].
  cbn [length Nat.pred] in *. lia.
Qed.

Lemma base64_scan_pad_length s r :
  base64_scan_pad s = Some r -> (length r.2 <= Nat.pred (length s))%nat.
Proof.
  revert r. induction s as [| x s IH]; intros r.
  { cbn. intros [= <-]. done. }
  cbn [base64_scan_pad]. destruct (_ =? 61); [done |].
  destruct s as [| y s]; [intros [= <-]; simpl; lia |].
  destruct (is_minus1 _); [| intros [= <-]; simpl; lia].
  intros H. apply IH in H. cbn [length Nat.pred] in *. lia.
Qed.

(** The outer loop gives the same result on an input and on what is left
    of it without the characters passed over, with any fuel above their
    lengths. *)
Lemma base64decode_loop_strip n : forall s out m,
  (length s < n)%nat -> (length (base64_strip s) < m)%nat ->
  exists r, base64decode_loop n s out = Some r
            /\ base64decode_loop m (base64_strip s) out = Some r.
Proof.
  induction n as [| n IH]; intros s out m Hn Hm; [lia |].
  destruct m as [| m]; [lia |].
  destruct s as [| x s]; [by exists out |].
  pose proof (base64_scan_strip (x :: s)) as E1.
  pose proof (base64_scan_length (x :: s)) as L1.
  pose proof (base64_scan_length (base64_scan (x :: s)).2) as L2.
  pose proof (base64_scan_strip (base64_scan (x :: s)).2) as E2.
  cbn [base64decode_loop].
  set (r1 := base64_scan (x :: s)) in *.
  set (r2 := base64_scan r1.2) in *.
  destruct (base64_strip (x :: s)) as [| y t] eqn:Es.
  { (* nothing but characters passed over *)
    rewrite base64_scan_nil in E1. injection E1 as E1 _.
    rewrite <- E1. by exists out. }
  rewrite E1. cbn [fst snd].
  destruct (is_minus1 r1.1); [by exists out |].
  rewrite E2. cbn [fst snd].
  destruct (is_minus1 r2.1); [by exists out |].
  rewrite base64_scan_pad_strip.
  destruct (base64_scan_pad r2.2) as [r3 |] eqn:E3; cbn [fmap option_fmap
    option_map]; [| by eexists].
  cbn [fst snd]. destruct (is_minus1 r3.1); [by eexists |].
  rewrite base64_scan_pad_strip.
  destruct (base64_scan_pad r3.2) as [r4 |] eqn:E4; cbn [fmap option_fmap
    option_map]; [| by eexists].
  cbn [fst snd]. destruct (is_minus1 r4.1); [by eexists |].
  apply base64_scan_pad_length in E3 as L3.
  apply base64_scan_pad_length in E4 as L4.
  apply IH.
  - cbn [length Nat.pred] in *. lia.
  - assert (length (base64_scan (y :: t)).2 <= length t)%nat as L1'
      by apply (base64_scan_length (y :: t)).
    rewrite E1 in L1'. cbn [snd] in L1'.
    pose proof (base64_scan_length (base64_strip r1.2)) as L2'.
    rewrite E2 in L2'. cbn [snd] in L2'.
    pose proof (base64_scan_pad_strip r2.2) as E3'. rewrite E3 in E3'.
    apply base64_scan_pad_length in E3'. cbn [snd] in E3'.
    pose proof (base64_scan_pad_strip r3.2) as E4'. rewrite E4 in E4'.
    apply base64_scan_pad_length in E4'. cbn [snd] in E4'.
    cbn [length] in Hm. lia.
Qed.

Lemma base64_strip_junk j :
  Forall (fun x => base64_junk x = true) j -> base64_strip j = [].
Proof.
  induction 1 as [| x j Hx _ IH]; [done |].
  by rewrite base64_strip_cons, Hx.
Qed.

Lemma base64_strip_app s t :
  base64_strip (s ++ t) = base64_strip s ++ base64_strip t.
Proof. unfold base64_strip. apply List.filter_app. Qed.

Lemma base64_strip_length s : (length (base64_strip s) <= length s)%nat.
Proof. unfold base64_strip. apply List.filter_length_le. Qed.

Lemma base64decode_strip s :
  exists r, base64decode s = Some r /\ base64decode (base64_strip s) = Some r.
Proof. unfold base64decode. apply base64decode_loop_strip; lia. Qed.
(** X1: [base64decode] inverts [base64encode] up to the low byte of every
    code unit: decoding an encoded string gives the string of the low bytes,
    hence the string itself when all its code units are bytes. *)
Theorem base64_roundtrip s :
  base64decode (base64encode s) = Some ((fun c => Z.land c 0xff) <$> s)
  /\ (Forall byte s -> base64decode (base64encode s) = Some s).
Proof.
  split; [apply base64_roundtrip_low | apply base64_roundtrip_bytes].
Qed.

(** X2: [base64encode] writes four characters for every three code units
    of its input, the last group padded, and only characters of
    [base64EncodeChars] and the padding character. *)
Theorem base64encode_output s :
  JS.len (base64encode s) = 4 * ((JS.len s + 2) / 3)
  /\ Forall base64_char (base64encode s).
Proof. apply base64encode_shape. Qed.

(** X3: [base64decode] passes over the characters whose entry in
    [base64DecodeChars] is -1, the padding character apart, such as spaces
    and line breaks, wherever they stand: inserting them changes nothing. *)
Theorem base64decode_skips_junk p1 j p2 :
  Forall (fun x => base64_junk x = true) j ->
  exists r, base64decode (p1 ++ p2) = Some r
            /\ base64decode (p1 ++ j ++ p2) = Some r.
Proof.
  intros Hj.
  destruct (base64decode_strip (p1 ++ p2)) as (r & H1 & H2).
  destruct (base64decode_strip (p1 ++ j ++ p2)) as (r' & H1' & H2').
  rewrite !base64_strip_app, (base64_strip_junk j Hj), app_nil_l in H2'.
  rewrite base64_strip_app, H2' in H2. injection H2 as ->.
  by exists r.
Qed.

Lemma base64decode_skips_junk_witness :
  exists r, base64decode (str "QUJD" ++ str "REVG") = Some r
            /\ base64decode (str "QUJD" ++ [10; 32] ++ str "REVG") = Some r.
Proof.
  apply (base64decode_skips_junk (str "QUJD") [10; 32] (str "REVG")).
  repeat constructor.
Defined.

(** ** UTF-8 *)

Lemma byteLength_loop_add data : forall n,
  byteLength_loop data n = n + byteLength data.
Proof.
  unfold byteLength. induction data as [| c data IH]; intros n; [simpl; lia |].
  cbn [byteLength_loop]. rewrite IH, (IH (if _ <? _ then _ else _)).
  destruct (c <? 128); [lia |]. destruct (c <? 2048); lia.
Qed.

Lemma byteLength_cons c data :
  byteLength (c :: data)
  = (if c <? 0x80 then 1 else if c <? 0x800 then 2 else 3) + byteLength data.
Proof.
  unfold byteLength at 1. cbn [byteLength_loop]. rewrite byteLength_loop_add.
  destruct (c <? 128); [lia |]. destruct (c <? 2048); lia.
Qed.

Lemma byteLength_app s t : byteLength (s ++ t) = byteLength s + byteLength t.
Proof.
  induction s as [| c s IH]; [done |].
  cbn [app]. rewrite !byteLength_cons, IH. lia.
Qed.

Lemma byteLength_ge s : JS.len s <= byteLength s.
Proof. pose proof (byteLength_loop_ge s 0). unfold byteLength. lia. Qed.

Lemma toUTF8_unit_length c :
  c < 0x10000 ->
  JS.len (toUTF8_unit c)
  = if c <? 0x80 then 1 else if c <? 0x800 then 2 else 3.
Proof.
  intros Hc. unfold toUTF8_unit.
  destruct (c <? 128); [done |]. destruct (c <? 2048); [done |].
  by destruct (Z.ltb_spec c 65536); [| lia].
Qed.

Lemma toUTF8_length s :
  Forall code_unit s -> JS.len (toUTF8 s) = byteLength s.
Proof.
  induction 1 as [| c s Hc _ IH]; [done |].
  rewrite toUTF8_cons, len_app, byteLength_cons, IH.
  rewrite toUTF8_unit_length by (unfold code_unit in Hc; lia). done.
Qed.

Lemma toUTF8_ascii s :
  Forall (fun c => 0 <= c < 0x80) s -> toUTF8 s = s.
Proof.
  induction 1 as [| c s Hc _ IH]; [done |].
  rewrite toUTF8_cons, IH. unfold toUTF8_unit.
  destruct (Z.ltb_spec c 128); [| lia].
  unfold JS.fromCharCode. rewrite Z.mod_small by lia. done.
Qed.

Lemma byteLength_ascii_iff s :
  byteLength s = JS.len s <-> Forall (fun c => c < 0x80) s.
Proof.
  split; [apply byteLength_ascii |].
  induction 1 as [| c s Hc _ IH]; [done |].
  rewrite byteLength_cons, IH. destruct (Z.ltb_spec c 128); [| lia].
  unfold JS.len. cbn [length]. lia.
Qed.

Lemma toUTF8_byte s : Forall code_unit s -> Forall byte (toUTF8 s).
Proof.
  intros Hs. eapply Forall_impl; [by apply toUTF8_bytes |].
  unfold byte. intros b Hb. simpl in Hb. lia.
Qed.

(** X4: on a string of code units [byteLength] is the number of bytes that
    [toUTF8] writes, and every unit written by [toUTF8] is a byte. *)
Theorem toUTF8_byteLength s :
  Forall code_unit s ->
  JS.len (toUTF8 s) = byteLength s /\ Forall byte (toUTF8 s).
Proof.
  intros Hs. split; [by apply toUTF8_length | by apply toUTF8_byte].
Qed.

Lemma toUTF8_byteLength_witness :
  JS.len (toUTF8 [0x61; 0xe9; 0x20ac]) = byteLength [0x61; 0xe9; 0x20ac]
  /\ Forall byte (toUTF8 [0x61; 0xe9; 0x20ac]).
Proof.
  apply (toUTF8_byteLength [0x61; 0xe9; 0x20ac]).
  repeat constructor; vm_compute; done.
Defined.

(** X5: the test [dataBytes === len] of the dispatcher holds exactly for
    the strings whose code units are all below 0x80, and [toUTF8] leaves
    such a string unchanged. *)
Theorem ascii_test s :
  Forall code_unit s ->
  (byteLength s = JS.len s <-> Forall (fun c => c < 0x80) s)
  /\ (byteLength s = JS.len s -> toUTF8 s = s).
Proof.
  intros Hs. split; [apply byteLength_ascii_iff |].
  intros H. apply toUTF8_ascii. apply byteLength_ascii in H.
  rewrite Forall_forall in Hs, H. apply Forall_forall. intros c Hc.
  specialize (Hs c Hc). specialize (H c Hc). unfold code_unit in Hs. lia.
Qed.

Lemma ascii_test_witness :
  (byteLength (str "lzjs") = JS.len (str "lzjs")
   <-> Forall (fun c => c < 0x80) (str "lzjs"))
  /\ (byteLength (str "lzjs") = JS.len (str "lzjs")
      -> toUTF8 (str "lzjs") = str "lzjs").
Proof.
  apply (ascii_test (str "lzjs")).
  repeat constructor; vm_compute; done.
Defined.

(** ** The output of the LZW encoder *)

Lemma emission_cases st e :
  lzw_buffer_ok st -> LZW.emission st = Some e ->
  (exists x, LZW.buffer st = [x] /\ e = ([x], 1))
  \/ (exists v, lzw_entry st (LZW.buffer st) = Some v
                /\ e = ([v], LZW.codeBytes st)).
Proof.
  intros Hb. unfold LZW.emission.
  destruct (Z.eqb_spec (JS.len (LZW.buffer st)) 1) as [E | E].
  - revert E. unfold JS.len.
    destruct (LZW.buffer st) as [| x [| ? ?]]; cbn [length]; intros E;
      try lia.
    intros [= <-]. left. by exists x.
  - destruct Hb as [? | [v Hv]]; [lia |].
    pose proof Hv as Hv'. unfold lzw_entry in Hv.
    destruct (LZW.dict st !! JS.len (LZW.buffer st)) as [o |]; [| done].
    simpl in Hv |- *. rewrite Hv. intros [= <-]. right. by exists v.
Qed.

Lemma lzw_costs_app us vs : lzw_costs (us ++ vs) = lzw_costs us + lzw_costs vs.
Proof.
  induction us as [| u us IH]; [done |].
  unfold lzw_costs in *. cbn [app foldr]. rewrite IH. lia.
Qed.

Lemma lzw_costs_length us : Z.of_nat (length us) <= lzw_costs us.
Proof.
  induction us as [| u us IH]; [done |].
  unfold lzw_costs in *. cbn [length foldr]. unfold lzw_cost at 1.
  destruct u.1; lia.
Qed.

Lemma learn_codeBytes st c st' :
  LZW.learn st c = Some st' ->
  LZW.codeBytes st'
  = if LZW.code st + 1 =? 0x800 then 3 else LZW.codeBytes st.
Proof.
  unfold LZW.learn.
  match goal with
  | |- (?m ≫= _) = _ -> _ => destruct m as [o |]; [| done]
  end.
  by intros [= <-].
Qed.

Section lzw_output.

Variable this : LZW.instance.
Variable codeMax : Z.

Lemma lzw_loop_output rest : forall st M z,
  lzw_slots st M -> lzw_buffer_ok st ->
  LZW.compress_loop this codeMax rest st = Some (RStr z) ->
  exists us : list (bool * Z),
    z = LZW.result st ++ us.*2
    /\ (length us <= S (length rest))%nat
    /\ Forall (lzw_unit st codeMax (LZW.buffer st ++ rest)) us
    /\ (forall m, LZW._maxBytes this = Some m -> 2 <= LZW.codeBytes st ->
                  LZW.resultBytes st + lzw_costs us <= m).
Proof.
  induction rest as [| c rest IH]; intros st M z Hs Hb.
  - cbn [LZW.compress_loop].
    destruct (LZW.emission st) as [e |] eqn:He; [| done].
    cbn [mbind option_bind]. destruct (exceeds _ _) eqn:Ex; [done |].
    intros [= <-].
    apply emission_cases in He as [(x & Hx & ->) | (v & Hv & ->)]; [| | done].
    + exists [(false, x)]. cbn. split; [done |]. split; [lia |]. split.
      * constructor; [| done]. unfold lzw_unit. cbn. rewrite Hx.
        apply list_elem_of_here.
      * intros m Hm _. rewrite Hm in Ex. cbn in Ex.
        unfold lzw_costs, lzw_cost. cbn. lia.
    + exists [(true, v)]. cbn. split; [done |]. split; [lia |]. split.
      * constructor; [| done]. unfold lzw_unit. cbn. left. by eexists.
      * intros m Hm H2. rewrite Hm in Ex. cbn in Ex.
        unfold lzw_costs, lzw_cost. cbn. lia.
  - cbn [LZW.compress_loop].
    assert (JS.len (LZW.buffer st) = 1 \/ 2 <= JS.len (LZW.buffer st) <= M)
      as Hlen.
    { destruct Hb as [? | Hb]; [by left | right].
      by apply (lzw_entry_slot st M). }
    destruct (known_total st M (LZW.buffer st ++ [c]) Hs) as (b & -> & Hk).
    { rewrite len_app. change (JS.len [c]) with 1. lia. }
    cbn [mbind option_bind]. destruct b.
    + (* the buffer grows *)
      intros Hc. apply (IH _ M) in Hc as (us & Hz & Hl & Hu & Hm).
      * exists us. cbn in Hz, Hu, Hm. split; [done |].
        split; [cbn [length]; lia |].
        split; [| done].
        by rewrite <- app_assoc in Hu.
      * by apply (lzw_slots_ext st).
      * right. by apply Hk.
    + (* an emission *)
      destruct (LZW.emission st) as [e |] eqn:He; [| done].
      cbn [mbind option_bind LZW.resultBytes].
      destruct (exceeds _ _) eqn:Ex; [done |].
      apply emission_cases in He as He'; [| done].
      set (st1 := {| LZW.result := LZW.result st ++ e.1;
                     LZW.resultBytes := LZW.resultBytes st + e.2;
                     LZW.buffer := LZW.buffer st; LZW.code := LZW.code st;
                     LZW.codeBytes := LZW.codeBytes st;
                     LZW.dict := LZW.dict st;
                     LZW.dictLen := LZW.dictLen st |}).
      assert (exists u, e.1 = [u.2] /\ lzw_unit st codeMax (LZW.buffer st) u
                        /\ (2 <= LZW.codeBytes st -> lzw_cost u <= e.2))
        as (u & Hu1 & Hu2 & Hu3).
      { destruct He' as [(x & Hx & ->) | (v & Hv & ->)].
        - exists (false, x). cbn. split; [done |]. split; [| done].
          unfold lzw_unit. cbn. rewrite Hx. apply list_elem_of_here.
        - exists (true, v). cbn. split; [done |]. split; [| done].
          unfold lzw_unit. cbn. left. by eexists. }
      assert (exists st2 M2,
                 (if LZW.code st1 <=? codeMax then LZW.learn st1 c
                  else Some st1) = Some st2
                 /\ lzw_slots st2 M2
                 /\ LZW.result st2 = LZW.result st1
                 /\ LZW.resultBytes st2 = LZW.resultBytes st1
                 /\ LZW.code st <= LZW.code st2
                 /\ (2 <= LZW.codeBytes st -> 2 <= LZW.codeBytes st2)
                 /\ (forall key v, lzw_entry st2 key = Some v ->
                       lzw_entry st key = Some v
                       \/ (LZW.code st <= codeMax
                           /\ v = JS.fromCharCode (LZW.code st))))
        as (st2 & M2 & -> & Hs2 & Hr2 & Hb2 & Hc2 & Hcb2 & He2).
      { destruct (Z.leb_spec (LZW.code st1) codeMax) as [Hle | Hgt].
        - destruct (learn_total st1 M c) as (st2 & Hl2 & Hs2 & Hr2 & Hb2);
            [by apply (lzw_slots_ext st) | done |].
          eexists st2, _. split; [done |]. split; [exact Hs2 |].
          split; [done |]. split; [done |].
          pose proof (learn_entries _ _ _ Hl2) as (Hent & Hcode & _).
          split; [cbn in Hcode; lia |]. split.
          + rewrite (learn_codeBytes _ _ _ Hl2). cbn.
            destruct (_ =? 2048); lia.
          + intros key v Hv. apply Hent in Hv as [[_ ->] | Hv];
              [by right | by left].
        - exists st1, M. split; [done |].
          split; [by apply (lzw_slots_ext st) |].
          split; [done |]. split; [done |]. split; [cbn; lia |].
          split; [done |]. intros key v Hv. by left. }
      cbn [mbind option_bind]. intros Hc.
      apply (IH _ M2) in Hc as (us & Hz & Hl & Hu & Hm).
      * exists (u :: us). cbn [LZW.result LZW.buffer LZW.code LZW.codeBytes
          LZW.resultBytes] in *.
        rewrite Hr2 in Hz. cbn in Hz. rewrite Hu1, <- app_assoc in Hz.
        split; [done |]. split; [cbn; lia |]. split.
        -- constructor.
           ++ unfold lzw_unit in *. destruct u.1; [done |].
              apply elem_of_app. by left.
           ++ eapply Forall_impl; [exact Hu |]. intros w Hw.
              unfold lzw_unit in *. cbn [LZW.code] in *.
              destruct w.1.
              ** destruct Hw as [[key Hw] | (k & Hk1 & Hk2)].
                 --- apply He2 in Hw as [Hw | [Hw1 Hw2]];
                       [left; by eexists | right].
                     exists (LZW.code st). split; [lia | done].
                 --- right. exists k. split; [lia | done].
              ** apply elem_of_app. right. done.
        -- intros m Hmb H2. specialize (Hm m Hmb (Hcb2 H2)).
           rewrite Hb2 in Hm. cbn in Hm.
           unfold lzw_costs in *. cbn [foldr]. specialize (Hu3 H2). lia.
      * by apply (lzw_slots_ext st2).
      * by left.
Qed.

End lzw_output.
Lemma lzw_compress_output this data z :
  LZW.compress this data = Some (RStr z) ->
  exists us : list (bool * Z),
    z = us.*2
    /\ (length us <= length data)%nat
    /\ Forall (fun u : bool * Z =>
                 if u.1 then
                   exists k, LZW._codeStart this < k <= LZW._codeMax this
                             /\ u.2 = JS.fromCharCode k
                 else u.2 ∈ data) us
    /\ (forall m, data <> [] -> LZW._maxBytes this = Some m ->
                  lzw_costs us <= m).
Proof.
  destruct data as [| c data]; cbn [LZW.compress].
  { intros [= <-]. exists []. split; [done |]. split; [done |].
    split; [done |]. done. }
  intros Hc.
  eapply lzw_loop_output in Hc as (us & Hz & Hl & Hu & Hm);
    [| apply lzw_slots_start | by left].
  exists us. cbn in Hz, Hu, Hm. split; [done |]. split; [cbn; lia |]. split.
  - eapply Forall_impl; [exact Hu |]. intros u. unfold lzw_unit. cbn.
    destruct u.1; [| done].
    intros [[key Hk] | (k & Hk1 & Hk2)].
    + unfold lzw_entry in Hk. cbn in Hk. by rewrite lookup_empty in Hk.
    + exists k. split; [lia | done].
  - intros m _ Hmb. specialize (Hm m Hmb). lia.
Qed.

Lemma Forall_fmap_snd_length (us : list (bool * Z)) :
  JS.len us.*2 = Z.of_nat (length us).
Proof. unfold JS.len. by rewrite length_fmap. Qed.

Lemma fromCharCode_code_unit k : code_unit (JS.fromCharCode k).
Proof. unfold code_unit, JS.fromCharCode. apply Z.mod_pos_bound. lia. Qed.

Lemma lzw_compress_code_units this data z :
  Forall code_unit data -> LZW.compress this data = Some (RStr z) ->
  Forall code_unit z.
Proof.
  intros Hd Hc. apply lzw_compress_output in Hc as (us & -> & _ & Hu & _).
  apply Forall_fmap. eapply Forall_impl; [exact Hu |].
  intros [t v]. cbn. destruct t.
  - intros (k & _ & ->). apply fromCharCode_code_unit.
  - intros Hv. rewrite Forall_forall in Hd. by apply Hd.
Qed.

(** X6: [LZW.compress] raises no error on any input, whatever the
    options; when it returns a string, the string has at most as many code
    units as the input, and each of them is a character of the input or a
    code above [codeStart] and at most [codeMax], reduced modulo 2^16 by
    [fromCharCode]. *)
Theorem lzw_compress_output_units this data :
  exists r, LZW.compress this data = Some r
            /\ match r with
               | RStr z =>
                 JS.len z <= JS.len data
                 /\ Forall (fun v =>
                      v ∈ data
                      \/ exists k, LZW._codeStart this < k <= LZW._codeMax this
                                   /\ v = JS.fromCharCode k) z
               | RFalse => is_Some (LZW._maxBytes this)
               end.
Proof.
  destruct (lzw_compress_total this data) as (r & Hr & Hnone).
  exists r. split; [done |]. destruct r as [z |].
  - apply lzw_compress_output in Hr as (us & -> & Hl & Hu & _). split.
    + rewrite Forall_fmap_snd_length. unfold JS.len. lia.
    + apply Forall_fmap. eapply Forall_impl; [exact Hu |].
      intros [t v]. cbn. destruct t; [by right | by left].
  - destruct (LZW._maxBytes this) as [m |]; [by eexists |].
    by destruct (Hnone eq_refl).
Qed.

Lemma byteLength_costs data cs cm (us : list (bool * Z)) :
  Forall (fun c => 0 <= c < 0x80) data ->
  0x7f <= cs -> cm <= 0x7ff ->
  Forall (fun u : bool * Z =>
            if u.1 then exists k, cs < k <= cm /\ u.2 = JS.fromCharCode k
            else u.2 ∈ data) us ->
  byteLength us.*2 = lzw_costs us.
Proof.
  intros Hd Hcs Hcm. induction 1 as [| [t v] us Hu _ IH]; [done |].
  rewrite fmap_cons, byteLength_cons, IH. unfold lzw_costs. cbn [foldr].
  f_equal. unfold lzw_cost. cbn in *. destruct t.
  - destruct Hu as (k & Hk & ->). unfold JS.fromCharCode.
    rewrite Z.mod_small by lia.
    destruct (Z.ltb_spec k 128); [lia |].
    destruct (Z.ltb_spec k 2048); [done | lia].
  - rewrite Forall_forall in Hd. apply Hd in Hu.
    destruct (Z.ltb_spec v 128); [done | lia].
Qed.

(** X7: when the characters of the input are below 0x80 and the codes lie
    between 0x80 and 0x7FF, as the dispatcher sets them for an ASCII input,
    a string returned by [LZW.compress] under the budget [maxBytes] takes
    at most [maxBytes] bytes in UTF-8. *)
Theorem lzw_compress_budget this data m z :
  Forall (fun c => 0 <= c < 0x80) data -> data <> [] ->
  0x7f <= LZW._codeStart this -> LZW._codeMax this <= 0x7ff ->
  LZW._maxBytes this = Some m ->
  LZW.compress this data = Some (RStr z) ->
  byteLength z <= m.
Proof.
  intros Hd Hne Hcs Hcm Hm Hc.
  apply lzw_compress_output in Hc as (us & -> & _ & Hu & Hb).
  rewrite (byteLength_costs data (LZW._codeStart this) (LZW._codeMax this))
    by done.
  by apply Hb.
Qed.

Lemma lzw_compress_budget_witness :
  byteLength [97; 98; 128; 130; 98] <= 8.
Proof.
  apply (lzw_compress_budget
           (LZW._init {| LZW.codeStart := Some 0x7f; LZW.codeMax := Some 0x7ff;
                         LZW.maxBytes := Some 8 |})
           (str "abababab") 8).
  - repeat constructor; vm_compute; done.
  - done.
  - vm_compute. discriminate.
  - vm_compute. discriminate.
  - reflexivity.
  - vm_compute. reflexivity.
Defined.

(** X8: [LZW.decompress] inverts [LZW.compress] for every choice of
    [codeStart] and [codeMax] below 2^16, provided the decoder is given the
    same [codeStart] and no character of the input is above it; the
    decoder's own [codeMax] plays no part. *)
Theorem lzw_codec_roundtrip this this' data z :
  0 <= LZW._codeStart this < 65536 -> LZW._codeMax this < 65536 ->
  LZW._codeStart this' = LZW._codeStart this ->
  Forall (fun x => 0 <= x <= LZW._codeStart this) data ->
  LZW.compress this data = Some (RStr z) ->
  LZW.decompress this' z = data.
Proof. apply lzw_roundtrip. Qed.

Lemma lzw_codec_roundtrip_witness :
  LZW.decompress
    (LZW._init {| LZW.codeStart := None; LZW.codeMax := Some 5;
                  LZW.maxBytes := None |})
    [97; 98; 256; 258; 98]
  = str "abababab".
Proof.
  apply (lzw_codec_roundtrip
           (LZW._init {| LZW.codeStart := None; LZW.codeMax := None;
                         LZW.maxBytes := None |})).
  - vm_compute. split; [discriminate | reflexivity].
  - vm_compute. reflexivity.
  - reflexivity.
  - repeat constructor; vm_compute; done.
  - vm_compute. reflexivity.
Defined.

(** ** The LZW decoder on its own *)

Lemma lzw_decompress_loop_length data : forall st,
  LZW.d_prev st <> [] ->
  (forall k s, LZW.d_dict st !! k = Some s -> s <> []) ->
  (length (LZW.d_result st) + length data
   <= length (LZW.d_result (LZW.decompress_loop data st)))%nat.
Proof.
  induction data as [| c data IH]; intros st Hp Hd; [simpl; lia |].
  cbn [LZW.decompress_loop length].
  set (buffer := if c <=? LZW.d_codeMax st then [JS.fromCharCode c]
                 else match LZW.d_dict st !! c with
                      | Some s => s
                      | None => LZW.d_prev st ++ LZW.d_ch st
                      end).
  assert (buffer <> []) as Hb.
  { subst buffer. destruct (_ <=? _); [done |].
    destruct (LZW.d_dict st !! c) as [s |] eqn:E; [by eapply Hd |].
    by destruct (LZW.d_prev st). }
  etransitivity; [| apply IH].
  - unfold LZW.decompress_step. fold buffer. cbn [LZW.d_result].
    rewrite length_app. destruct buffer; [done |]. cbn [length]. lia.
  - unfold LZW.decompress_step. by fold buffer.
  - unfold LZW.decompress_step. cbn [LZW.d_dict]. intros k s.
    destruct (decide (k = LZW.d_code st)) as [-> | Hne].
    + rewrite lookup_insert_eq. intros [= <-]. by destruct (LZW.d_prev st).
    + rewrite lookup_insert_ne by done. apply Hd.
Qed.

Lemma lzw_decompress_loop_literals cs data : forall st,
  LZW.d_codeMax st = cs ->
  Forall (fun c => 0 <= c <= cs /\ c < 65536) data ->
  LZW.d_result (LZW.decompress_loop data st) = LZW.d_result st ++ data.
Proof.
  induction data as [| c data IH]; intros st Hcs Hd.
  { by rewrite app_nil_r. }
  apply Forall_cons in Hd as [Hc Hd]. cbn [LZW.decompress_loop].
  rewrite IH; [| done | done].
  unfold LZW.decompress_step. cbn [LZW.d_result]. rewrite Hcs.
  destruct (Z.leb_spec c cs); [| lia].
  unfold JS.fromCharCode. rewrite Z.mod_small by lia.
  by rewrite <- app_assoc.
Qed.

(** X9: [LZW.decompress] writes at least one character for every code unit
    it reads, whatever the input; and an input of code units none of which
    is above [codeStart] is returned as it is. *)
Theorem lzw_decompress_growth this data :
  JS.len data <= JS.len (LZW.decompress this data)
  /\ (Forall (fun c => 0 <= c <= LZW._codeStart this /\ c < 65536) data ->
      LZW.decompress this data = data).
Proof.
  destruct data as [| c data]; [done |]. cbn [LZW.decompress]. split.
  - pose proof (lzw_decompress_loop_length data (LZW.decompress_start this c))
      as H.
    cbn in H. unfold JS.len. cbn [length].
    specialize (H ltac:(done) ltac:(intros k s; by rewrite lookup_empty)).
    lia.
  - intros Hd. apply Forall_cons in Hd as [Hc Hd].
    rewrite (lzw_decompress_loop_literals (LZW._codeStart this)) by done.
    cbn. unfold JS.fromCharCode. by rewrite Z.mod_small by lia.
Qed.

(** ** A payload cut short *)

Lemma lzw_decompress_loop_app a b st :
  LZW.decompress_loop (a ++ b) st
  = LZW.decompress_loop b (LZW.decompress_loop a st).
Proof. revert st. induction a as [| c a IH]; intros st; [done | apply IH]. Qed.

Lemma lzw_decompress_loop_prefix b : forall st,
  exists r, LZW.d_result (LZW.decompress_loop b st) = LZW.d_result st ++ r.
Proof.
  induction b as [| c b IH]; intros st.
  - exists []. by rewrite app_nil_r.
  - cbn [LZW.decompress_loop].
    destruct (IH (LZW.decompress_step st c)) as [r ->].
    unfold LZW.decompress_step at 1. cbn [LZW.d_result].
    eexists. by rewrite <- app_assoc.
Qed.

(** X10: [LZW.decompress] reads its input from left to right and only
    appends: the result for the beginning of an input is the beginning of
    the result for the whole input. *)
Theorem lzw_decompress_prefix this a b :
  exists r, LZW.decompress this (a ++ b) = LZW.decompress this a ++ r.
Proof.
  destruct a as [| c a]; [by exists (LZW.decompress this b) |].
  cbn [app LZW.decompress]. rewrite lzw_decompress_loop_app.
  apply lzw_decompress_loop_prefix.
Qed.

(** ** The size of the LZSS output *)

Lemma bufferToString_length buf : JS.len (bufferToString buf) = JS.len buf.
Proof. unfold bufferToString, JS.len. by rewrite length_fmap. Qed.

Lemma literal_bytes c lastIndex :
  JS.len (LZSSCompressor.literal c lastIndex).1.1
  = (LZSSCompressor.literal c lastIndex).1.2
  /\ 1 <= (LZSSCompressor.literal c lastIndex).1.2 <= 4.
Proof.
  unfold LZSSCompressor.literal.
  repeat match goal with
         | |- context [if ?b then _ else _] => destruct b
         end; cbn; split; (done || lia).
Qed.

Lemma reference_bytes _index _length :
  JS.len (LZSSCompressor.reference _index _length).1
  = (LZSSCompressor.reference _index _length).2
  /\ 2 <= (LZSSCompressor.reference _index _length).2 <= 3.
Proof.
  unfold LZSSCompressor.reference.
  repeat match goal with
         | |- context [if ?b then _ else _] => destruct b
         end; cbn; split; (done || lia).
Qed.

Lemma lzss_loop_bytes maxBytes data dataLen fuel : forall st z,
  LZSSCompressor.bytes st
  = JS.len (LZSSCompressor.result st) + JS.len (LZSSCompressor.buf st) ->
  LZSSCompressor.compress_loop fuel maxBytes data dataLen st = Some (RStr z) ->
  LZSSCompressor.bytes st <= JS.len z
  /\ JS.len z <= LZSSCompressor.bytes st
                 + 4 * Z.max 0 (dataLen - LZSSCompressor.offset st)
  /\ (forall m, maxBytes = Some m -> LZSSCompressor.bytes st <= m ->
                JS.len z <= m).
Proof.
  induction fuel as [| fuel IH]; intros st z Hb Hc; [done |].
  cbn [LZSSCompressor.compress_loop] in Hc.
  destruct (Z.ltb_spec (LZSSCompressor.offset st) dataLen) as [Hlt | Hge].
  - destruct (LZSSCompressor._search data (LZSSCompressor.offset st) dataLen)
      as [found |] eqn:Hs; [| done].
    cbn [mbind option_bind] in Hc.
    match type of Hc with
    | (?m ≫= _) = _ => destruct m as [st1 |] eqn:E1; [| done]
    end.
    cbn [mbind option_bind] in Hc.
    assert (LZSSCompressor.bytes st1
            = JS.len (LZSSCompressor.result st1)
              + JS.len (LZSSCompressor.buf st1)
            /\ LZSSCompressor.bytes st < LZSSCompressor.bytes st1
               <= LZSSCompressor.bytes st + 4
            /\ LZSSCompressor.offset st < LZSSCompressor.offset st1)
      as (Hb1 & Hbytes & Hoff).
    { destruct found as [[_index _length] |].
      - injection E1 as <-. cbn. rewrite len_app.
        destruct (reference_bytes _index _length) as [-> ?].
        apply search_spec in Hs as (? & _). lia.
      - destruct (JS.charCodeAt data (LZSSCompressor.offset st)) as [c |];
          [| done].
        injection E1 as <-. cbn. rewrite len_app.
        destruct (literal_bytes c (LZSSCompressor.lastIndex st)) as [-> ?].
        lia. }
    destruct (exceeds _ _) eqn:Ex; [done |].
    apply IH in Hc as (H0 & H1 & H2).
    + assert (LZSSCompressor.bytes
                (if COMPRESS_CHUNK_MAX <=? JS.len (LZSSCompressor.buf st1)
                 then {| LZSSCompressor.offset := LZSSCompressor.offset st1;
                         LZSSCompressor.lastIndex :=
                           LZSSCompressor.lastIndex st1;
                         LZSSCompressor.buf := [];
                         LZSSCompressor.result :=
                           LZSSCompressor.result st1
                           ++ bufferToString (LZSSCompressor.buf st1);
                         LZSSCompressor.bytes := LZSSCompressor.bytes st1 |}
                 else st1) = LZSSCompressor.bytes st1) as Eb
        by by destruct (_ <=? _).
      assert (LZSSCompressor.offset
                (if COMPRESS_CHUNK_MAX <=? JS.len (LZSSCompressor.buf st1)
                 then {| LZSSCompressor.offset := LZSSCompressor.offset st1;
                         LZSSCompressor.lastIndex :=
                           LZSSCompressor.lastIndex st1;
                         LZSSCompressor.buf := [];
                         LZSSCompressor.result :=
                           LZSSCompressor.result st1
                           ++ bufferToString (LZSSCompressor.buf st1);
                         LZSSCompressor.bytes := LZSSCompressor.bytes st1 |}
                 else st1) = LZSSCompressor.offset st1) as Eo
        by by destruct (_ <=? _).
      rewrite Eb in H0, H1, H2. rewrite Eo in H1.
      split; [lia |]. split; [lia |].
      intros m -> Hm. apply (H2 m); [done |]. cbn in Ex. lia.
    + destruct (_ <=? _); [| done]. cbn.
      rewrite len_app, bufferToString_length. unfold JS.len at 3. cbn. lia.
  - injection Hc as <-.
    assert (JS.len (if 0 <? JS.len (LZSSCompressor.buf st)
                    then LZSSCompressor.result st
                         ++ bufferToString (LZSSCompressor.buf st)
                    else LZSSCompressor.result st)
            = LZSSCompressor.bytes st) as ->.
    { destruct (Z.ltb_spec 0 (JS.len (LZSSCompressor.buf st))).
      - rewrite len_app, bufferToString_length. lia.
      - pose proof (len_nonneg (LZSSCompressor.buf st)). lia. }
    split; [lia |]. split; [lia |]. by intros m _ ?.
Qed.

Lemma lzss_compress_bytes maxBytes data z :
  LZSSCompressor.compress maxBytes data = Some (RStr z) ->
  JS.len z <= 4 * JS.len data
  /\ (forall m, maxBytes = Some m -> 0 <= m -> JS.len z <= m)
  /\ (data <> [] -> z <> []).
Proof.
  unfold LZSSCompressor.compress.
  destruct (Z.eqb_spec (JS.len data) 0) as [E | E].
  { intros [= <-]. apply len_nil_inv in E. subst data.
    split; [done |]. split; [by intros m _ ? |]. done. }
  cbv zeta. intros Hc.
  pose proof Hc as Hc'. apply lzss_loop_bytes in Hc as (H0 & H1 & H2); [| done].
  cbn [LZSSCompressor.bytes LZSSCompressor.offset] in *.
  rewrite len_app in H1. pose proof (len_nonneg data).
  split; [lia |]. split; [intros m Hm ?; by apply (H2 m) |].
  intros _ ->.
  (* the first turn of the loop charges at least one byte *)
  cbn [LZSSCompressor.compress_loop] in Hc'.
  assert (JS.len createWindow = 1024) as Hw by done.
  rewrite len_app, Hw in Hc'. cbn [LZSSCompressor.offset] in Hc'.
  destruct (Z.ltb_spec 1024 (1024 + JS.len data)); [| lia].
  destruct (LZSSCompressor._search _ _ _) as [found |] eqn:Hs; [| done].
  cbn [mbind option_bind] in Hc'.
  match type of Hc' with
  | (?m ≫= _) = _ => destruct m as [st1 |] eqn:E1; [| done]
  end.
  cbn [mbind option_bind] in Hc'.
  destruct (exceeds _ _); [done |].
  apply lzss_loop_bytes in Hc' as (H0' & _).
  - assert (0 < LZSSCompressor.bytes st1) as Hpos.
    { destruct found as [[_index _length] |].
      - injection E1 as <-. cbn.
        pose proof (reference_bytes _index _length). lia.
      - destruct (JS.charCodeAt _ _) as [c |]; [| done].
        injection E1 as <-. cbn.
        pose proof (literal_bytes c (-1)). lia. }
    destruct (_ <=? _) in H0'; cbn in H0'; unfold JS.len in H0'; cbn in H0';
      lia.
  - assert (LZSSCompressor.bytes st1
            = JS.len (LZSSCompressor.result st1)
              + JS.len (LZSSCompressor.buf st1)) as Hb1.
    { destruct found as [[_index _length] |].
      - injection E1 as <-. cbn.
        destruct (reference_bytes _index _length) as [-> ?]. done.
      - destruct (JS.charCodeAt _ _) as [c |]; [| done].
        injection E1 as <-. cbn.
        destruct (literal_bytes c (-1)) as [-> ?]. done. }
    destruct (_ <=? _); [| done]. cbn.
    rewrite len_app, bufferToString_length. unfold JS.len at 3. cbn. lia.
Qed.

(** ** The LZSS codec on its own *)

(** X11: [LZSSDecompressor.decompress] inverts [LZSSCompressor.compress] on
    every string of code units, whatever the budget under which the
    compressor returned its string. *)
Theorem lzss_codec_roundtrip maxBytes input z :
  Forall code_unit input ->
  LZSSCompressor.compress maxBytes input = Some (RStr z) ->
  LZSSDecompressor.decompress z = Some input.
Proof. apply lzss_roundtrip. Qed.

Lemma lzss_codec_roundtrip_witness :
  LZSSDecompressor.decompress [50; 22; 23; 59; 2] = Some (str "abab").
Proof.
  apply (lzss_codec_roundtrip (Some 5) (str "abab")).
  - repeat constructor; vm_compute; done.
  - vm_compute. reflexivity.
Defined.

Lemma alphabet_byteLength z : Forall in_alphabet z -> byteLength z = JS.len z.
Proof.
  intros H. apply byteLength_ascii_iff.
  eapply Forall_impl; [exact H |]. intros c (Hc & _). simpl. lia.
Qed.

Lemma lzss_compress_ascii maxBytes data z :
  LZSSCompressor.compress maxBytes data = Some (RStr z) ->
  byteLength z = JS.len z.
Proof.
  intros Hc. apply alphabet_byteLength. revert Hc.
  unfold LZSSCompressor.compress. destruct (JS.len data =? 0).
  - by intros [= <-].
  - by apply lzss_loop_alphabet.
Qed.

(** X12: a string returned by [LZSSCompressor.compress] has at most four
    symbols for every code unit of the input; under a budget [maxBytes] it
    has at most [maxBytes] symbols, and as many bytes in UTF-8. *)
Theorem lzss_compress_size maxBytes data z :
  LZSSCompressor.compress maxBytes data = Some (RStr z) ->
  JS.len z <= 4 * JS.len data
  /\ byteLength z = JS.len z
  /\ (forall m, maxBytes = Some m -> 0 <= m -> JS.len z <= m).
Proof.
  intros Hc. pose proof (lzss_compress_ascii _ _ _ Hc).
  apply lzss_compress_bytes in Hc as (H1 & H2 & _). done.
Qed.

Lemma lzss_compress_size_witness :
  JS.len [50; 22; 23; 59; 2] <= 4 * JS.len (str "abab")
  /\ byteLength [50; 22; 23; 59; 2] = JS.len [50; 22; 23; 59; 2]
  /\ (forall m, Some 5 = Some m -> 0 <= m -> JS.len [50; 22; 23; 59; 2] <= m).
Proof.
  apply (lzss_compress_size (Some 5) (str "abab")).
  vm_compute. reflexivity.
Defined.

(** ** The budget only decides between a string and [false] *)

Lemma exceeds_weaker m mb' x :
  match mb' with Some m' => m <= m' | None => True end ->
  exceeds x (Some m) = false -> exceeds x mb' = false.
Proof.
  destruct mb' as [m' |]; [| done]. cbn. intros Hm Hx.
  apply Z.ltb_ge. apply Z.ltb_ge in Hx. lia.
Qed.

Lemma lzss_loop_budget m mb' data dataLen fuel : forall st z,
  match mb' with Some m' => m <= m' | None => True end ->
  LZSSCompressor.compress_loop fuel (Some m) data dataLen st = Some (RStr z) ->
  LZSSCompressor.compress_loop fuel mb' data dataLen st = Some (RStr z).
Proof.
  induction fuel as [| fuel IH]; intros st z Hm Hc; [done |].
  cbn [LZSSCompressor.compress_loop] in Hc |- *.
  destruct (_ <? dataLen); [| done].
  destruct (LZSSCompressor._search _ _ _) as [found |]; [| done].
  cbn [mbind option_bind] in Hc |- *.
  match type of Hc with
  | (?m ≫= _) = _ => destruct m as [st1 |]; [| done]
  end.
  cbn [mbind option_bind] in Hc |- *.
  destruct (exceeds _ (Some m)) eqn:Ex; [done |].
  rewrite (exceeds_weaker m mb' _ Hm Ex). by apply IH.
Qed.

(** X13: the budget of [LZSSCompressor.compress] never changes the string
    it returns: a string returned under a budget is returned under every
    larger budget and without one. *)
Theorem lzss_budget_only_aborts m data z :
  LZSSCompressor.compress (Some m) data = Some (RStr z) ->
  (forall m', m <= m' ->
     LZSSCompressor.compress (Some m') data = Some (RStr z))
  /\ LZSSCompressor.compress None data = Some (RStr z).
Proof.
  unfold LZSSCompressor.compress. destruct (JS.len data =? 0); [done |].
  intros Hc. split.
  - intros m' Hm. by apply (lzss_loop_budget m (Some m')).
  - by apply (lzss_loop_budget m None).
Qed.

Lemma lzss_budget_only_aborts_witness :
  (forall m', 5 <= m' ->
     LZSSCompressor.compress (Some m') (str "abab")
     = Some (RStr [50; 22; 23; 59; 2]))
  /\ LZSSCompressor.compress None (str "abab")
     = Some (RStr [50; 22; 23; 59; 2]).
Proof.
  apply (lzss_budget_only_aborts 5 (str "abab")). vm_compute. reflexivity.
Defined.

Lemma lzw_loop_budget this this' codeMax m rest : forall st z,
  LZW._maxBytes this = Some m ->
  match LZW._maxBytes this' with Some m' => m <= m' | None => True end ->
  LZW.compress_loop this codeMax rest st = Some (RStr z) ->
  LZW.compress_loop this' codeMax rest st = Some (RStr z).
Proof.
  induction rest as [| c rest IH]; intros st z Hb Hm Hc;
    cbn [LZW.compress_loop] in Hc |- *.
  - destruct (LZW.emission st) as [e |]; [| done].
    cbn [mbind option_bind] in Hc |- *. rewrite Hb in Hc.
    destruct (exceeds _ (Some m)) eqn:Ex; [done |].
    by rewrite (exceeds_weaker m _ _ Hm Ex).
  - destruct (LZW.known st _) as [b |]; [| done].
    cbn [mbind option_bind] in Hc |- *.
    destruct b; [by apply IH |].
    destruct (LZW.emission st) as [e |]; [| done].
    cbn [mbind option_bind] in Hc |- *. rewrite Hb in Hc.
    destruct (exceeds _ (Some m)) eqn:Ex; [done |].
    rewrite (exceeds_weaker m _ _ Hm Ex).
    destruct (if _ <=? _ then _ else _) as [st2 |]; [| done].
    cbn [mbind option_bind] in Hc |- *. by apply IH.
Qed.

(** X14: the budget of [LZW.compress] never changes the string it
    returns: a string returned under a budget is returned under every
    larger budget and without one, the other options being the same. *)
Theorem lzw_budget_only_aborts this this' m data z :
  LZW._codeStart this' = LZW._codeStart this ->
  LZW._codeMax this' = LZW._codeMax this ->
  LZW._maxBytes this = Some m ->
  match LZW._maxBytes this' with Some m' => m <= m' | None => True end ->
  LZW.compress this data = Some (RStr z) ->
  LZW.compress this' data = Some (RStr z).
Proof.
  intros Hcs Hcm Hb Hm. destruct data as [| c data]; [done |].
  cbn [LZW.compress]. rewrite Hcs, Hcm.
  by apply (lzw_loop_budget this this' _ m).
Qed.

Lemma lzw_budget_only_aborts_witness :
  LZW.compress
    (LZW._init {| LZW.codeStart := Some 0x7f; LZW.codeMax := Some 0x7ff;
                  LZW.maxBytes := None |}) (str "abababab")
  = Some (RStr [97; 98; 128; 130; 98]).
Proof.
  apply (lzw_budget_only_aborts
           (LZW._init {| LZW.codeStart := Some 0x7f; LZW.codeMax := Some 0x7ff;
                         LZW.maxBytes := Some 7 |}) _ 7).
  - reflexivity.
  - reflexivity.
  - reflexivity.
  - exact I.
  - vm_compute. reflexivity.
Defined.

(** X15: a back reference found by [_search] is a true one: the
    [length] characters that start [distance] places before [offset] are
    those that start at [offset]. *)
Theorem search_finds_match data offset distance length :
  WINDOW_BUFFER_MAX <= offset ->
  LZSSCompressor._search data offset (JS.len data)
  = Some (Some (distance, length)) ->
  lzss_match data offset distance length.
Proof.
  intros Ho Hs. apply search_spec in Hs as (_ & _ & Hm). by apply Hm.
Qed.

Lemma search_finds_match_witness :
  lzss_match (createWindow ++ str "abcabcabc") 1027 3 6.
Proof.
  apply (search_finds_match (createWindow ++ str "abcabcabc") 1027 3 6).
  - vm_compute. discriminate.
  - vm_compute. reflexivity.
Defined.

(** ** The search finds a pair whenever there is one *)

Lemma indexOf_from_le s : forall (p : nat) w k,
  JS.prefixb s (drop p w) = true -> (p <= length w)%nat ->
  k <= JS.indexOf_from w s k <= k + Z.of_nat p.
Proof.
  induction p as [| p IH]; intros w k Hp Hl.
  - rewrite drop_0 in Hp. destruct w; simpl; rewrite Hp; lia.
  - destruct w as [| y w]; [simpl in Hl; lia |].
    cbn [JS.indexOf_from]. destruct (JS.prefixb s (y :: w)); [lia |].
    cbn [drop] in Hp. cbn [length] in Hl.
    specialize (IH w (k + 1) Hp ltac:(lia)). lia.
Qed.

Lemma lastIndexOf_from_ge s limit : forall w (p : nat) k best,
  JS.prefixb s (drop p w) = true -> (p <= length w)%nat ->
  k + Z.of_nat p <= limit ->
  k + Z.of_nat p <= JS.lastIndexOf_from w s limit k best.
Proof.
  induction w as [| y w IH]; intros p k best Hp Hl Hlim.
  - cbn [length] in Hl. assert (p = 0%nat) as -> by lia.
    cbn in Hp |- *. rewrite Hp. destruct (Z.leb_spec k limit); simpl; lia.
  - cbn [JS.lastIndexOf_from]. destruct p as [| p].
    + rewrite drop_0 in Hp. rewrite Hp.
      destruct (Z.leb_spec k limit); [| lia]. simpl.
      destruct (lastIndexOf_from_spec s limit w (k + 1) k _ eq_refl)
        as [-> | (H1 & _)]; lia.
    + cbn [drop] in Hp. cbn [length] in Hl.
      specialize (IH p (k + 1)
                     (if (k <=? limit) && JS.prefixb s (y :: w) then k
                      else best) Hp ltac:(lia) ltac:(lia)).
      lia.
Qed.

Lemma search_loop_ge data win offset pos limit len fuel :
  forall i s index bestIndex r,
  LZSSCompressor.search_loop fuel data win offset pos limit len i s index
    bestIndex = Some r ->
  i <= r.1.
Proof.
  induction fuel as [| fuel IH]; intros i s index bestIndex r H; [done |].
  cbn [LZSSCompressor.search_loop] in H.
  destruct (if i =? 2 then _ else _) as [[s' index'] stop].
  destruct stop; [injection H as <-; simpl; lia |].
  destruct (_ =? -1); [injection H as <-; simpl; lia |].
  destruct (LZSSCompressor.search_extend _ _ _ _ _ _) as [i1 |] eqn:Hx;
    [| done].
  cbn [mbind option_bind] in H.
  apply search_extend_spec in Hx as [Hi1 _].
  destruct (bool_decide _); [injection H as <-; simpl; lia |].
  destruct (_ <? _); [| injection H as <-; simpl; lia].
  apply IH in H. lia.
Qed.

(** When the search gives up in its first turn, the pair of characters at
    [offset] does not occur in the window up to [limit]. *)
Lemma search_loop_gives_up data win offset pos limit len fuel s index
      bestIndex r :
  LZSSCompressor.search_loop fuel data win offset pos limit len 2 s index
    bestIndex = Some r ->
  r.1 = 2 ->
  let pair := JS.charAt data offset ++ JS.charAt data (offset + 1) in
  JS.indexOf win pair = -1 \/ limit < JS.indexOf win pair
  \/ JS.lastIndexOf win pair limit = -1.
Proof.
  intros H Hr pair. destruct fuel as [| fuel]; [done |].
  cbn [LZSSCompressor.search_loop] in H. change (2 =? 2) with true in H.
  cbv iota zeta in H. fold pair in H.
  destruct (Z.eqb_spec (JS.indexOf win pair) (-1)) as [E | E]; [by left |].
  destruct (Z.ltb_spec limit (JS.indexOf win pair)); [right; by left |].
  cbn [orb] in H.
  destruct (Z.eqb_spec (JS.lastIndexOf win pair limit) (-1));
    [right; by right |].
  destruct (LZSSCompressor.search_extend _ _ _ _ _ _) as [i1 |] eqn:Hx;
    [| done].
  cbn [mbind option_bind] in H.
  apply search_extend_spec in Hx as [Hi1 _].
  destruct (bool_decide _); [injection H as <-; simpl in Hr; lia |].
  destruct (_ <? _); [| injection H as <-; simpl in Hr; lia].
  apply search_loop_ge in H. lia.
Qed.

Lemma prefixb_pair c0 c1 w :
  w !! 0%nat = Some c0 -> w !! 1%nat = Some c1 ->
  JS.prefixb [c0; c1] w = true.
Proof.
  destruct w as [| x [| y w]]; try done. cbn. intros [= ->] [= ->].
  by rewrite !Z.eqb_refl.
Qed.

(** X16: [_search] answers [false] only when no back reference of two
    characters exists: with at least two characters left, the pair at
    [offset] then occurs at no distance between 1 and
    [WINDOW_BUFFER_MAX]. *)
Theorem search_gives_up data offset distance :
  WINDOW_BUFFER_MAX <= offset -> offset + 2 <= JS.len data ->
  LZSSCompressor._search data offset (JS.len data) = Some None ->
  1 <= distance <= WINDOW_BUFFER_MAX ->
  ~ lzss_match data offset distance 2.
Proof.
  intros Ho Hl Hs Hd Hm. unfold LZSSCompressor._search in Hs.
  set (len := if JS.len data - offset <? BUFFER_MAX then JS.len data - offset
              else BUFFER_MAX) in *.
  assert (2 <= len <= JS.len data - offset) as Hlen.
  { subst len. unfold BUFFER_MAX.
    destruct (Z.ltb_spec (JS.len data - offset) 120); lia. }
  destruct (Z.ltb_spec len 2); [lia |].
  set (pos := offset - WINDOW_BUFFER_MAX) in *.
  set (win := JS.substring data pos (offset + len)) in *.
  set (limit := offset + 2 - 3 - pos) in *.
  destruct (LZSSCompressor.search_loop _ _ _ _ _ _ _ _ _ _ _) as [r |] eqn:Hr;
    [| done].
  cbn [mbind option_bind] in Hs.
  destruct (Z.eqb_spec r.1 2) as [Hr2 | Hr2];
    [| by destruct r.2].
  apply search_loop_gives_up in Hr; [| done]. cbv zeta in Hr.
  (* the pair and its occurrence in the window *)
  destruct (Hm 0 ltac:(lia)) as (c0 & Hc0 & Hb0).
  destruct (Hm 1 ltac:(lia)) as (c1 & Hc1 & Hb1).
  rewrite Z.add_0_r in Hc0, Hb0.
  rewrite (charAt_singleton _ _ _ Hc0), (charAt_singleton _ _ _ Hc1) in Hr.
  cbn [app] in Hr.
  unfold WINDOW_BUFFER_MAX in *.
  assert (win = take (Z.to_nat (304 + len)) (drop (Z.to_nat pos) data)) as Hw.
  { subst win. rewrite substring_take_drop by (subst pos; lia).
    do 2 f_equal. subst pos. lia. }
  set (p := Z.to_nat (304 - distance)).
  assert (JS.prefixb [c0; c1] (drop p win) = true) as Hp.
  { apply prefixb_pair; rewrite lookup_drop, Hw.
    - rewrite lookup_take_lt by (subst p; lia). rewrite lookup_drop.
      apply charCodeAt_Some in Hb0 as [_ <-]. f_equal. subst p pos. lia.
    - rewrite lookup_take_lt by (subst p; lia). rewrite lookup_drop.
      apply charCodeAt_Some in Hb1 as [_ <-]. f_equal. subst p pos. lia. }
  assert (p <= length win)%nat as Hpl.
  { rewrite Hw, length_take, length_drop. unfold JS.len in *.
    subst p pos. lia. }
  pose proof (indexOf_from_le [c0; c1] p win 0 Hp Hpl) as Hi.
  pose proof (lastIndexOf_from_ge [c0; c1] (Z.max limit 0) win p 0 (-1) Hp Hpl)
    as Hli.
  fold (JS.indexOf win [c0; c1]) in Hi.
  fold (JS.lastIndexOf win [c0; c1] limit) in Hli.
  assert (limit = 303) as Hlimit by (subst limit pos; lia).
  assert (Z.of_nat p <= 303) by (subst p; lia).
  destruct Hr as [Hr | [Hr | Hr]]; lia.
Qed.

Lemma search_gives_up_witness :
  ~ lzss_match (createWindow ++ str "xyz") 1024 5 2.
Proof.
  apply (search_gives_up (createWindow ++ str "xyz") 1024 5).
  - vm_compute. discriminate.
  - vm_compute. discriminate.
  - vm_compute. reflexivity.
  - vm_compute. split; discriminate.
Defined.

(** ** The dispatcher and the public interface *)

(** The ways in which [LZJS.compress] builds its result. *)
Lemma lzjs_compress_cases s :
  s <> [] ->
  exists z,
    LZJS.compress s = Some z
    /\ (z = LZJS.tagN ++ s
        \/ (exists p,
               z = LZJS.tagS ++ p
               /\ LZSSCompressor.compress (Some (byteLength s)) s
                  = Some (RStr p))
        \/ (exists p,
               z = LZJS.tagW ++ p /\ byteLength s = JS.len s
               /\ LZW.compress
                    (LZW._init {| LZW.codeStart := Some 0x7f;
                                  LZW.codeMax := Some 0x7ff;
                                  LZW.maxBytes := Some (byteLength s) |}) s
                  = Some (RStr p))
        \/ (exists p,
               z = LZJS.tagU ++ p /\ byteLength s <> JS.len s
               /\ LZW.compress
                    (LZW._init {| LZW.codeStart := None; LZW.codeMax := None;
                                  LZW.maxBytes := Some (byteLength s) |})
                    (toUTF8 s)
                  = Some (RStr p))).
Proof.
  intros Hs. unfold LZJS.compress.
  destruct (Z.eqb_spec (JS.len s) 0) as [E | E].
  { by apply len_nil_inv in E. }
  cbv zeta.
  destruct (lzss_compress_some (Some (byteLength s)) s) as [r2 Hr2].
  destruct (Z.eqb_spec (byteLength s) (JS.len s)) as [Hb | Hb].
  - destruct (lzw_compress_some
                (LZW._init {| LZW.codeStart := Some 0x7f;
                              LZW.codeMax := Some 0x7ff;
                              LZW.maxBytes := Some (byteLength s) |}) s)
      as [r1 Hr1].
    rewrite Hr1. cbn [mbind option_bind]. destruct r1 as [p |].
    + eexists. split; [done |]. right. right. left. by exists p.
    + cbn [LZW.maxBytes]. rewrite Hr2. cbn [mbind option_bind].
      destruct r2 as [p |].
      * eexists. split; [done |]. right. left. by exists p.
      * eexists. split; [done |]. by left.
  - cbn [LZW.maxBytes].
    destruct (lzw_compress_some
                (LZW._init {| LZW.codeStart := None; LZW.codeMax := None;
                              LZW.maxBytes := Some (byteLength s) |})
                (toUTF8 s)) as [r1 Hr1].
    destruct (_ && _).
    + rewrite Hr1. cbn [mbind option_bind]. destruct r1 as [p |].
      * eexists. split; [done |]. right. right. right. by exists p.
      * rewrite Hr2. cbn [mbind option_bind]. destruct r2 as [p |].
        -- eexists. split; [done |]. right. left. by exists p.
        -- eexists. split; [done |]. by left.
    + rewrite Hr2. cbn [mbind option_bind]. destruct r2 as [p |].
      * eexists. split; [done |]. right. left. by exists p.
      * rewrite Hr1. cbn [mbind option_bind]. destruct r1 as [p |].
        -- destruct (_ <? _).
           ++ eexists. split; [done |]. by left.
           ++ eexists. split; [done |]. right. right. right. by exists p.
        -- eexists. split; [done |]. by left.
Qed.

(** X17: on an input that is not empty [LZJS.compress] returns a string
    that starts with one of the tags S, W, U and N. *)
Theorem lzjs_compress_tagged s :
  s <> [] ->
  exists t p, LZJS.compress s = Some (t ++ p)
              /\ (t = LZJS.tagS \/ t = LZJS.tagW \/ t = LZJS.tagU
                  \/ t = LZJS.tagN).
Proof.
  intros Hs.
  destruct (lzjs_compress_cases s Hs)
    as (z & Hz & [-> | [(p & -> & _) | [(p & -> & _) | (p & -> & _)]]]);
    eexists _, _; (split; [exact Hz |]); tauto.
Qed.

Lemma lzjs_compress_tagged_witness :
  exists t p, LZJS.compress (str "lzjs") = Some (t ++ p)
              /\ (t = LZJS.tagS \/ t = LZJS.tagW \/ t = LZJS.tagU
                  \/ t = LZJS.tagN).
Proof. apply (lzjs_compress_tagged (str "lzjs")). done. Defined.

Lemma lzss_compress_code_units maxBytes data z :
  LZSSCompressor.compress maxBytes data = Some (RStr z) -> Forall code_unit z.
Proof.
  intros Hc.
  assert (Forall in_alphabet z) as Hin.
  { revert Hc. unfold LZSSCompressor.compress. destruct (JS.len data =? 0).
    - by intros [= <-].
    - by apply lzss_loop_alphabet. }
  eapply Forall_impl; [exact Hin |]. intros c (Hc' & _).
  unfold code_unit. lia.
Qed.

Lemma tagged_size t p :
  0 <= t < 0x80 ->
  JS.len (t :: p) = 1 + JS.len p /\ byteLength (t :: p) = 1 + byteLength p.
Proof.
  intros Ht. rewrite byteLength_cons. destruct (Z.ltb_spec t 128); [| lia].
  unfold JS.len. cbn [length]. lia.
Qed.

(** What is known of the result of [LZJS.compress] on a string of code
    units. *)
Lemma lzjs_compress_result s :
  Forall code_unit s ->
  exists z,
    LZJS.compress s = Some z /\ LZJS.decompress z = Some s
    /\ Forall code_unit z
    /\ JS.len z <= byteLength s + 1
    /\ (byteLength s = JS.len s -> byteLength z <= byteLength s + 1).
Proof.
  intros Hs. destruct (decide (s = [])) as [-> | Hne]; [by exists [] |].
  pose proof (byteLength_ge s) as Hge. pose proof (len_nonneg s) as Hnn.
  destruct (lzjs_compress_cases s Hne)
    as (z & Hz & [-> | [(p & -> & Hp) | [(p & -> & Hb & Hp)
                                        | (p & -> & Hb & Hp)]]]);
    eexists; (split; [exact Hz |]).
  - (* kept as it is *)
    change (LZJS.tagN ++ s) with (78 :: s). rewrite decompress_tagged.
    rewrite !bool_decide_eq_false_2 by done.
    rewrite bool_decide_eq_true_2 by done.
    split; [done |]. split.
    { constructor; [unfold code_unit; lia | done]. }
    destruct (tagged_size 78 s) as [-> ->]; lia.
  - (* LZSS *)
    change (LZJS.tagS ++ p) with (83 :: p). rewrite decompress_tagged.
    rewrite bool_decide_eq_true_2 by done.
    split; [by apply (lzss_roundtrip (Some (byteLength s))) |].
    pose proof (lzss_compress_ascii _ _ _ Hp) as Ha.
    pose proof (lzss_compress_code_units _ _ _ Hp) as Hu.
    apply lzss_compress_bytes in Hp as (_ & Hm & _).
    specialize (Hm _ eq_refl ltac:(lia)).
    split.
    { constructor; [unfold code_unit; lia | done]. }
    destruct (tagged_size 83 p) as [-> ->]; lia.
  - (* LZW on the characters *)
    change (LZJS.tagW ++ p) with (87 :: p). rewrite decompress_tagged.
    rewrite !bool_decide_eq_false_2 by done.
    rewrite bool_decide_eq_true_2 by done.
    assert (Forall (fun c => 0 <= c < 0x80) s) as Hascii.
    { apply byteLength_ascii in Hb. rewrite Forall_forall in Hs, Hb.
      apply Forall_forall. intros c Hc. specialize (Hs c Hc).
      specialize (Hb c Hc). unfold code_unit in Hs. lia. }
    split.
    { unfold LZJS._decompressByW. f_equal.
      eapply lzw_roundtrip; [| | | | exact Hp]; try done.
      eapply Forall_impl; [exact Hascii |]. intros c Hc. cbn in Hc |- *.
      lia. }
    pose proof (lzw_compress_code_units _ _ _ Hs Hp) as Hu.
    split.
    { constructor; [unfold code_unit; lia | done]. }
    apply lzw_compress_output in Hp as Hout.
    destruct Hout as (us & -> & Hl & Hunits & Hcost).
    specialize (Hcost _ Hne eq_refl).
    pose proof (byteLength_costs s 0x7f 0x7ff us Hascii) as Hbl.
    specialize (Hbl ltac:(lia) ltac:(lia) Hunits).
    destruct (tagged_size 87 us.*2) as [-> ->]; [lia |].
    rewrite Forall_fmap_snd_length. unfold JS.len in *. lia.
  - (* LZW on the bytes *)
    change (LZJS.tagU ++ p) with (85 :: p). rewrite decompress_tagged.
    rewrite !bool_decide_eq_false_2 by done.
    rewrite bool_decide_eq_true_2 by done.
    split.
    { unfold LZJS._decompressByU. f_equal.
      erewrite lzw_roundtrip; [by apply toUTF16_toUTF8 | | | | | exact Hp];
        try done.
      by apply toUTF8_bytes. }
    assert (Forall code_unit (toUTF8 s)) as Hu8.
    { eapply Forall_impl; [by apply toUTF8_bytes |]. intros b Hb8.
      unfold code_unit. cbn in Hb8. lia. }
    pose proof (lzw_compress_code_units _ _ _ Hu8 Hp) as Hu.
    split.
    { constructor; [unfold code_unit; lia | done]. }
    split; [| done].
    apply lzw_compress_output in Hp as (us & -> & Hl & _).
    pose proof (toUTF8_length s Hs) as Hlen.
    destruct (tagged_size 85 us.*2) as [-> _]; [lia |].
    rewrite Forall_fmap_snd_length. unfold JS.len in *. lia.
Qed.
(** X18: the string returned by [LZJS.compress] for a string of code units
    has at most one code unit more than the input has bytes in UTF-8; for
    an input of characters below 0x80 it also takes at most one byte more
    than the input in UTF-8. *)
Theorem lzjs_compress_size s :
  Forall code_unit s ->
  exists z,
    LZJS.compress s = Some z
    /\ JS.len z <= byteLength s + 1
    /\ (byteLength s = JS.len s -> byteLength z <= byteLength s + 1).
Proof.
  intros Hs.
  destruct (lzjs_compress_result s Hs) as (z & Hz & _ & _ & H1 & H2).
  by exists z.
Qed.

Lemma lzjs_compress_size_witness :
  exists z,
    LZJS.compress (str "abababab") = Some z
    /\ JS.len z <= byteLength (str "abababab") + 1
    /\ (byteLength (str "abababab") = JS.len (str "abababab") ->
        byteLength z <= byteLength (str "abababab") + 1).
Proof.
  apply (lzjs_compress_size (str "abababab")).
  repeat constructor; vm_compute; done.
Defined.

(** X19: [decompressFromBase64] inverts [compressToBase64] on every string
    of code units, and the string in between is made of the characters of
    [base64EncodeChars] and the padding character. *)
Theorem base64_interface_roundtrip s :
  Forall code_unit s ->
  exists b,
    lzjs.compressToBase64 s = Some b
    /\ Forall base64_char b
    /\ lzjs.decompressFromBase64 b = Some s.
Proof.
  intros Hs.
  destruct (lzjs_compress_result s Hs) as (z & Hz & Hd & Hu & _).
  unfold lzjs.compressToBase64, lzjs.decompressFromBase64. rewrite Hz.
  cbn [mbind option_bind]. eexists. split; [done |].
  split; [apply base64encode_shape |].
  rewrite base64_roundtrip_bytes by by apply toUTF8_byte.
  cbn [mbind option_bind].
  by rewrite toUTF16_toUTF8.
Qed.

Lemma base64_interface_roundtrip_witness :
  exists b,
    lzjs.compressToBase64 (str "lzjs") = Some b
    /\ Forall base64_char b
    /\ lzjs.decompressFromBase64 b = Some (str "lzjs").
Proof.
  apply (base64_interface_roundtrip (str "lzjs")).
  repeat constructor; vm_compute; done.
Defined.

(** ** What [base64decode] returns on any input *)

Lemma base64_entries_range :
  forallb (fun v => (-1 <=? v) && (v <? 64)) base64DecodeChars = true.
Proof. vm_compute. reflexivity. Qed.

Lemma base64_entry_range k v : base64_entry k = Some v -> -1 <= v < 64.
Proof.
  unfold base64_entry. destruct (k <? 0); [done |]. intros H.
  apply list_elem_of_lookup_2, list_elem_of_In in H.
  pose proof base64_entries_range as Ha. rewrite forallb_forall in Ha.
  apply Ha in H. lia.
Qed.

(** The value that enters the bit operations is a sextet. *)
Lemma to_int32_sextet c :
  (exists k, c = base64_entry k) -> is_minus1 c = false ->
  0 <= to_int32 c < 64.
Proof.
  intros [k ->]. destruct (base64_entry k) as [v |] eqn:E; [| cbn; lia].
  apply base64_entry_range in E. cbn. intros H. apply Z.eqb_neq in H. lia.
Qed.

Lemma base64_scan_entry s : exists k, (base64_scan s).1 = base64_entry k.
Proof.
  induction s as [| x s IH]; [eexists; reflexivity |].
  cbn [base64_scan]. destruct s; [eexists; reflexivity |].
  destruct (is_minus1 _); [exact IH | eexists; reflexivity].
Qed.

Lemma base64_scan_pad_entry s r :
  base64_scan_pad s = Some r -> exists k, r.1 = base64_entry k.
Proof.
  revert r. induction s as [| x s IH]; intros r.
  { cbn. intros [= <-]. by exists 0. }
  cbn [base64_scan_pad]. destruct (_ =? 61); [done |].
  destruct s; [intros [= <-]; eexists; reflexivity |].
  destruct (is_minus1 _); [apply IH | intros [= <-]; eexists; reflexivity].
Qed.

Lemma base64_scan_consumes s :
  is_minus1 (base64_scan s).1 = false ->
  (length (base64_scan s).2 < length s)%nat.
Proof.
  destruct s as [| x s]; [done |]. intros _.
  pose proof (base64_scan_length (x :: s)). cbn [length Nat.pred] in *. lia.
Qed.

Lemma base64_scan_pad_consumes s r :
  base64_scan_pad s = Some r -> is_minus1 r.1 = false ->
  (length r.2 < length s)%nat.
Proof.
  destruct s as [| x s].
  { cbn. by intros [= <-]. }
  intros H _. apply base64_scan_pad_length in H.
  cbn [length Nat.pred] in *. lia.
Qed.

Lemma octets_bytes_all :
  all_from 64 0 (fun a => all_from 64 0 (fun b =>
    (JS.fromCharCode (octet1 a b) <? 0x100)
    && (JS.fromCharCode (octet2 a b) <? 0x100)
    && (JS.fromCharCode (octet3 a b) <? 0x100))) = true.
Proof. vm_compute. reflexivity. Qed.

Lemma octets_bytes a b :
  0 <= a < 64 -> 0 <= b < 64 ->
  byte (JS.fromCharCode (octet1 a b)) /\ byte (JS.fromCharCode (octet2 a b))
  /\ byte (JS.fromCharCode (octet3 a b)).
Proof.
  intros Ha Hb. pose proof octets_bytes_all as H.
  apply (all_from_true _ _ _ a) in H; [| lia].
  apply (all_from_true _ _ _ b) in H; [| lia].
  cbv beta in H. repeat (apply andb_true_iff in H as [H ?]).
  assert (forall x, 0 <= JS.fromCharCode x) as Hpos.
  { intros x. unfold JS.fromCharCode. apply Z.mod_pos_bound. lia. }
  unfold byte. pose proof (Hpos (octet1 a b)). pose proof (Hpos (octet2 a b)).
  pose proof (Hpos (octet3 a b)). lia.
Qed.

Ltac all_bytes :=
  repeat (apply Forall_cons_2; [assumption |]);
  first [assumption | apply Forall_nil_2].

(** The outer loop ends on every input and appends only bytes, no more of
    them than the characters it reads. *)
Lemma base64decode_loop_bound n : forall s out,
  (length s < n)%nat ->
  exists t, base64decode_loop n s out = Some (out ++ t)
            /\ (length t <= length s)%nat /\ Forall byte t.
Proof.
  induction n as [| n IH]; intros s out Hn; [lia |].
  destruct s as [| x s].
  { exists []. by rewrite app_nil_r. }
  cbn [base64decode_loop].
  set (r1 := base64_scan (x :: s)).
  pose proof (base64_scan_entry (x :: s)) as K1. fold r1 in K1.
  pose proof (base64_scan_consumes (x :: s)) as L1. fold r1 in L1.
  destruct (is_minus1 r1.1) eqn:M1.
  { exists []. rewrite app_nil_r. split; [done |].
    split; [cbn [length]; lia | done]. }
  specialize (L1 eq_refl).
  set (r2 := base64_scan r1.2).
  pose proof (base64_scan_entry r1.2) as K2. fold r2 in K2.
  pose proof (base64_scan_consumes r1.2) as L2. fold r2 in L2.
  destruct (is_minus1 r2.1) eqn:M2.
  { exists []. rewrite app_nil_r. split; [done |].
    split; [cbn [length]; lia | done]. }
  specialize (L2 eq_refl).
  pose proof (to_int32_sextet _ K1 M1) as V1.
  pose proof (to_int32_sextet _ K2 M2) as V2.
  destruct (octets_bytes _ _ V1 V2) as (B1 & _ & _).
  fold (octet1 (to_int32 r1.1) (to_int32 r2.1)).
  set (o1 := JS.fromCharCode (octet1 (to_int32 r1.1) (to_int32 r2.1))) in *.
  destruct (base64_scan_pad r2.2) as [r3 |] eqn:E3.
  2: { exists [o1]. split; [done |]. split; [cbn [length] in *; lia |].
       all_bytes. }
  pose proof (base64_scan_pad_entry _ _ E3) as K3.
  destruct (is_minus1 r3.1) eqn:M3.
  { exists [o1]. split; [done |]. split; [cbn [length] in *; lia |].
    all_bytes. }
  pose proof (base64_scan_pad_consumes _ _ E3 M3) as L3.
  pose proof (to_int32_sextet _ K3 M3) as V3.
  destruct (octets_bytes _ _ V2 V3) as (_ & B2 & _).
  fold (octet2 (to_int32 r2.1) (to_int32 r3.1)).
  set (o2 := JS.fromCharCode (octet2 (to_int32 r2.1) (to_int32 r3.1))) in *.
  destruct (base64_scan_pad r3.2) as [r4 |] eqn:E4.
  2: { exists [o1; o2]. rewrite <- app_assoc. split; [done |].
       split; [cbn [length] in *; lia |]. all_bytes. }
  pose proof (base64_scan_pad_entry _ _ E4) as K4.
  destruct (is_minus1 r4.1) eqn:M4.
  { exists [o1; o2]. rewrite <- app_assoc. split; [done |].
    split; [cbn [length] in *; lia |]. all_bytes. }
  pose proof (base64_scan_pad_consumes _ _ E4 M4) as L4.
  pose proof (to_int32_sextet _ K4 M4) as V4.
  destruct (octets_bytes _ _ V3 V4) as (_ & _ & B3).
  fold (octet3 (to_int32 r3.1) (to_int32 r4.1)).
  set (o3 := JS.fromCharCode (octet3 (to_int32 r3.1) (to_int32 r4.1))) in *.
  destruct (IH r4.2 (((out ++ [o1]) ++ [o2]) ++ [o3])) as (t & -> & Ht & Hb).
  { cbn [length] in *. lia. }
  exists (o1 :: o2 :: o3 :: t). rewrite <- !app_assoc. split; [done |].
  split; [cbn [length] in *; lia |]. all_bytes.
Qed.

(** X20: [base64decode] returns a string on every input, also on one that
    [base64encode] did not write: its loops end, and the result is made of
    bytes and is no longer than the input. *)
Theorem base64decode_any_input s :
  exists r, base64decode s = Some r
            /\ JS.len r <= JS.len s /\ Forall byte r.
Proof.
  unfold base64decode.
  destruct (base64decode_loop_bound (S (length s)) s []) as (t & -> & Ht & Hb);
    [lia |].
  exists t. split; [done |]. split; [unfold JS.len; lia | done].
Qed.
